(** * FourSG static site generator: path resolution, link rewriting,
      navigation, sitemap, SEO data and directory removal

    A shallow embedding of [src/SiteGenerator.ts],
    [src/SitemapGenerator.ts] and [src/SeoManager.ts].  JavaScript strings are modelled as
    [string]: a sequence of code units, restricted to code units below 256
    (one [ascii] per code unit).  The two npm packages the generator calls,
    [slugify] and [pathe], are modelled in their own modules. *)

From Stdlib Require Import Ascii String List ZArith QArith Qabs Lia Bool.
From stdpp Require Import gmap strings list.

Local Open Scope string_scope.
Local Open Scope list_scope.

#[local] Arguments String.append : simpl nomatch.

(** ** JavaScript string primitives *)

Module Js.

(** A line feed and a double quote, as one-unit strings. *)
Definition nl : string := String "010" "".
Definition dq : string := String "034" "".

Definition code (c : ascii) : N := N_of_ascii c.

Definition inRange (lo hi : N) (c : ascii) : bool :=
  (lo <=? code c)%N && (code c <=? hi)%N.

(** The class [\s] of a regular expression, which is also what
    [String.prototype.trim] strips: TAB, LF, VT, FF, CR, SP and NBSP. *)
Definition isSpace (c : ascii) : bool :=
  inRange 9 13 c || (code c =? 32)%N || (code c =? 160)%N.

Definition isDigit (c : ascii) : bool := inRange 48 57 c.
Definition isUpper (c : ascii) : bool := inRange 65 90 c.
Definition isLower (c : ascii) : bool := inRange 97 122 c.

(** The class [[A-Za-z0-9]]. *)
Definition isAlnum (c : ascii) : bool := isUpper c || isLower c || isDigit c.

(** [toLowerCase] on one code unit: A-Z and the Latin-1 capitals. *)
Definition lowerChar (c : ascii) : ascii :=
  if isUpper c || (inRange 192 222 c && negb (code c =? 215)%N)
  then ascii_of_N (code c + 32) else c.

Fixpoint smap (f : ascii -> ascii) (s : string) : string :=
  match s with
  | EmptyString => EmptyString
  | String c r => String (f c) (smap f r)
  end.

Fixpoint sfilter (p : ascii -> bool) (s : string) : string :=
  match s with
  | EmptyString => EmptyString
  | String c r => if p c then String c (sfilter p r) else sfilter p r
  end.

Fixpoint sforall (p : ascii -> bool) (s : string) : bool :=
  match s with
  | EmptyString => true
  | String c r => p c && sforall p r
  end.

(** [s.split('').reduce((acc, ch) => acc + f(ch), '')] *)
Fixpoint sbind (f : ascii -> string) (s : string) : string :=
  match s with
  | EmptyString => EmptyString
  | String c r => f c +:+ sbind f r
  end.

Definition toLowerCase (s : string) : string := smap lowerChar s.

Fixpoint trimStart (s : string) : string :=
  match s with
  | EmptyString => EmptyString
  | String c r => if isSpace c then trimStart r else s
  end.

Fixpoint trimEnd (s : string) : string :=
  match s with
  | EmptyString => EmptyString
  | String c r =>
      match trimEnd r with
      | EmptyString => if isSpace c then EmptyString else String c EmptyString
      | t => String c t
      end
  end.

Definition trim (s : string) : string := trimEnd (trimStart s).

(** [s.split(sep)] for a one-character separator: never the empty list. *)
Fixpoint split (sep : ascii) (s : string) : list string :=
  match s with
  | EmptyString => [EmptyString]
  | String c r =>
      if Ascii.eqb c sep then EmptyString :: split sep r
      else match split sep r with
           | h :: t => String c h :: t
           | [] => [String c EmptyString]
           end
  end.

(** [parts.join(sep)] *)
Fixpoint join (sep : string) (parts : list string) : string :=
  match parts with
  | [] => EmptyString
  | [p] => p
  | p :: rest => p +:+ sep +:+ join sep rest
  end.

Fixpoint startsWith (s p : string) {struct p} : bool :=
  match p, s with
  | EmptyString, _ => true
  | String a p', String b s' => Ascii.eqb a b && startsWith s' p'
  | String _ _, EmptyString => false
  end.

Fixpoint drop (n : nat) (s : string) : string :=
  match n, s with
  | S n', String _ r => drop n' r
  | _, _ => s
  end.

(** [s.endsWith(p)], and [s] without the suffix [p] when it ends with it. *)
Fixpoint stripSuffix (p s : string) : option string :=
  if String.eqb s p then Some EmptyString
  else match s with
       | EmptyString => None
       | String c r => option_map (String c) (stripSuffix p r)
       end.

Definition endsWith (s p : string) : bool :=
  match stripSuffix p s with Some _ => true | None => false end.

(** [s[s.length - 1]] *)
Fixpoint lastChar (s : string) : option ascii :=
  match s with
  | EmptyString => None
  | String c EmptyString => Some c
  | String _ r => lastChar r
  end.

Definition nonEmpty (s : string) : bool := negb (String.eqb s "").

(** [s.replace(pat, rep)] with a string pattern: the first occurrence only. *)
Fixpoint replaceFirst (pat rep s : string) : string :=
  if startsWith s pat then rep +:+ drop (String.length pat) s
  else match s with
       | EmptyString => EmptyString
       | String c r => String c (replaceFirst pat rep r)
       end.

(** [s.includes(sub)] *)
Fixpoint includes (s sub : string) : bool :=
  startsWith s sub
  || match s with
     | EmptyString => false
     | String _ r => includes r sub
     end.

(** [s.replace(/\s+/g, rep)]; [inRun] tells that the previous code unit
    was part of the run being replaced. *)
Fixpoint replaceSpaceRuns (rep : string) (inRun : bool) (s : string) : string :=
  match s with
  | EmptyString => EmptyString
  | String c r =>
      if isSpace c
      then (if inRun then replaceSpaceRuns rep true r
            else rep +:+ replaceSpaceRuns rep true r)
      else String c (replaceSpaceRuns rep false r)
  end.

End Js.

(** ** The [slugify] package

    [slugify(string, options)] as the npm package defines it, for the
    options the generator passes: per code unit, look the unit up in the
    package's [charMap], turn the replacement character into a space and
    delete what [options.remove] matches; under [strict] delete everything
    outside [[A-Za-z0-9\s]]; trim; replace each run of white space by the
    replacement ['-']; lower-case. *)

Module slugify.

(** The package's [charMap]: its six ASCII keys are written out; its
    entries for code units from 128 on are the table [ext]. *)
Definition charMap (ext : ascii -> option string) (c : ascii) : option string :=
  if Ascii.eqb c "$" then Some "dollar"
  else if Ascii.eqb c "%" then Some "percent"
  else if Ascii.eqb c "&" then Some "and"
  else if Ascii.eqb c "<" then Some "less"
  else if Ascii.eqb c ">" then Some "greater"
  else if Ascii.eqb c "|" then Some "or"
  else if (Js.code c <? 128)%N then None
  else ext c.

Definition replacement : string := "-".

Definition appendChar (ext : ascii -> option string) (remove : ascii -> bool)
    (ch : ascii) : string :=
  let a := match charMap ext ch with Some s => s | None => String ch EmptyString end in
  let a := if String.eqb a replacement then " " else a in
  Js.sfilter (fun c => negb (remove c)) a.

Definition slugify (ext : ascii -> option string) (remove : ascii -> bool)
    (strict lower : bool) (s : string) : string :=
  let slug := Js.sbind (appendChar ext remove) s in
  let slug := if strict then Js.sfilter (fun c => Js.isAlnum c || Js.isSpace c) slug else slug in
  let slug := Js.trim slug in
  let slug := Js.replaceSpaceRuns replacement false slug in
  if lower then Js.toLowerCase slug else slug.

End slugify.

(** ** The [pathe] package

    [pathe]'s [basename], [dirname], [join], [normalize] and [relative],
    for paths without backslashes and drive letters (on those
    [normalizeWindowsPath] is the identity and the drive-letter branches
    are not taken). *)

Module pathe.

Definition slash : ascii := "/".

(** [isAbsolute]: a leading slash, except for a path that starts [//.]. *)
Definition isAbsolute (p : string) : bool :=
  Js.startsWith p "/" && negb (Js.startsWith p "//.").

(** [normalizeString(path, allowAboveRoot)], segment by segment; [stack]
    is the result so far, last segment first.  Empty and [.] segments
    are skipped, [..] removes the segment before it (or is kept when
    there is none and [allowAboveRoot] holds). *)
Fixpoint normalizeSegs (allowAboveRoot : bool) (stack segs : list string)
    : list string :=
  match segs with
  | [] => rev stack
  | s :: r =>
      if String.eqb s "" || String.eqb s "." then normalizeSegs allowAboveRoot stack r
      else if String.eqb s ".." then
        match stack with
        | top :: below =>
            if String.eqb top ".."
            then normalizeSegs allowAboveRoot
                   (if allowAboveRoot then ".." :: stack else stack) r
            else normalizeSegs allowAboveRoot below r
        | [] => normalizeSegs allowAboveRoot
                  (if allowAboveRoot then [".."] else []) r
        end
      else normalizeSegs allowAboveRoot (s :: stack) r
  end.

Definition normalizeString (path : string) (allowAboveRoot : bool) : string :=
  Js.join "/" (normalizeSegs allowAboveRoot [] (Js.split slash path)).

(** [path.replace(/\/\/+/g, "/")] *)
Fixpoint collapseSlashes (s : string) : string :=
  match s with
  | EmptyString => EmptyString
  | String c r =>
      if Ascii.eqb c slash && Js.startsWith r "/" then collapseSlashes r
      else String c (collapseSlashes r)
  end.

Definition normalize (path : string) : string :=
  if String.eqb path "" then "."
  else
    let isPathAbsolute := isAbsolute path in
    let trailingSeparator :=
      match Js.lastChar path with Some c => Ascii.eqb c slash | None => false end in
    let p := normalizeString path (negb isPathAbsolute) in
    if String.eqb p "" then
      (if isPathAbsolute then "/" else if trailingSeparator then "./" else ".")
    else
      let p := if trailingSeparator then p +:+ "/" else p in
      if isPathAbsolute then "/" +:+ p else p.

(** [join(...arguments)]: the non-empty arguments glued with [/], runs of
    slashes collapsed, the result normalized. *)
Definition join (arguments : list string) : string :=
  match List.filter Js.nonEmpty arguments with
  | [] => "."
  | parts => normalize (collapseSlashes (Js.join "/" parts))
  end.

(** [p.replace(/\/$/, "")] *)
Definition stripTrailingSlash (p : string) : string :=
  match Js.stripSuffix "/" p with Some q => q | None => p end.

Definition dirname (p : string) : string :=
  let segments := removelast (Js.split slash (stripTrailingSlash p)) in
  let d := Js.join "/" segments in
  if String.eqb d "" then (if isAbsolute p then "/" else ".") else d.

(** [basename(p, extension)]: the last segment, without [extension] when
    it ends with it. *)
Definition basename (p extension : string) : string :=
  let lastSegment := List.last (Js.split slash p) "" in
  if negb (String.eqb extension "") then
    match Js.stripSuffix extension lastSegment with
    | Some stem => stem
    | None => lastSegment
    end
  else lastSegment.

(** The loop of [relative] that drops the common leading segments. *)
Fixpoint dropCommon (from to : list string) : list string * list string :=
  match from, to with
  | f :: from', t :: to' =>
      if String.eqb t f then dropCommon from' to' else (from, to)
  | _, _ => (from, to)
  end.

(** [resolve(p)] split at [/], for a relative [p]: the segments of the
    working directory [cwd] followed by those of [p], normalized without
    going above the root.  The root marker that [split] leaves in front
    (the empty string, or the drive) is the same for every path and is
    the first thing [relative] drops, so it is left out. *)
Definition resolveSegs (cwd : list string) (p : string) : list string :=
  normalizeSegs false [] (cwd ++ Js.split slash p).

Definition relative (cwd : list string) (from to : string) : string :=
  let '(f, t) := dropCommon (resolveSegs cwd from) (resolveSegs cwd to) in
  Js.join "/" (map (fun _ => "..") f ++ t).

End pathe.

(** ** The host's file objects *)

(** [TFile] as the generator reads it: the vault-relative [path], the file
    name [name], the name without its extension [basename], and
    [stat.mtime]. *)
Module TFile.
Record t : Type := mk { path : string; name : string; basename : string; mtime : Z }.
End TFile.

(** [frontMatter], for the keys the modelled code reads. *)
Module FrontMatter.
Record t : Type := mk { changefreq : option string; priority : option Q }.
End FrontMatter.

(** [interface SitemapUrl] *)
Module SitemapUrl.
Record t : Type := mk {
  loc : string;
  lastmod : option string;
  changefreq : option string;
  priority : option Q }.
End SitemapUrl.

(** [interface NavNode] *)
Module NavNode.
#[warnings="-register-all"]
Inductive t : Type := mk {
  name : string;
  path : string;
  outputPath : string;
  children : list t;
  isIndex : bool }.
End NavNode.

(** While the tree is built, a directory node is one object that both
    [dirMap] and the [children] array of its parent (or [rootNodes])
    hold, and that is changed after it was put there.  The model keeps
    each directory node once, in [dirMap], and an array element is either
    the key of a directory node or a page node (which nothing else
    holds). *)
Inductive NodeRef : Type :=
| DirRef (key : string)
| PageRef (page : NavNode.t).

Module DirNode.
Record t : Type := mk {
  name : string;
  path : string;
  outputPath : string;
  children : list NodeRef;
  isIndex : bool }.
End DirNode.

Record NavBuild : Type := mkNavBuild {
  dirMap : gmap string DirNode.t;
  rootNodes : list NodeRef }.

(** ** Regular-expression replacement *)

(** [\[\[([^\]]+)\]\]] after its two opening brackets: the longest run of
    code units other than a closing bracket, which two closing brackets
    must follow.  Returns the run and what follows the match. *)
Fixpoint closeBrackets (s : string) : option (string * string) :=
  match s with
  | EmptyString => None
  | String c r =>
      if Ascii.eqb c "]" then
        match r with
        | String c' rest => if Ascii.eqb c' "]" then Some (EmptyString, rest) else None
        | EmptyString => None
        end
      else
        match closeBrackets r with
        | Some (t, rest) => Some (String c t, rest)
        | None => None
        end
  end.

(** [\[\[([^\]]+)\]\]] anchored at the start of [s]: the captured group
    and the length of the match. *)
Definition bracketMatch (s : string) : option (string * nat) :=
  match s with
  | String a (String b r) =>
      if Ascii.eqb a "[" && Ascii.eqb b "[" then
        match closeBrackets r with
        | Some (t, _) =>
            if String.eqb t "" then None else Some (t, String.length t + 4)
        | None => None
        end
      else None
  | _ => None
  end.

(** [/(?<!!)\[\[([^\]]+)\]\]/]: [prevBang] tells that the code unit before
    the position is an exclamation mark. *)
Definition wikiLinkRegex (prevBang : bool) (s : string) : option (string * nat) :=
  if prevBang then None else bracketMatch s.

(** [/!\[\[([^\]]+)\]\]/] *)
Definition imageEmbedRegex (_ : bool) (s : string) : option (string * nat) :=
  match s with
  | String a r =>
      if Ascii.eqb a "!" then
        match bracketMatch r with
        | Some (t, n) => Some (t, S n)
        | None => None
        end
      else None
  | EmptyString => None
  end.

(** [content.replace(regex, (match, group) => f(group))] for a global
    regex with one group: scan from the left; where the regex matches,
    emit [f group] and continue after the match ([skip] counts the code
    units of the match still to pass); elsewhere copy the code unit. *)
Fixpoint replaceAll (regex : bool -> string -> option (string * nat))
    (f : string -> string) (prevBang : bool) (skip : nat) (s : string) : string :=
  match s with
  | EmptyString => EmptyString
  | String c r =>
      match skip with
      | S k => replaceAll regex f (Ascii.eqb c "!") k r
      | O =>
          match regex prevBang s with
          | Some (group, n) => f group +:+ replaceAll regex f (Ascii.eqb c "!") (Nat.pred n) r
          | None => String c (replaceAll regex f (Ascii.eqb c "!") 0 r)
          end
      end
  end.

(** ** SiteGenerator *)

Section SiteGenerator.

(** [slugify]'s table beyond ASCII, and the segments of the process's
    working directory, against which [pathe] resolves relative paths. *)
Variable charMapExt : ascii -> option string.
Variable cwd : list string.

(** [FOURSG_OUTPUT_DIR] of [settings.ts], and [this.sitePath]. *)
Definition FOURSG_OUTPUT_DIR : string := "obsidian-foursg".
Definition outputPath : string := FOURSG_OUTPUT_DIR.
Definition sitePath : string := outputPath +:+ "/site".

(** *** Path utilities *)

(** [options.remove]: the code units [* + ~ . ( ) ! : @], the apostrophe and
    the double quote (code 34). *)
Definition removeSet (c : ascii) : bool :=
  existsb (Ascii.eqb c)
    ["*"; "+"; "~"; "."; "("; ")"; "'"; "034"; "!"; ":"; "@"]%char.

Definition sanitizeFilename (filename : string) : string :=
  slugify.slugify charMapExt removeSet true true filename.

Definition sanitizeDirectoryPath (dirPath : string) : string :=
  Js.join "/" (map sanitizeFilename (Js.split "/" dirPath)).

Definition isIndexName (baseName : string) : bool :=
  String.eqb (Js.toLowerCase baseName) "index".

Definition getOutputPath (filePath : string) : string :=
  let baseName := pathe.basename filePath ".md" in
  let dirName := pathe.dirname filePath in
  let isIndex := isIndexName baseName in
  let outputName := if isIndex then "index" else sanitizeFilename baseName in
  if String.eqb dirName "." then
    pathe.join [sitePath; outputName +:+ ".html"]
  else
    let sanitizedDirs := sanitizeDirectoryPath dirName in
    pathe.join [sitePath; sanitizedDirs; outputName +:+ ".html"].

Definition getImageOutputPath (imagePath : string) : string :=
  let dirName := pathe.dirname imagePath in
  let fileName := pathe.basename imagePath "" in
  if String.eqb dirName "." then pathe.join [sitePath; fileName]
  else
    let sanitizedDirs := sanitizeDirectoryPath dirName in
    pathe.join [sitePath; sanitizedDirs; fileName].

(** [s.replace(/\\/g, '/')] *)
Definition backslashesToSlashes (s : string) : string :=
  Js.smap (fun c => if Ascii.eqb c "\" then "/"%char else c) s.

Definition getRelativePath (fromPath toPath : string) : string :=
  let fromDir := pathe.dirname fromPath in
  let relativePath := pathe.relative cwd fromDir toPath in
  backslashesToSlashes relativePath.

Definition getRelativePathToRoot (filePath : string) : string :=
  let relativePath := pathe.relative cwd (pathe.dirname filePath) sitePath in
  if String.eqb relativePath "" || String.eqb relativePath "." then "./"
  else backslashesToSlashes relativePath +:+ "/".

(** *** File resolution *)

(** [linkName.replace(/\.md$/, '')] *)
Definition stripMd (linkName : string) : string :=
  match Js.stripSuffix ".md" linkName with
  | Some stem => stem
  | None => linkName
  end.

(** The first loop of [findTargetFile]. *)
Fixpoint findByPath (cleanLink : string) (files : list TFile.t) : option TFile.t :=
  match files with
  | [] => None
  | file :: rest =>
      if String.eqb (TFile.path file) (cleanLink +:+ ".md")
         || String.eqb (TFile.path file) cleanLink
      then Some file else findByPath cleanLink rest
  end.

(** The second loop of [findTargetFile]. *)
Fixpoint findByBasename (cleanLink : string) (files : list TFile.t) : option TFile.t :=
  match files with
  | [] => None
  | file :: rest =>
      if String.eqb (TFile.basename file) cleanLink
      then Some file else findByBasename cleanLink rest
  end.

Definition findTargetFile (files : list TFile.t) (linkName : string) : option TFile.t :=
  let cleanLink := stripMd linkName in
  match findByPath cleanLink files with
  | Some file => Some file
  | None => findByBasename cleanLink files
  end.

Fixpoint findImageFile (imageFiles : list TFile.t) (imageName : string) : option TFile.t :=
  match imageFiles with
  | [] => None
  | file :: rest =>
      if String.eqb (TFile.path file) imageName
         || String.eqb (TFile.name file) imageName
         || String.eqb (TFile.basename file) imageName
      then Some file else findImageFile rest imageName
  end.

(** *** Markdown processing *)

(** [parts[0].trim()] of [linkText.split('|')]. *)
Definition linkOf (linkText : string) : string :=
  Js.trim (hd "" (Js.split "|" linkText)).

(** [parts[1] ? parts[1].trim() : link]; the empty string is falsy. *)
Definition displayTextOf (linkText : string) : string :=
  match nth_error (Js.split "|" linkText) 1 with
  | Some p => if String.eqb p "" then linkOf linkText else Js.trim p
  | None => linkOf linkText
  end.

(** The callback of [convertWikiLinks]. *)
Definition wikiLinkReplacement (files : list TFile.t) (file : TFile.t)
    (linkText : string) : string :=
  let link := linkOf linkText in
  let displayText := displayTextOf linkText in
  match findTargetFile files link with
  | None => "[" +:+ displayText +:+ "](#broken-link)"
  | Some targetFile =>
      let targetOutputPath := getOutputPath (TFile.path targetFile) in
      let currentOutputPath := getOutputPath (TFile.path file) in
      let relativePath := getRelativePath currentOutputPath targetOutputPath in
      "[" +:+ displayText +:+ "](" +:+ relativePath +:+ ")"
  end.

Definition convertWikiLinks (files : list TFile.t) (content : string)
    (file : TFile.t) : string :=
  replaceAll wikiLinkRegex (wikiLinkReplacement files file) false 0 content.

(** The callback of [convertImageEmbeds]. *)
Definition imageEmbedReplacement (imageFiles : list TFile.t) (file : TFile.t)
    (imagePath : string) : string :=
  match findImageFile imageFiles imagePath with
  | None => "![" +:+ imagePath +:+ "](#broken-image)"
  | Some imageFile =>
      let currentOutputPath := getOutputPath (TFile.path file) in
      let imageOutputPath := getImageOutputPath (TFile.path imageFile) in
      let relativePath := getRelativePath currentOutputPath imageOutputPath in
      "![](" +:+ relativePath +:+ ")"
  end.

Definition convertImageEmbeds (imageFiles : list TFile.t) (content : string)
    (file : TFile.t) : string :=
  replaceAll imageEmbedRegex (imageEmbedReplacement imageFiles file) false 0 content.

(** [markdownToHTML] up to the call of [marked]. *)
Definition rewriteLinks (files imageFiles : list TFile.t) (content : string)
    (file : TFile.t) : string :=
  convertImageEmbeds imageFiles (convertWikiLinks files content file) file.

(** *** Navigation generation *)

(** [files.sort((a, b) => a.path.localeCompare(b.path))]: the collation
    is the host's. *)
Variable sortByPath : list TFile.t -> list TFile.t.

Definition pushChild (ref : NodeRef) (node : DirNode.t) : DirNode.t :=
  {| DirNode.name := DirNode.name node;
     DirNode.path := DirNode.path node;
     DirNode.outputPath := DirNode.outputPath node;
     DirNode.children := DirNode.children node ++ [ref];
     DirNode.isIndex := DirNode.isIndex node |}.

Definition setIndexPage (outputPath : string) (node : DirNode.t) : DirNode.t :=
  {| DirNode.name := DirNode.name node;
     DirNode.path := DirNode.path node;
     DirNode.outputPath := outputPath;
     DirNode.children := DirNode.children node;
     DirNode.isIndex := true |}.

(** One round of the inner loop: the directory [part] under
    [parentPath]. *)
Definition ensureDir (parentPath part : string) (st : NavBuild) : string * NavBuild :=
  let currentPath :=
    if Js.nonEmpty parentPath then parentPath +:+ "/" +:+ part else part in
  match dirMap st !! currentPath with
  | Some _ => (currentPath, st)
  | None =>
      let dirNode := DirNode.mk part currentPath "" [] false in
      let m := <[currentPath := dirNode]> (dirMap st) in
      if Js.nonEmpty parentPath then
        match m !! parentPath with
        | Some parent =>
            (currentPath,
             mkNavBuild (<[parentPath := pushChild (DirRef currentPath) parent]> m)
               (rootNodes st))
        | None => (currentPath, mkNavBuild m (rootNodes st))
        end
      else (currentPath, mkNavBuild m (rootNodes st ++ [DirRef currentPath]))
  end.

(** The inner loop over [parts[0 .. length - 2]]. *)
Fixpoint ensureDirs (dirParts : list string) (currentPath : string) (st : NavBuild)
    : string * NavBuild :=
  match dirParts with
  | [] => (currentPath, st)
  | part :: rest =>
      let '(currentPath', st') := ensureDir currentPath part st in
      ensureDirs rest currentPath' st'
  end.

Definition pageNode (file : TFile.t) (isIndex : bool) : NavNode.t :=
  NavNode.mk (TFile.basename file) (TFile.path file)
    (getOutputPath (TFile.path file)) [] isIndex.

(** The body of the outer loop. *)
Definition addFile (st : NavBuild) (file : TFile.t) : NavBuild :=
  let parts := Js.split "/" (TFile.path file) in
  let isIndex := isIndexName (TFile.basename file) in
  if Nat.eqb (length parts) 1 then
    mkNavBuild (dirMap st) (rootNodes st ++ [PageRef (pageNode file isIndex)])
  else
    let '(currentPath, st) := ensureDirs (removelast parts) "" st in
    match dirMap st !! currentPath with
    | Some dirNode =>
        if isIndex then
          mkNavBuild
            (<[currentPath := setIndexPage (getOutputPath (TFile.path file)) dirNode]>
               (dirMap st))
            (rootNodes st)
        else
          mkNavBuild
            (<[currentPath := pushChild (PageRef (pageNode file false)) dirNode]>
               (dirMap st))
            (rootNodes st)
    | None => st
    end.

(** The tree an array element stands for, directories being looked up in
    [dirMap]; [fuel] bounds the depth to which children are followed. *)
Fixpoint resolve (fuel : nat) (m : gmap string DirNode.t) (ref : NodeRef) : NavNode.t :=
  match ref with
  | PageRef page => page
  | DirRef key =>
      match m !! key with
      | Some node =>
          NavNode.mk (DirNode.name node) (DirNode.path node) (DirNode.outputPath node)
            (match fuel with
             | O => []
             | S fuel' => map (resolve fuel' m) (DirNode.children node)
             end)
            (DirNode.isIndex node)
      | None => NavNode.mk "" key "" [] false
      end
  end.

(** A key is longer than the keys above it, so no chain of directories is
    longer than the longest path. *)
Definition depthBound (files : list TFile.t) : nat :=
  S (list_max (map (fun file => String.length (TFile.path file)) files)).

Definition buildNavigationState (files : list TFile.t) : NavBuild :=
  fold_left addFile (sortByPath files) (mkNavBuild ∅ []).

Definition buildNavigationTree (files : list TFile.t) : list NavNode.t :=
  let st := buildNavigationState files in
  map (resolve (depthBound files) (dirMap st)) (rootNodes st).

(** [isNodeOnPathToFile] *)
Fixpoint isNodeOnPathToFile (node : NavNode.t) (currentPath : string) : bool :=
  String.eqb (NavNode.outputPath node) currentPath
  || existsb (fun child => isNodeOnPathToFile child currentPath) (NavNode.children node).

(** [`nav-${node.path.replace(/[^a-z0-9]/gi, '-')}`] *)
Definition folderId (path : string) : string :=
  "nav-" +:+ Js.smap (fun c => if Js.isAlnum c then c else "-"%char) path.

(** The link, or the span, that both branches of [renderNavTree] write
    for a node. *)
Definition navLabel (currentPath : string) (node : NavNode.t) : string :=
  let isCurrent := String.eqb (NavNode.outputPath node) currentPath in
  if Js.nonEmpty (NavNode.outputPath node) then
    let relativePath := getRelativePath currentPath (NavNode.outputPath node) in
    "<a href=" +:+ Js.dq +:+ relativePath +:+ Js.dq
    +:+ (if isCurrent then " class=" +:+ Js.dq +:+ "active" +:+ Js.dq else "")
    +:+ ">" +:+ NavNode.name node +:+ "</a>"
  else "<span>" +:+ NavNode.name node +:+ "</span>".

(** [renderNavTree] around its loop body [item]: nothing for no nodes,
    else the list element with the items added one after the other. *)
Definition navList (item : NavNode.t -> string) (nodes : list NavNode.t) : string :=
  match nodes with
  | [] => ""
  | _ => fold_left (fun html node => html +:+ item node) nodes "<ul>" +:+ "</ul>"
  end.

(** The loop body of [renderNavTree], from [<li>] to [</li>]; the call of
    [renderNavTree] on the children is [navList] of this body. *)
Fixpoint renderNavItem (currentPath : string) (node : NavNode.t) : string :=
  let hasChildren := negb (Nat.eqb (length (NavNode.children node)) 0) in
  let isOnCurrentPath := isNodeOnPathToFile node currentPath in
  "<li>"
  +:+ (if hasChildren then
         let openAttr := if isOnCurrentPath then " open" else "" in
         "<details id=" +:+ Js.dq +:+ folderId (NavNode.path node) +:+ Js.dq
         +:+ " class=" +:+ Js.dq +:+ "nav-folder" +:+ Js.dq +:+ openAttr +:+ ">"
         +:+ "<summary>" +:+ navLabel currentPath node +:+ "</summary>"
         +:+ navList (renderNavItem currentPath) (NavNode.children node)
         +:+ "</details>"
       else navLabel currentPath node)
  +:+ "</li>".

(** [renderNavTree(nodes, currentPath, depth)]; [depth] is passed along
    and never read. *)
Definition renderNavTree (nodes : list NavNode.t) (currentPath : string) : string :=
  navList (renderNavItem currentPath) nodes.

Definition generateNavigation (files : list TFile.t) (currentPath : string) : string :=
  renderNavTree (buildNavigationTree files) currentPath.

(** *** Sitemap entries *)

(** [new Date(mtime).toISOString().split('T')[0]] *)
Variable isoDate : Z -> string.

Definition getPageUrl (outputFilePath : string) : string :=
  let relativePath := Js.replaceFirst (sitePath +:+ "/") "" outputFilePath in
  backslashesToSlashes relativePath.

Definition getChangeFreq (filePath : string) : string :=
  let baseName := Js.toLowerCase (pathe.basename filePath ".md") in
  if String.eqb baseName "index" then "weekly" else "monthly".

Definition getPriority (filePath : string) : Q :=
  let baseName := Js.toLowerCase (pathe.basename filePath ".md") in
  if String.eqb baseName "index" then
    let depth := length (Js.split "/" filePath) in
    if Nat.eqb depth 1 then 1.0%Q else 0.8%Q
  else 0.6%Q.

(** The object [wrapInTemplate] passes to [sitemapGenerator.addUrl].
    [a || b] takes [b] when [a] is undefined or the empty string. *)
Definition sitemapUrlOf (file : TFile.t) (frontMatter : FrontMatter.t)
    (outputFilePath : string) : SitemapUrl.t :=
  {| SitemapUrl.loc := getPageUrl outputFilePath;
     SitemapUrl.lastmod := Some (isoDate (TFile.mtime file));
     SitemapUrl.changefreq :=
       Some (match FrontMatter.changefreq frontMatter with
             | Some c => if String.eqb c "" then getChangeFreq (TFile.path file) else c
             | None => getChangeFreq (TFile.path file)
             end);
     SitemapUrl.priority :=
       Some (match FrontMatter.priority frontMatter with
             | Some p => p
             | None => getPriority (TFile.path file)
             end) |}.

(** *** The files of the vault that are processed *)

(** [normalizePath] is the host's. *)
Variable normalizePath : string -> string.

Definition isInOutputPath (filePath : string) : bool :=
  let normalizedFilePath := normalizePath filePath in
  let normalizedOutputPath := normalizePath outputPath in
  Js.startsWith normalizedFilePath (normalizedOutputPath +:+ "/")
  || String.eqb normalizedFilePath normalizedOutputPath.

(** [getFilteredMarkdownFiles] when nothing is cached, from the files
    that [vault.getMarkdownFiles()] returns. *)
Definition getFilteredMarkdownFiles (allMarkdownFiles : list TFile.t) : list TFile.t :=
  List.filter (fun file => negb (isInOutputPath (TFile.path file))) allMarkdownFiles.

(** [array.slice(start, stop)] for indices within the array. *)
Definition slice {A : Type} (start stop : nat) (l : list A) : list A :=
  firstn (stop - start) (skipn start l).

Definition batchSize : nat := 5.

(** The batches that the loop of [generateSite] hands to [Promise.all],
    from index [i] on; [fuel] bounds the number of rounds, and there is
    no result when it is used up. *)
Fixpoint batchesFrom (fuel i : nat) (markdownFiles : list TFile.t)
    : option (list (list TFile.t)) :=
  if Nat.ltb i (length markdownFiles) then
    match fuel with
    | O => None
    | S fuel' =>
        let batch := slice i (Nat.min (i + batchSize) (length markdownFiles))
                       markdownFiles in
        option_map (cons batch) (batchesFrom fuel' (i + batchSize) markdownFiles)
    end
  else Some [].

Definition batches (markdownFiles : list TFile.t) : option (list (list TFile.t)) :=
  batchesFrom (length markdownFiles) 0 markdownFiles.

End SiteGenerator.

(** ** SitemapGenerator *)

Module SitemapGenerator.

Record t : Type := mk { urls : list SitemapUrl.t; hostname : string }.

(** [constructor(hostname)]: [hostname.replace(/\/$/, '')] *)
Definition new (hostname : string) : t :=
  {| urls := []; hostname := pathe.stripTrailingSlash hostname |}.

Definition addUrl (g : t) (url : SitemapUrl.t) : t :=
  {| urls := urls g ++ [url]; hostname := hostname g |}.

Definition clear (g : t) : t := {| urls := []; hostname := hostname g |}.

Definition getUrlCount (g : t) : nat := length (urls g).

Definition escapeChar (c : ascii) : string :=
  if Ascii.eqb c "&" then "&amp;"
  else if Ascii.eqb c "<" then "&lt;"
  else if Ascii.eqb c ">" then "&gt;"
  else if Ascii.eqb c "034" then "&quot;"
  else if Ascii.eqb c "'" then "&apos;"
  else String c EmptyString.

Definition escapeXml (text : string) : string := Js.sbind escapeChar text.

Definition digitChar (d : Z) : ascii := ascii_of_N (48 + Z.to_N d).

(** The decimal digits of [n], most significant first, in front of [acc]. *)
Fixpoint digitsOf (fuel : nat) (n : Z) (acc : string) : string :=
  let acc' := String (digitChar (n mod 10)) acc in
  match fuel with
  | O => acc'
  | S fuel' => if (n <? 10)%Z then acc' else digitsOf fuel' (n / 10) acc'
  end.

Definition decimal (n : Z) : string := digitsOf (Z.to_nat (Z.log2 n)) n "".

(** The integer [n] for which [n / 10 - x] is closest to zero, the larger
    one of two, for [x >= 0]. *)
Definition roundTenths (x : Q) : Z :=
  ((20 * Qnum x + Z.pos (Qden x)) / (2 * Z.pos (Qden x)))%Z.

Section ToFixed.

(** [Number::toString], which [toFixed] falls back to from 10^21 on. *)
Variable numberToString : Q -> string.

(** [x.toFixed(1)] for a finite number [x], given by its exact value. *)
Definition toFixed1 (x : Q) : string :=
  let s := if Qlt_le_dec x 0 then "-" else "" in
  let x := Qabs x in
  if Qle_bool (10 ^ 21) x then s +:+ numberToString x
  else
    let n := roundTenths x in
    s +:+ decimal (n / 10) +:+ "." +:+ String (digitChar (n mod 10)) "".

Definition generateUrlEntry (g : t) (url : SitemapUrl.t) : string :=
  let loc := hostname g
             +:+ (if Js.startsWith (SitemapUrl.loc url) "/" then "" else "/")
             +:+ SitemapUrl.loc url in
  let entry := "  <url>" +:+ Js.nl +:+ "    <loc>" +:+ escapeXml loc +:+ "</loc>" in
  let entry :=
    match SitemapUrl.lastmod url with
    | Some l => if String.eqb l "" then entry
                else entry +:+ Js.nl +:+ "    <lastmod>" +:+ l +:+ "</lastmod>"
    | None => entry
    end in
  let entry :=
    match SitemapUrl.changefreq url with
    | Some c => if String.eqb c "" then entry
                else entry +:+ Js.nl +:+ "    <changefreq>" +:+ c +:+ "</changefreq>"
    | None => entry
    end in
  let entry :=
    match SitemapUrl.priority url with
    | Some p => entry +:+ Js.nl +:+ "    <priority>" +:+ toFixed1 p +:+ "</priority>"
    | None => entry
    end in
  entry +:+ Js.nl +:+ "  </url>".

Definition xmlHeader : string :=
  "<?xml version=" +:+ Js.dq +:+ "1.0" +:+ Js.dq +:+ " encoding=" +:+ Js.dq
  +:+ "UTF-8" +:+ Js.dq +:+ "?>".

Definition urlsetOpen : string :=
  "<urlset xmlns=" +:+ Js.dq +:+ "http://www.sitemaps.org/schemas/sitemap/0.9"
  +:+ Js.dq +:+ ">".

Definition toXml (g : t) : string :=
  let urlEntries := Js.join Js.nl (map (generateUrlEntry g) (urls g)) in
  xmlHeader +:+ Js.nl +:+ urlsetOpen +:+ Js.nl +:+ urlEntries +:+ Js.nl +:+ "</urlset>".

End ToFixed.

End SitemapGenerator.

(** ** SeoManager *)

Module SeoConfig.
Record t : Type := mk {
  title : string;
  description : option string;
  keywords : option string;
  author : option string;
  ogImage : option string;
  siteName : option string;
  url : option string;
  type : option string;
  publishedTime : option string;
  modifiedTime : option string;
  section : option string }.
End SeoConfig.

Module MetaTag.
Record t : Type := mk {
  name : option string;
  property : option string;
  content : string }.
End MetaTag.

(** The values that [generateStructuredData] builds: strings, and
    objects whose members are in the order in which they were set. *)
#[warnings="-register-all"]
Inductive Json : Type :=
| JString (s : string)
| JObject (members : list (string * Json)).

Module SeoManager.

(** The value of an optional string when it is truthy: defined and not
    the empty string. *)
Definition truthy (value : option string) : option string :=
  match value with
  | Some s => if String.eqb s "" then None else Some s
  | None => None
  end.

(** [if (value) tags.push(tag(value))] *)
Definition pushIf (value : option string) (tag : string -> MetaTag.t)
    : list MetaTag.t :=
  match truthy value with
  | Some s => [tag s]
  | None => []
  end.

Definition named (name content : string) : MetaTag.t :=
  MetaTag.mk (Some name) None content.

Definition propertied (property content : string) : MetaTag.t :=
  MetaTag.mk None (Some property) content.

Definition generateMetaTags (config : SeoConfig.t) : list MetaTag.t :=
  pushIf (SeoConfig.description config) (named "description")
  ++ pushIf (SeoConfig.keywords config) (named "keywords")
  ++ pushIf (SeoConfig.author config) (named "author")
  ++ [named "generator" "FourSG"].

Definition generateOpenGraphTags (config : SeoConfig.t) : list MetaTag.t :=
  [propertied "og:title" (SeoConfig.title config)]
  ++ pushIf (SeoConfig.description config) (propertied "og:description")
  ++ pushIf (SeoConfig.siteName config) (propertied "og:site_name")
  ++ pushIf (SeoConfig.url config) (propertied "og:url")
  ++ [propertied "og:type"
        (match truthy (SeoConfig.type config) with
         | Some type => type
         | None => "website"
         end)]
  ++ pushIf (SeoConfig.ogImage config) (propertied "og:image")
  ++ pushIf (SeoConfig.publishedTime config) (propertied "article:published_time")
  ++ pushIf (SeoConfig.modifiedTime config) (propertied "article:modified_time")
  ++ pushIf (SeoConfig.author config) (propertied "article:author")
  ++ pushIf (SeoConfig.section config) (propertied "article:section").

Definition generateTwitterCardTags (config : SeoConfig.t) : list MetaTag.t :=
  [named "twitter:card" "summary_large_image";
   named "twitter:title" (SeoConfig.title config)]
  ++ pushIf (SeoConfig.description config) (named "twitter:description")
  ++ pushIf (SeoConfig.ogImage config) (named "twitter:image").

Definition generateAllTags (config : SeoConfig.t) : list MetaTag.t :=
  generateMetaTags config ++ generateOpenGraphTags config
  ++ generateTwitterCardTags config.

Definition escapeChar (c : ascii) : string :=
  if Ascii.eqb c "&" then "&amp;"
  else if Ascii.eqb c "<" then "&lt;"
  else if Ascii.eqb c ">" then "&gt;"
  else if Ascii.eqb c "034" then "&quot;"
  else if Ascii.eqb c "'" then "&#039;"
  else String c EmptyString.

Definition escapeHtml (text : string) : string := Js.sbind escapeChar text.

(** The callback of [toHtmlString]; there is no result for a tag that
    has neither a property nor a name, since [escapeHtml] then throws. *)
Definition tagHtml (tag : MetaTag.t) : option string :=
  match truthy (MetaTag.property tag) with
  | Some property =>
      Some ("    <meta property=" +:+ Js.dq +:+ escapeHtml property +:+ Js.dq
            +:+ " content=" +:+ Js.dq +:+ escapeHtml (MetaTag.content tag)
            +:+ Js.dq +:+ ">")
  | None =>
      match MetaTag.name tag with
      | Some name =>
          Some ("    <meta name=" +:+ Js.dq +:+ escapeHtml name +:+ Js.dq
                +:+ " content=" +:+ Js.dq +:+ escapeHtml (MetaTag.content tag)
                +:+ Js.dq +:+ ">")
      | None => None
      end
  end.

(** [array.map(f)] for a callback that can throw. *)
Fixpoint mapAll {A B : Type} (f : A -> option B) (l : list A) : option (list B) :=
  match l with
  | [] => Some []
  | a :: rest =>
      match f a, mapAll f rest with
      | Some b, Some bs => Some (b :: bs)
      | _, _ => None
      end
  end.

Definition toHtmlString (config : SeoConfig.t) : option string :=
  option_map (Js.join Js.nl) (mapAll tagHtml (generateAllTags config)).

(** [if (value) schemaData[key] = json(value)] *)
Definition memberIf (value : option string) (key : string) (json : string -> Json)
    : list (string * Json) :=
  match truthy value with
  | Some s => [(key, json s)]
  | None => []
  end.

Definition generateStructuredData (config : SeoConfig.t) : Json :=
  JObject
    ([("@context", JString "https://schema.org");
      ("@type", JString (match SeoConfig.type config with
                         | Some type =>
                             if String.eqb type "article" then "Article" else "WebPage"
                         | None => "WebPage"
                         end));
      ("headline", JString (SeoConfig.title config))]
     ++ memberIf (SeoConfig.description config) "description" JString
     ++ memberIf (SeoConfig.author config) "author"
          (fun author => JObject [("@type", JString "Person"); ("name", JString author)])
     ++ memberIf (SeoConfig.publishedTime config) "datePublished" JString
     ++ memberIf (SeoConfig.modifiedTime config) "dateModified" JString
     ++ memberIf (SeoConfig.ogImage config) "image" JString
     ++ memberIf (SeoConfig.url config) "url" JString).

(** A lower-case hexadecimal digit. *)
Definition hexDigit (n : N) : ascii :=
  ascii_of_N (if (n <? 10)%N then 48 + n else 87 + n).

(** [JSON.stringify] on one code unit of a string: the quote, the
    backslash and the control characters are escaped. *)
Definition quoteChar (c : ascii) : string :=
  let n := Js.code c in
  if (n =? 8)%N then "\b"
  else if (n =? 9)%N then "\t"
  else if (n =? 10)%N then "\n"
  else if (n =? 12)%N then "\f"
  else if (n =? 13)%N then "\r"
  else if (n =? 34)%N then "\" +:+ Js.dq
  else if (n =? 92)%N then "\\"
  else if (n <? 32)%N then
    "\u00" +:+ String (hexDigit (n / 16)) (String (hexDigit (n mod 16)) "")
  else String c EmptyString.

Definition quoteJson (s : string) : string :=
  Js.dq +:+ Js.sbind quoteChar s +:+ Js.dq.

(** [JSON.stringify(value, null, 2)], [indent] being the indentation of
    the line on which the value starts. *)
Fixpoint serializeJson (indent : string) (value : Json) : string :=
  match value with
  | JString s => quoteJson s
  | JObject [] => "{}"
  | JObject members =>
      let inner := indent +:+ "  " in
      "{" +:+ Js.nl +:+ inner
      +:+ Js.join ("," +:+ Js.nl +:+ inner)
            (map (fun member =>
                    quoteJson (fst member) +:+ ": "
                    +:+ serializeJson inner (snd member)) members)
      +:+ Js.nl +:+ indent +:+ "}"
  end.

Definition generateStructuredDataScript (config : SeoConfig.t) : string :=
  let data := generateStructuredData config in
  "    <script type=" +:+ Js.dq +:+ "application/ld+json" +:+ Js.dq +:+ ">" +:+ Js.nl
  +:+ Js.join Js.nl
        (map (fun line => "    " +:+ line) (Js.split "010" (serializeJson "" data)))
  +:+ Js.nl +:+ "    </script>".

End SeoManager.

(** *** The SEO data of a page *)

(** A JavaScript number: a finite one, given by its exact value, an
    infinity, or [NaN]. *)
Inductive JsNumber : Type :=
| Finite (value : Q)
| Infinite (negative : bool)
| NotANumber.

(** The values that front matter holds, as the reader of the YAML block
    hands them out: [frontMatter] is a [Record<string, any>]. *)
#[warnings="-register-all"]
Inductive JsValue : Type :=
| JsUndefined
| JsNull
| JsBoolean (b : bool)
| JsNum (n : JsNumber)
| JsString (s : string)
| JsArray (items : list JsValue)
| JsObject (members : list (string * JsValue)).

(** Whether a value is truthy: all values but [undefined], [null],
    [false], zero, [NaN] and the empty string. *)
Definition truthyValue (value : JsValue) : bool :=
  match value with
  | JsUndefined | JsNull => false
  | JsBoolean b => b
  | JsNum (Finite q) => negb (Qeq_bool q 0)
  | JsNum (Infinite _) => true
  | JsNum NotANumber => false
  | JsString s => Js.nonEmpty s
  | JsArray _ | JsObject _ => true
  end.

Definition isString (value : JsValue) : bool :=
  match value with
  | JsString _ => true
  | _ => false
  end.

(** [a || b] *)
Definition orElse (a b : JsValue) : JsValue := if truthyValue a then a else b.

Module PageFrontMatter.

Definition t : Type := gmap string JsValue.

(** [frontMatter.key]: [undefined] for a key that is not there. *)
Definition get (frontMatter : t) (key : string) : JsValue :=
  default JsUndefined (frontMatter !! key).

End PageFrontMatter.

(** The result of [generateSeoData]; [canonicalUrl] is whatever value
    the front matter gives for it. *)
Module SeoData.
Record t : Type := mk {
  metaTags : string;
  structuredData : string;
  canonicalUrl : JsValue }.
End SeoData.

Section GenerateSeoData.

(** The host's conversions: [new Date(value).toISOString()], which
    throws for a value that is not a date, and [String(value)] for a
    value that is not a string, which throws for an object that has no
    text form. *)
Variable toISOString : JsValue -> option string.
Variable stringOf : JsValue -> option string.

(** [String(value)] *)
Definition toStringValue (value : JsValue) : option string :=
  match value with
  | JsString s => Some s
  | _ => stringOf value
  end.

(** [items.join(sep)]: [undefined] and [null] give the empty text, any
    other item its text form. *)
Definition joinValues (sep : string) (items : list JsValue) : option string :=
  option_map (Js.join sep)
    (SeoManager.mapAll
       (fun item =>
          match item with
          | JsUndefined | JsNull => Some ""
          | _ => toStringValue item
          end) items).

(** [value ? new Date(value).toISOString() : otherwise]; no result when
    the conversion throws. *)
Definition isoTimeOr (value : JsValue) (otherwise : option (option string))
    : option (option string) :=
  if truthyValue value then option_map Some (toISOString value) else otherwise.

(** A value that is handed to [SeoManager] under a field that
    [SeoConfig] declares as an optional string.  A string is that text.
    A value that is falsy is skipped by the manager like an absent one.
    Any other value becomes the content of a tag in [toHtmlString], where
    [escapeHtml] calls [replace] on it, which only a string has: a
    [TypeError] is thrown, and there is no result. *)
Definition asText (value : JsValue) : option (option string) :=
  match value with
  | JsString s => Some (Some s)
  | _ => if truthyValue value then None else Some None
  end.

(** The same for the title and the type, which always go into a tag. *)
Definition asString (value : JsValue) : option string :=
  match value with
  | JsString s => Some s
  | _ => None
  end.

(** [generateSeoData]; [parentPath] and [parentName] are
    [file.parent?.path] and [file.parent?.name].  There is no result when
    the function throws. *)
Definition generateSeoData (siteUrl siteName title outputFilePath : string)
    (frontMatter : PageFrontMatter.t) (parentPath parentName : option string)
    (rootPath : string) : option SeoData.t :=
  let field := PageFrontMatter.get frontMatter in
  let pageUrl := siteUrl +:+ "/" +:+ getPageUrl outputFilePath in
  match
    (if truthyValue (field "og_image") then
       match field "og_image" with
       | JsString image =>
           if Js.startsWith image "http" then Some (JsString image)
           else Some (JsString (siteUrl +:+ "/" +:+ rootPath +:+ image))
       | _ => None
       end
     else Some (field "og_image")),
    (if truthyValue (field "keywords") then
       match field "keywords" with
       | JsArray items => option_map Some (joinValues ", " items)
       | keywords => option_map Some (toStringValue keywords)
       end
     else Some None),
    isoTimeOr (field "published_date") (Some None),
    isoTimeOr (field "last_modified_date")
      (isoTimeOr (field "published_date") (Some None))
  with
  | Some ogImage, Some keywords, Some publishedTime, Some modifiedTime =>
      match
        asString (orElse (field "title") (JsString title)),
        asText (field "description"),
        asText (field "author"),
        asText ogImage,
        asString
          (orElse (field "type")
             (JsString (match parentPath with
                        | Some path =>
                            if String.eqb path "/" then "website" else "article"
                        | None => "article"
                        end))),
        asText
          (orElse (field "section")
             (match parentName with
              | Some name => JsString name
              | None => JsUndefined
              end))
      with
      | Some configTitle, Some description, Some author, Some image, Some type,
        Some section =>
          let config :=
            {| SeoConfig.title := configTitle;
               SeoConfig.description := description;
               SeoConfig.keywords := keywords;
               SeoConfig.author := author;
               SeoConfig.ogImage := image;
               SeoConfig.siteName := Some siteName;
               SeoConfig.url := Some pageUrl;
               SeoConfig.type := Some type;
               SeoConfig.publishedTime := publishedTime;
               SeoConfig.modifiedTime := modifiedTime;
               SeoConfig.section := section |} in
          match SeoManager.toHtmlString config with
          | Some metaTags =>
              Some {| SeoData.metaTags := metaTags;
                      SeoData.structuredData :=
                        SeoManager.generateStructuredDataScript config;
                      SeoData.canonicalUrl :=
                        orElse (field "canonical") (JsString pageUrl) |}
          | None => None
          end
      | _, _, _, _, _, _ => None
      end
  | _, _, _, _ => None
  end.

End GenerateSeoData.

(** ** Directory removal over the host's data adapter *)

(** The calls [removeDirectoryRecursive] makes on [this.dataAdapter]. *)
Inductive AdapterCall : Type :=
| CallExists (path : string)
| CallList (path : string)
| CallRemove (path : string)
| CallRmdir (path : string) (recursive : bool).

(** What [dataAdapter.list] resolves to. *)
Record ListedFiles : Type := mkListed { files : list string; folders : list string }.

Section RemoveDirectory.

(** The adapter is the host's: any state [World], any error values, and
    four operations that return a value or throw, and change the state. *)
Variable World : Type.
Variable Error : Type.

Inductive Outcome (A : Type) : Type :=
| Returned (a : A)
| Thrown (e : Error).
Arguments Returned {A} a.
Arguments Thrown {A} e.

Record DataAdapter : Type := mkAdapter {
  adapter_exists : string -> World -> Outcome bool * World;
  adapter_list : string -> World -> Outcome ListedFiles * World;
  adapter_remove : string -> World -> Outcome unit * World;
  adapter_rmdir : string -> bool -> World -> Outcome unit * World }.

Variable dataAdapter : DataAdapter.

(** The state threaded through the calls: the adapter's state and the log
    of the calls made so far. *)
Definition AdapterState : Type := (World * list AdapterCall)%type.

(** An asynchronous computation: from a state to an outcome and a state,
    or to nothing when the recursion budget is used up. *)
Definition Async (A : Type) : Type := AdapterState -> option (Outcome A * AdapterState).

Definition ret {A : Type} (a : A) : Async A := fun s => Some (Returned a, s).

Definition throw {A : Type} (e : Error) : Async A := fun s => Some (Thrown e, s).

Definition bind {A B : Type} (m : Async A) (k : A -> Async B) : Async B :=
  fun s =>
    match m s with
    | Some (Returned a, s') => k a s'
    | Some (Thrown e, s') => Some (Thrown e, s')
    | None => None
    end.

(** [try { m } catch (error) { handler(error) }] *)
Definition tryCatch {A : Type} (m : Async A) (handler : Error -> Async A) : Async A :=
  fun s =>
    match m s with
    | Some (Returned a, s') => Some (Returned a, s')
    | Some (Thrown e, s') => handler e s'
    | None => None
    end.

Definition call {A : Type} (c : AdapterCall) (op : World -> Outcome A * World) : Async A :=
  fun s => let '(r, w) := op (fst s) in Some (r, (w, snd s ++ [c])).

Definition callExists (p : string) : Async bool :=
  call (CallExists p) (adapter_exists dataAdapter p).
Definition callList (p : string) : Async ListedFiles :=
  call (CallList p) (adapter_list dataAdapter p).
Definition callRemove (p : string) : Async unit :=
  call (CallRemove p) (adapter_remove dataAdapter p).
Definition callRmdir (p : string) (recursive : bool) : Async unit :=
  call (CallRmdir p recursive) (adapter_rmdir dataAdapter p recursive).

(** [for (const x of xs) await body(x)] *)
Fixpoint forEach {A : Type} (xs : list A) (body : A -> Async unit) : Async unit :=
  match xs with
  | [] => ret tt
  | x :: rest => bind (body x) (fun _ => forEach rest body)
  end.

(** The body of the [try] block, [recurse] being the function itself. *)
Definition structuredDelete (recurse : string -> Async unit) (dirPath : string)
    : Async unit :=
  bind (callList dirPath) (fun items =>
  bind (forEach (files items) callRemove) (fun _ =>
  bind (forEach (folders items) recurse) (fun _ =>
  callRmdir dirPath false))).

(** The [catch] block: one removal of the path itself; when that throws
    too, the error of the [try] block is thrown again. *)
Definition fallbackRemove (dirPath : string) (error : Error) : Async unit :=
  tryCatch (callRemove dirPath) (fun _ => throw error).

Fixpoint removeDirectoryRecursive (fuel : nat) (dirPath : string) : Async unit :=
  match fuel with
  | O => fun _ => None
  | S fuel' =>
      bind (callExists dirPath) (fun exists_ =>
      if negb exists_ then ret tt
      else tryCatch (structuredDelete (removeDirectoryRecursive fuel') dirPath)
                    (fallbackRemove dirPath))
  end.

End RemoveDirectory.

Arguments Returned {Error A} a.
Arguments Thrown {Error A} e.
Arguments adapter_exists {World Error} _ _ _.
Arguments adapter_list {World Error} _ _ _.
Arguments adapter_remove {World Error} _ _ _.
Arguments adapter_rmdir {World Error} _ _ _ _.
Arguments ret {World Error A} a _.
Arguments throw {World Error A} e _.
Arguments bind {World Error A B} m k _.
Arguments tryCatch {World Error A} m handler _.
Arguments call {World Error A} c op _.
Arguments callExists {World Error} dataAdapter p _.
Arguments callList {World Error} dataAdapter p _.
Arguments callRemove {World Error} dataAdapter p _.
Arguments callRmdir {World Error} dataAdapter p recursive _.
Arguments forEach {World Error A} xs body _.
Arguments structuredDelete {World Error} dataAdapter recurse dirPath _.
Arguments fallbackRemove {World Error} dataAdapter dirPath error _.
Arguments removeDirectoryRecursive {World Error} dataAdapter fuel dirPath _.

(** A computation that only ever adds calls at the end of the log. *)
Definition extendsLog {World Error A : Type} (m : Async World Error A) : Prop :=
  forall s r s', m s = Some (r, s') -> exists more, snd s' = snd s ++ more.

(** A computation that only adds calls that satisfy [P]. *)
Definition callsOnly {World Error A : Type} (P : AdapterCall -> Prop)
    (m : Async World Error A) : Prop :=
  forall s r s', m s = Some (r, s') ->
    exists more, snd s' = snd s ++ more /\ Forall P more.

(** The outcome of running [step] on the elements of [xs] one after the
    other from the state [s]: the first outcome that is not a plain
    return, or else the state after the last step. *)
Inductive RunsInOrder {World Error A : Type} (step : A -> Async World Error unit)
    : list A -> AdapterState World
      -> option (Outcome Error unit * AdapterState World) -> Prop :=
| RunsInOrder_done (s : AdapterState World) :
    RunsInOrder step [] s (Some (Returned tt, s))
| RunsInOrder_next (x : A) (xs : list A) (s s' : AdapterState World)
    (r : option (Outcome Error unit * AdapterState World)) :
    step x s = Some (Returned tt, s') -> RunsInOrder step xs s' r ->
    RunsInOrder step (x :: xs) s r
| RunsInOrder_thrown (x : A) (xs : list A) (s s' : AdapterState World) (e : Error) :
    step x s = Some (Thrown e, s') ->
    RunsInOrder step (x :: xs) s (Some (Thrown e, s'))
| RunsInOrder_unfinished (x : A) (xs : list A) (s : AdapterState World) :
    step x s = None -> RunsInOrder step (x :: xs) s None.

(** ** Concrete inputs for the examples *)

(** A [charMap] with no entry beyond ASCII, a working directory, a date
    printer and a number printer, to run the definitions on. *)
Definition asciiOnly : ascii -> option string := fun _ => None.
Definition homeDir : list string := ["home"; "user"; "vault"].
Definition epochDate : Z -> string := fun _ => "1970-01-01".
Definition noExponent : Q -> string := fun _ => "".

(** [Number::toString] at 10^21, the least number that it prints with an
    exponent. *)
Definition exponentNotation : Q -> string := fun _ => "1e+21".

Definition mdFile (path name basename : string) : TFile.t :=
  TFile.mk path name basename 0.

Definition demoFiles : list TFile.t :=
  [mdFile "index.md" "index.md" "index";
   mdFile "blog/post1.md" "post1.md" "post1"].

(** A front matter that sets a title and a list of keywords. *)
Definition demoFrontMatter : PageFrontMatter.t :=
  <["title" := JsString "First post"]>
    (<["keywords" := JsArray [JsString "notes"; JsString "demo"]]> ∅).

(** An adapter over a list of the paths that exist, each an empty
    directory or a file: every removal succeeds. *)
Definition listAdapter : DataAdapter (list string) unit :=
  {| adapter_exists := fun p w => (Returned (existsb (String.eqb p) w), w);
     adapter_list := fun _ w => (Returned (mkListed [] []), w);
     adapter_remove :=
       fun p w => (Returned tt, List.filter (fun q => negb (String.eqb q p)) w);
     adapter_rmdir :=
       fun p _ w => (Returned tt, List.filter (fun q => negb (String.eqb q p)) w) |}.

(** ** Shapes used in the statements *)

(** The class [[a-z0-9]]. *)
Definition isSlugChar (c : ascii) : bool := Js.isLower c || Js.isDigit c.

(** Words over [[a-z0-9]] separated by single hyphens; [afterDash] tells
    that a word must start here (the start of the string, or just after a
    hyphen). *)
Fixpoint slugShape (afterDash : bool) (s : string) : bool :=
  match s with
  | EmptyString => negb afterDash
  | String c r =>
      if Ascii.eqb c "-" then negb afterDash && slugShape true r
      else isSlugChar c && slugShape false r
  end.

Definition isSlug (s : string) : bool := String.eqb s "" || slugShape true s.

(** What [slugify] makes of a hyphen before it filters. *)
Definition dashToSpace (c : ascii) : ascii :=
  if Ascii.eqb c "-" then " "%char else c.

(** A path segment that [normalizeString] keeps: not empty, not a dot
    segment, and free of slashes. *)
Definition noSlash (s : string) : bool :=
  Js.sforall (fun c => negb (Ascii.eqb c "/")) s.

Definition cleanSegment (s : string) : bool :=
  Js.nonEmpty s && negb (String.eqb s ".") && negb (String.eqb s "..") && noSlash s.

(** The segments of [sitePath]. *)
Definition siteSegments : list string := ["obsidian-foursg"; "site"].

(** The output base name and the output directory segments that
    [getOutputPath] computes for a document path. *)
Definition outputName (charMapExt : ascii -> option string) (filePath : string) : string :=
  let baseName := pathe.basename filePath ".md" in
  if isIndexName baseName then "index" else sanitizeFilename charMapExt baseName.

Definition outputDirSegments (charMapExt : ascii -> option string)
    (filePath : string) : list string :=
  List.filter Js.nonEmpty
    (map (sanitizeFilename charMapExt) (Js.split "/" (pathe.dirname filePath))).

(** Code units of the segments the generator produces: [[a-z0-9]],
    hyphen and dot. *)
Definition isPathChar (c : ascii) : bool :=
  isSlugChar c || Ascii.eqb c "-" || Ascii.eqb c ".".

Definition pathChars (s : string) : bool := Js.sforall isPathChar s.

Definition hasDot (s : string) : bool :=
  negb (Js.sforall (fun c => negb (Ascii.eqb c ".")) s).

(** Shapes of the text around a marker. *)
Definition noCloseBracket (s : string) : bool :=
  Js.sforall (fun c => negb (Ascii.eqb c "]")) s.

(** Whether the code unit before the position after [s] is an exclamation
    mark, [prevBang] telling it for the position before [s]. *)
Definition bangAfter (prevBang : bool) (s : string) : bool :=
  match Js.lastChar s with
  | Some c => Ascii.eqb c "!"
  | None => prevBang
  end.

Definition endsWithBang (s : string) : bool := bangAfter false s.

(** The scan of a global replacement over [pre +:+ rest], as far as the
    end of [pre].  The scan goes from left to right and continues after
    each match ([skip] counts the code units of a match still to pass).
    When every match that it finds in [pre] ends in [pre], it arrives at
    the start of [rest]: the result is [None].  Otherwise it finds a
    match that runs from [pre] into [rest]: the result is the end [open]
    of [pre] at which that match begins.  [prevBang] tells whether an
    exclamation mark stands before [pre]. *)
Fixpoint openMatch (regex : bool -> string -> option (string * nat))
    (prevBang : bool) (skip : nat) (pre rest : string) : option string :=
  match pre with
  | EmptyString => None
  | String c r =>
      match skip with
      | S k => openMatch regex (Ascii.eqb c "!") k r rest
      | O =>
          match regex prevBang (pre +:+ rest) with
          | Some (_, n) =>
              if Nat.leb n (String.length pre)
              then openMatch regex (Ascii.eqb c "!") (Nat.pred n) r rest
              else Some pre
          | None => openMatch regex (Ascii.eqb c "!") 0 r rest
          end
      end
  end.

(** A regex whose match at a position depends only on the text that the
    match covers. *)
Definition prefixDetermined (regex : bool -> string -> option (string * nat)) : Prop :=
  forall prevBang s rest,
    match regex prevBang (s +:+ rest) with
    | Some (group, n) => n <= String.length s -> regex prevBang s = Some (group, n)
    | None => regex prevBang s = None
    end.

(** The text shown for a reference whose inner text splits at the bars
    into [target] and [labels]: the first label, trimmed, unless there is
    none or it is empty; then the trimmed target. *)
Definition shownText (target : string) (labels : list string) : string :=
  match labels with
  | label :: _ => if String.eqb label "" then Js.trim target else Js.trim label
  | [] => Js.trim target
  end.

(** [sub] occurs in [s]. *)
Definition occursIn (sub s : string) : Prop := exists a b, s = a +:+ sub +:+ b.

(** No code unit of [s] is one of the four that [escapeXml] replaces by an
    entity other than the ampersand. *)
Definition noRawMarkup (s : string) : bool :=
  Js.sforall (fun c => negb (Ascii.eqb c "<" || Ascii.eqb c ">"
                             || Ascii.eqb c "034" || Ascii.eqb c "'")) s.

(** What an XML reader makes of character data: each of the five
    predefined entity references stands for its character.  [skip]
    counts the code units of a reference that are still to pass. *)
Fixpoint readXml (skip : nat) (s : string) : string :=
  match s with
  | EmptyString => EmptyString
  | String c r =>
      match skip with
      | S k => readXml k r
      | O =>
          if Js.startsWith s "&amp;" then String "&" (readXml 4 r)
          else if Js.startsWith s "&lt;" then String "<" (readXml 3 r)
          else if Js.startsWith s "&gt;" then String ">" (readXml 3 r)
          else if Js.startsWith s "&quot;" then String "034" (readXml 5 r)
          else if Js.startsWith s "&apos;" then String "'" (readXml 5 r)
          else String c (readXml 0 r)
      end
  end.

Definition unescapeXml (s : string) : string := readXml 0 s.

(** The number that a text of decimal digits stands for, after the
    digits [acc]. *)
Fixpoint numeralFrom (acc : Z) (digits : string) : Z :=
  match digits with
  | EmptyString => acc
  | String c r => numeralFrom (10 * acc + (Z.of_N (Js.code c) - 48)) r
  end.

Definition numeral (digits : string) : Z := numeralFrom 0 digits.

(** ** The navigation tree, for the statements and their proofs *)

(** Every node of a tree with the paths of the nodes above it, the root
    first. *)
Fixpoint locate (above : list string) (n : NavNode.t)
    : list (list string * NavNode.t) :=
  (above, n)
  :: flat_map (locate (above ++ [NavNode.path n])) (NavNode.children n).

Definition located (forest : list NavNode.t) : list (list string * NavNode.t) :=
  flat_map (locate []) forest.

Definition hasOutputPath (o : string) (x : list string * NavNode.t) : bool :=
  String.eqb (NavNode.outputPath (snd x)) o.

(** The values [currentPath] takes in the inner loop of
    [buildNavigationTree]. *)
Fixpoint cumulativePaths (currentPath : string) (parts : list string) : list string :=
  match parts with
  | [] => []
  | part :: rest =>
      let currentPath' :=
        if Js.nonEmpty currentPath then currentPath +:+ "/" +:+ part else part in
      currentPath' :: cumulativePaths currentPath' rest
  end.

Definition dirPathsOf (file : TFile.t) : list string :=
  cumulativePaths "" (removelast (Js.split "/" (TFile.path file))).

(** The directories above the node of a document: all directories of its
    path, but for a folder's index document, whose node is the node of
    the folder itself, the ones above that folder. *)
Definition ancestorDirs (file : TFile.t) : list string :=
  if isIndexName (TFile.basename file) then removelast (dirPathsOf file)
  else dirPathsOf file.

(** A document file as the host hands it out: [basename] is the last
    segment of [path] without [.md], and no segment of [path] is empty. *)
Definition wellFormedFile (file : TFile.t) : Prop :=
  TFile.basename file = pathe.basename (TFile.path file) ".md"
  /\ Forall (fun s => Js.nonEmpty s = true) (Js.split "/" (TFile.path file)).

(** The array elements reached from [ref], each with the paths of the
    directory nodes above it. *)
Fixpoint locateRefs (fuel : nat) (m : gmap string DirNode.t) (above : list string)
    (ref : NodeRef) : list (list string * NodeRef) :=
  (above, ref)
  :: match ref with
     | PageRef _ => []
     | DirRef key =>
         match m !! key, fuel with
         | Some node, S fuel' =>
             flat_map (locateRefs fuel' m (above ++ [DirNode.path node]))
               (DirNode.children node)
         | _, _ => []
         end
     end.

Definition outputPathOf (m : gmap string DirNode.t) (ref : NodeRef) : string :=
  match ref with
  | PageRef page => NavNode.outputPath page
  | DirRef key =>
      match m !! key with
      | Some node => DirNode.outputPath node
      | None => ""
      end
  end.

(** The chains above the occurrences of the directory [key]. *)
Definition chainsOf (key : string) (l : list (list string * NodeRef)) : list (list string) :=
  omap (fun x => match snd x with
                 | DirRef k => if String.eqb k key then Some (fst x) else None
                 | PageRef _ => None
                 end) l.

Definition dirKeysIn (l : list (list string * NodeRef)) : list string :=
  omap (fun x => match snd x with DirRef k => Some k | PageRef _ => None end) l.

Definition pagesIn (l : list (list string * NodeRef)) : list (list string * NavNode.t) :=
  omap (fun x => match snd x with PageRef p => Some (fst x, p) | DirRef _ => None end) l.

Definition isNested (file : TFile.t) : bool :=
  negb (Nat.eqb (length (Js.split "/" (TFile.path file))) 1).

(** The page nodes [addFile] pushes for a file, each with the directory
    paths above it. *)
Definition pageEntryOf (charMapExt : ascii -> option string) (file : TFile.t)
    : list (list string * NavNode.t) :=
  if isNested file then
    if isIndexName (TFile.basename file) then []
    else [(dirPathsOf file, pageNode charMapExt file false)]
  else [([], pageNode charMapExt file (isIndexName (TFile.basename file)))].

(** What holds of the object graph at any point of the construction, [S]
    listing its array elements with the directory paths above them.
    First the part that is about the graph alone. *)
Record NavShape (L : nat) (st : NavBuild) (S : list (list string * NodeRef)) : Prop := {
  shape_perm :
    Permutation
      (flat_map (locateRefs (Datatypes.S L) (dirMap st) []) (rootNodes st)) S;
  shape_nodup : List.NoDup (dirKeysIn S);
  shape_dom : forall k, In k (dirKeysIn S) <-> is_Some (dirMap st !! k);
  shape_chain : forall c k, In (c, DirRef k) S ->
    (c = [] /\ noSlash k = true)
    \/ (exists c' p part,
          c = c' ++ [p] /\ In (c', DirRef p) S
          /\ k = p +:+ "/" +:+ part /\ noSlash part = true /\ Js.nonEmpty p = true);
  shape_bound : forall k node, dirMap st !! k = Some node ->
    String.length k <= L /\ DirNode.path node = k
    /\ forall c, In (DirRef c) (DirNode.children node) ->
         String.length k < String.length c /\ is_Some (dirMap st !! c);
  shape_roots : forall c, In (DirRef c) (rootNodes st) -> is_Some (dirMap st !! c) }.

(** Then the part that relates it to the files processed so far. *)
Record NavContent (charMapExt : ascii -> option string) (done : list TFile.t)
    (st : NavBuild) (S : list (list string * NodeRef)) : Prop := {
  content_pages : pagesIn S = flat_map (pageEntryOf charMapExt) done;
  content_dirs : forall g, In g done -> isNested g = true ->
    forall pre k post, dirPathsOf g = pre ++ k :: post -> In (pre, DirRef k) S;
  content_index_from : forall k node, dirMap st !! k = Some node ->
    DirNode.outputPath node <> "" ->
    exists g, In g done /\ isNested g = true
      /\ isIndexName (TFile.basename g) = true
      /\ List.last (dirPathsOf g) "" = k
      /\ DirNode.outputPath node = getOutputPath charMapExt (TFile.path g);
  content_index_set : forall g, In g done -> isNested g = true ->
    isIndexName (TFile.basename g) = true ->
    exists node, dirMap st !! List.last (dirPathsOf g) "" = Some node
      /\ DirNode.outputPath node <> "" }.


(** The output paths of the directory nodes of [m] are those of [m'],
    and a directory node of [m'] that has an output path had it in [m]. *)
Definition outputsKept (m m' : gmap string DirNode.t) : Prop :=
  (forall k node, m !! k = Some node ->
     exists node', m' !! k = Some node'
       /\ DirNode.outputPath node' = DirNode.outputPath node)
  /\ (forall k node', m' !! k = Some node' -> DirNode.outputPath node' <> "" ->
        exists node, m !! k = Some node
          /\ DirNode.outputPath node = DirNode.outputPath node').

(** A node with the directory paths above it, reduced to what the
    statements compare: the paths above and the output path. *)
Definition chainAndOutput (x : list string * NavNode.t) : list string * string :=
  (fst x, NavNode.outputPath (snd x)).

Definition chainAndOutputOf (m : gmap string DirNode.t) (x : list string * NodeRef)
    : list string * string :=
  (fst x, outputPathOf m (snd x)).

(** ** The rendered pages, for the statements *)

(** The start of the link that [renderNavTree] writes to a node. *)
Definition navLinkTo (cwd : list string) (currentPath outputPath : string) : string :=
  "<a href=" +:+ Js.dq +:+ getRelativePath cwd currentPath outputPath +:+ Js.dq.

(** A code unit that [JSON.stringify] writes as it is: not a control
    character, not the quote, not the backslash. *)
Definition jsonPlain (c : ascii) : bool :=
  (32 <=? Js.code c)%N && negb (Js.code c =? 34)%N && negb (Js.code c =? 92)%N.

(** * Properties *)

(** ** Strings *)

Lemma append_nil_r (s : string) : s +:+ "" = s.
Proof. induction s as [|c s IH]; simpl; [reflexivity | now rewrite IH]. Qed.

Lemma append_assoc (a b c : string) : (a +:+ b) +:+ c = a +:+ (b +:+ c).
Proof. induction a as [|x a IH]; simpl; [reflexivity | now rewrite IH]. Qed.

Lemma length_append (a b : string) :
  String.length (a +:+ b) = String.length a + String.length b.
Proof. induction a as [|x a IH]; simpl; [reflexivity | now rewrite IH]. Qed.

Lemma sforall_sfilter (p : ascii -> bool) (s : string) :
  Js.sforall p (Js.sfilter p s) = true.
Proof.
  induction s as [|c s IH]; simpl; [reflexivity |].
  destruct (p c) eqn:E; simpl; [rewrite E|]; exact IH.
Qed.

Lemma sfilter_id (p : ascii -> bool) (s : string) :
  Js.sforall p s = true -> Js.sfilter p s = s.
Proof.
  induction s as [|c s IH]; simpl; [reflexivity |].
  intros [Hc Hs]%andb_prop. rewrite Hc, (IH Hs). reflexivity.
Qed.

Lemma sforall_impl (p q : ascii -> bool) (s : string) :
  (forall c, p c = true -> q c = true) ->
  Js.sforall p s = true -> Js.sforall q s = true.
Proof.
  intros Hpq. induction s as [|c s IH]; simpl; [reflexivity |].
  intros [Hc Hs]%andb_prop. rewrite (Hpq _ Hc), (IH Hs). reflexivity.
Qed.

Lemma sforall_trimStart (p : ascii -> bool) (s : string) :
  Js.sforall p s = true -> Js.sforall p (Js.trimStart s) = true.
Proof.
  induction s as [|c s IH]; simpl; [reflexivity |].
  intros H. destruct (Js.isSpace c); [|exact H].
  apply IH. now apply andb_prop in H.
Qed.

Lemma sforall_trimEnd (p : ascii -> bool) (s : string) :
  Js.sforall p s = true -> Js.sforall p (Js.trimEnd s) = true.
Proof.
  induction s as [|c s IH]; simpl; [reflexivity |].
  intros [Hc Hs]%andb_prop. specialize (IH Hs).
  destruct (Js.trimEnd s); [destruct (Js.isSpace c)|]; simpl in *;
    rewrite ?Hc; auto.
Qed.

Lemma trimStart_head (s : string) (c : ascii) (r : string) :
  Js.trimStart s = String c r -> Js.isSpace c = false.
Proof.
  induction s as [|d s IH]; simpl; [discriminate |].
  destruct (Js.isSpace d) eqn:E; [exact IH |].
  intros [= <- _]. exact E.
Qed.

Lemma trimEnd_head (s : string) (c : ascii) (r : string) :
  Js.trimEnd s = String c r -> exists r', s = String c r'.
Proof.
  destruct s as [|d s]; simpl; [discriminate |].
  destruct (Js.trimEnd s); [destruct (Js.isSpace d)|]; intros [= <- _]; eauto.
Qed.

Lemma trimEnd_idem (s : string) : Js.trimEnd (Js.trimEnd s) = Js.trimEnd s.
Proof.
  induction s as [|c s IH]; simpl; [reflexivity |].
  destruct (Js.trimEnd s) as [|d t] eqn:E.
  - destruct (Js.isSpace c) eqn:Ec; simpl; [reflexivity | now rewrite Ec].
  - change (Js.trimEnd (String c (String d t)))
      with (match Js.trimEnd (String d t) with
            | EmptyString => if Js.isSpace c then EmptyString else String c EmptyString
            | u => String c u end).
    rewrite IH. reflexivity.
Qed.

(** A string that [trimEnd] leaves alone keeps that property when its
    first code unit is taken off, unless nothing but that unit is left. *)
Lemma trimEnd_fix_tail (c : ascii) (r : string) :
  Js.trimEnd (String c r) = String c r ->
  Js.trimEnd r = r /\ (r = "" -> Js.isSpace c = false).
Proof.
  simpl. destruct (Js.trimEnd r) as [|d t] eqn:E.
  - destruct (Js.isSpace c) eqn:Ec; [discriminate |].
    intros [= <-]. split; [exact E | reflexivity].
  - intros [= <-]. split; [reflexivity | discriminate].
Qed.

(** ** [sanitizeFilename] *)

Section SanitizeProperties.

Variable charMapExt : ascii -> option string.

Lemma lowerChar_alnum (c : ascii) :
  Js.isAlnum c = true ->
  isSlugChar (Js.lowerChar c) = true /\ Ascii.eqb (Js.lowerChar c) "-" = false.
Proof.
  destruct c as [[] [] [] [] [] [] [] []]; intros H; try discriminate H;
    split; reflexivity.
Qed.

Lemma slug_after_collapse (y : string) :
  forall inRun afterDash,
    Js.sforall (fun c => Js.isAlnum c || Js.isSpace c) y = true ->
    Js.trimEnd y = y ->
    (inRun = true -> afterDash = true) ->
    (afterDash = true -> inRun = false ->
       forall c r, y = String c r -> Js.isSpace c = false) ->
    (y = "" -> afterDash = false) ->
    slugShape afterDash
      (Js.toLowerCase (Js.replaceSpaceRuns slugify.replacement inRun y)) = true.
Proof.
  induction y as [|c r IH]; intros inRun afterDash Hok Hfix Hrun Hstart Hend.
  - simpl. now rewrite Hend.
  - cbn [Js.sforall] in Hok. apply andb_prop in Hok as [Hc Hr].
    destruct (trimEnd_fix_tail _ _ Hfix) as [Hfix' Hlast].
    cbn [Js.replaceSpaceRuns]. destruct (Js.isSpace c) eqn:Ec.
    + assert (Hr0 : r <> "") by (intros ->; now specialize (Hlast eq_refl)).
      destruct inRun.
      * rewrite (Hrun eq_refl) in *.
        apply IH; auto; try discriminate; try (intros ->; contradiction).
      * destruct afterDash.
        { specialize (Hstart eq_refl eq_refl c r eq_refl). congruence. }
        simpl. apply IH; auto; try discriminate; try (intros ->; contradiction).
    + rewrite orb_false_r in Hc.
      destruct (lowerChar_alnum c Hc) as [Hs Hd].
      simpl. rewrite Hd, Hs. simpl.
      apply IH; auto; discriminate.
Qed.

(** The result of [sanitizeFilename] is empty or hyphen-separated words
    over [[a-z0-9]]. *)
Lemma sanitizeFilename_isSlug (s : string) :
  isSlug (sanitizeFilename charMapExt s) = true.
Proof.
  unfold sanitizeFilename, slugify.slugify, isSlug.
  set (x := Js.sfilter _ (Js.sbind _ s)).
  assert (Hx : Js.sforall (fun c => Js.isAlnum c || Js.isSpace c) x = true)
    by apply sforall_sfilter.
  destruct (Js.trim x) as [|c r] eqn:E; [reflexivity |].
  apply orb_true_iff; right.
  rewrite <- E. apply slug_after_collapse.
  - unfold Js.trim. now apply sforall_trimEnd, sforall_trimStart.
  - apply trimEnd_idem.
  - discriminate.
  - intros _ _ c' r' E'. rewrite E' in E. injection E as -> ->.
    unfold Js.trim in E'. destruct (trimEnd_head _ _ _ E') as [r' E''].
    exact (trimStart_head _ _ _ E'').
  - rewrite E; discriminate.
Qed.

Lemma appendChar_slug (c : ascii) :
  isSlugChar c = true \/ c = "-"%char ->
  slugify.appendChar charMapExt removeSet c = String (dashToSpace c) "".
Proof.
  intros [H | ->]; [|reflexivity].
  destruct c as [[] [] [] [] [] [] [] []]; try discriminate H; reflexivity.
Qed.

Lemma slugShape_chars (u : string) : forall afterDash,
  slugShape afterDash u = true ->
  Js.sforall (fun c => isSlugChar c || Ascii.eqb c "-") u = true.
Proof.
  induction u as [|c r IH]; intros aD; simpl; [reflexivity |].
  destruct (Ascii.eqb c "-") eqn:E.
  - intros [_ H]%andb_prop. rewrite orb_true_r. simpl. eauto.
  - intros [Hc H]%andb_prop. rewrite Hc. simpl. eauto.
Qed.

Lemma sbind_slug (u : string) :
  Js.sforall (fun c => isSlugChar c || Ascii.eqb c "-") u = true ->
  Js.sbind (slugify.appendChar charMapExt removeSet) u = Js.smap dashToSpace u.
Proof.
  induction u as [|c r IH]; simpl; [reflexivity |].
  intros [Hc Hr]%andb_prop. rewrite (IH Hr), appendChar_slug; [reflexivity |].
  apply orb_prop in Hc as [Hc | Hc]; [now left | right].
  now apply Ascii.eqb_eq in Hc.
Qed.

Lemma strict_slug (u : string) :
  Js.sforall (fun c => isSlugChar c || Ascii.eqb c "-") u = true ->
  Js.sforall (fun c => Js.isAlnum c || Js.isSpace c) (Js.smap dashToSpace u) = true.
Proof.
  induction u as [|c r IH]; simpl; [reflexivity |].
  intros [Hc Hr]%andb_prop. rewrite (IH Hr), andb_true_r.
  clear - Hc.
  destruct c as [[] [] [] [] [] [] [] []]; try discriminate Hc; reflexivity.
Qed.

Lemma slugChar_facts (c : ascii) :
  isSlugChar c = true ->
  Js.isSpace c = false /\ Js.lowerChar c = c /\ Ascii.eqb c "-" = false.
Proof.
  destruct c as [[] [] [] [] [] [] [] []]; intros H; try discriminate H;
    repeat split; reflexivity.
Qed.

Lemma dashToSpace_other (c : ascii) :
  Ascii.eqb c "-" = false -> dashToSpace c = c.
Proof. unfold dashToSpace. now intros ->. Qed.

Lemma trimEnd_slug (u : string) : forall afterDash,
  slugShape afterDash u = true ->
  Js.trimEnd (Js.smap dashToSpace u) = Js.smap dashToSpace u.
Proof.
  induction u as [|c r IH]; intros aD; [reflexivity |].
  cbn [slugShape Js.smap]. destruct (Ascii.eqb c "-") eqn:E.
  - apply Ascii.eqb_eq in E as ->. intros [_ H]%andb_prop.
    change (dashToSpace "-") with " "%char.
    cbn [Js.trimEnd]. rewrite (IH _ H).
    destruct r; [discriminate H | reflexivity].
  - intros [Hc H]%andb_prop. rewrite (dashToSpace_other _ E).
    cbn [Js.trimEnd]. rewrite (IH _ H).
    destruct (slugChar_facts c Hc) as (Hs & _ & _). rewrite Hs.
    destruct (Js.smap dashToSpace r); reflexivity.
Qed.

Lemma collapse_slug (u : string) : forall afterDash inRun,
  slugShape afterDash u = true ->
  (inRun = true -> afterDash = true) ->
  Js.replaceSpaceRuns slugify.replacement inRun (Js.smap dashToSpace u) = u.
Proof.
  induction u as [|c r IH]; intros aD inRun; [reflexivity |].
  cbn [slugShape Js.smap]. destruct (Ascii.eqb c "-") eqn:E.
  - apply Ascii.eqb_eq in E as ->.
    intros [HaD H]%andb_prop Hrun.
    destruct aD; [discriminate HaD |].
    destruct inRun; [now specialize (Hrun eq_refl) |].
    change (dashToSpace "-") with " "%char.
    cbn. now rewrite (IH true true H).
  - intros [Hc H]%andb_prop _. rewrite (dashToSpace_other _ E).
    cbn [Js.replaceSpaceRuns].
    destruct (slugChar_facts c Hc) as (Hs & _ & _). rewrite Hs.
    rewrite (IH false false H); [reflexivity | discriminate].
Qed.

Lemma toLowerCase_slug (u : string) :
  Js.sforall (fun c => isSlugChar c || Ascii.eqb c "-") u = true ->
  Js.toLowerCase u = u.
Proof.
  unfold Js.toLowerCase.
  induction u as [|c r IH]; cbn [Js.sforall Js.smap]; [reflexivity |].
  intros [Hc Hr]%andb_prop. rewrite (IH Hr).
  f_equal. apply orb_prop in Hc as [Hc | Hc].
  - now destruct (slugChar_facts c Hc) as (_ & -> & _).
  - now apply Ascii.eqb_eq in Hc as ->.
Qed.

(** [sanitizeFilename] leaves such a string unchanged. *)
Lemma sanitizeFilename_slug (u : string) :
  isSlug u = true -> sanitizeFilename charMapExt u = u.
Proof.
  unfold isSlug. intros [H | H]%orb_prop.
  - apply String.eqb_eq in H as ->. reflexivity.
  - pose proof (slugShape_chars _ _ H) as Hch.
    unfold sanitizeFilename, slugify.slugify.
    rewrite (sbind_slug _ Hch), (sfilter_id _ _ (strict_slug _ Hch)).
    assert (Hts : Js.trimStart (Js.smap dashToSpace u) = Js.smap dashToSpace u).
    { destruct u as [|c r]; [reflexivity |]. simpl in H |- *.
      unfold dashToSpace at 1. destruct (Ascii.eqb c "-") eqn:E; [discriminate H |].
      apply andb_prop in H as [Hc _].
      now destruct (slugChar_facts c Hc) as (-> & _ & _). }
    unfold Js.trim. rewrite Hts, (trimEnd_slug _ _ H).
    rewrite (collapse_slug _ true false H); [|discriminate].
    now apply toLowerCase_slug.
Qed.

(** C6. The segment sanitizer is idempotent: sanitizing the result of
    sanitizing [s] gives the same string as sanitizing [s] once. *)
Theorem sanitizeFilename_idempotent (s : string) :
  sanitizeFilename charMapExt (sanitizeFilename charMapExt s)
  = sanitizeFilename charMapExt s.
Proof. apply sanitizeFilename_slug, sanitizeFilename_isSlug. Qed.

End SanitizeProperties.

(** ** Document lookup *)

Lemma stripSuffix_app (p a : string) : Js.stripSuffix p (a +:+ p) = Some a.
Proof.
  induction a as [|c a IH].
  - destruct p; simpl; [reflexivity | now rewrite Ascii.eqb_refl, String.eqb_refl].
  - cbn [String.append Js.stripSuffix]. rewrite IH.
    destruct (String.eqb_spec (String c (a +:+ p)) p) as [E | _]; [|reflexivity].
    exfalso. apply (f_equal String.length) in E. simpl in E.
    rewrite length_append in E. lia.
Qed.

Lemma stripSuffix_sound (p s stem : string) :
  Js.stripSuffix p s = Some stem -> s = stem +:+ p.
Proof.
  revert stem. induction s as [|c s IH]; intros stem; cbn [Js.stripSuffix].
  - destruct (String.eqb_spec "" p) as [<- | _]; [now intros [= <-] | discriminate].
  - destruct (String.eqb_spec (String c s) p) as [<- | _]; [now intros [= <-] |].
    destruct (Js.stripSuffix p s) as [t|]; [|discriminate].
    intros [= <-]. simpl. now rewrite (IH t eq_refl).
Qed.

Lemma findByPath_first (clean : string) (files : list TFile.t) :
  match findByPath clean files with
  | Some f =>
      exists before after, files = before ++ f :: after
        /\ (TFile.path f = clean +:+ ".md" \/ TFile.path f = clean)
        /\ Forall (fun g => TFile.path g <> clean +:+ ".md" /\ TFile.path g <> clean) before
  | None =>
      Forall (fun g => TFile.path g <> clean +:+ ".md" /\ TFile.path g <> clean) files
  end.
Proof.
  induction files as [|f files IH]; simpl; [constructor |].
  destruct (String.eqb_spec (TFile.path f) (clean +:+ ".md")) as [E1 | N1]; simpl.
  { exists [], files. auto. }
  destruct (String.eqb_spec (TFile.path f) clean) as [E2 | N2].
  { exists [], files. auto. }
  destruct (findByPath clean files) as [g|].
  - destruct IH as (before & after & -> & Hg & Hb).
    exists (f :: before), after. repeat split; auto.
  - constructor; auto.
Qed.

Lemma findByBasename_first (clean : string) (files : list TFile.t) :
  match findByBasename clean files with
  | Some f =>
      exists before after, files = before ++ f :: after
        /\ TFile.basename f = clean
        /\ Forall (fun g => TFile.basename g <> clean) before
  | None => Forall (fun g => TFile.basename g <> clean) files
  end.
Proof.
  induction files as [|f files IH]; simpl; [constructor |].
  destruct (String.eqb_spec (TFile.basename f) clean) as [E | N].
  { exists [], files. auto. }
  destruct (findByBasename clean files) as [g|].
  - destruct IH as (before & after & -> & Hg & Hb).
    exists (f :: before), after. repeat split; auto.
  - constructor; auto.
Qed.

(** C5. Document lookup strips a trailing [.md] from the reference, then
    returns the first document, in the order of the document list, whose
    source path is the cleaned reference or the cleaned reference plus
    [.md]; when there is none, the first document whose base name is the
    cleaned reference; when there is none either, nothing. *)
Theorem findTargetFile_first_match (files : list TFile.t) (reference : string) :
  let clean := stripMd reference in
  let byPath := fun f => TFile.path f = clean +:+ ".md" \/ TFile.path f = clean in
  let byName := fun f => TFile.basename f = clean in
  (forall stem, stripMd (stem +:+ ".md") = stem)
  /\ (Js.endsWith reference ".md" = false -> clean = reference)
  /\ match findTargetFile files reference with
     | Some f =>
         exists before after, files = before ++ f :: after
           /\ ((byPath f /\ Forall (fun g => ~ byPath g) before)
               \/ (Forall (fun g => ~ byPath g) files
                   /\ byName f /\ Forall (fun g => ~ byName g) before))
     | None => Forall (fun g => ~ byPath g) files /\ Forall (fun g => ~ byName g) files
     end.
Proof.
  intros clean byPath byName. split; [|split].
  - intros stem. unfold stripMd. now rewrite stripSuffix_app.
  - unfold clean, stripMd, Js.endsWith.
    destruct (Js.stripSuffix ".md" reference); [discriminate | reflexivity].
  - assert (Hnot : forall l,
      Forall (fun g => TFile.path g <> clean +:+ ".md" /\ TFile.path g <> clean) l ->
      Forall (fun g => ~ byPath g) l).
    { intros l Hl. eapply List.Forall_impl; [|exact Hl].
      intros g [H1 H2] [H | H]; contradiction. }
    unfold findTargetFile. fold clean.
    pose proof (findByPath_first clean files) as HP.
    destruct (findByPath clean files) as [f|].
    + destruct HP as (before & after & -> & Hf & Hb).
      exists before, after. split; [reflexivity |]. left. split; [exact Hf | auto].
    + pose proof (findByBasename_first clean files) as HN.
      destruct (findByBasename clean files) as [f|].
      * destruct HN as (before & after & -> & Hf & Hb).
        exists before, after. split; [reflexivity |]. right. auto.
      * split; auto.
Qed.

(** ** Splitting and joining at slashes *)

Lemma split_nonnil (sep : ascii) (s : string) : Js.split sep s <> [].
Proof.
  destruct s as [|c r]; simpl; [discriminate |].
  destruct (Ascii.eqb c sep); [discriminate |].
  destruct (Js.split sep r); discriminate.
Qed.

Lemma split_app (sep : ascii) (a b : string) :
  Js.split sep (a +:+ String sep b) = Js.split sep a ++ Js.split sep b.
Proof.
  induction a as [|c a IH]; cbn [String.append Js.split].
  - now rewrite Ascii.eqb_refl.
  - rewrite IH. destruct (Ascii.eqb c sep); [reflexivity |].
    pose proof (split_nonnil sep a) as Hn.
    destruct (Js.split sep a); [contradiction | reflexivity].
Qed.

Lemma split_noSlash (s : string) : noSlash s = true -> Js.split "/" s = [s].
Proof.
  unfold noSlash. induction s as [|c s IH]; cbn [Js.sforall Js.split]; [reflexivity |].
  intros [Hc Hs]%andb_prop. apply negb_true_iff in Hc. rewrite Hc, (IH Hs).
  reflexivity.
Qed.

Lemma split_join (parts : list string) :
  parts <> [] ->
  Js.split "/" (Js.join "/" parts) = flat_map (Js.split "/") parts.
Proof.
  induction parts as [|p rest IH]; [contradiction |]. intros _.
  destruct rest as [|q rest].
  - simpl. now rewrite app_nil_r.
  - change (Js.join "/" (p :: q :: rest))
      with (p +:+ String "/" (Js.join "/" (q :: rest))).
    rewrite split_app, IH by discriminate. reflexivity.
Qed.

Lemma flat_map_split_noSlash (segs : list string) :
  Forall (fun s => noSlash s = true) segs ->
  flat_map (Js.split "/") segs = segs.
Proof.
  induction 1 as [|s segs Hs _ IH]; simpl; [reflexivity |].
  now rewrite (split_noSlash s Hs), IH.
Qed.

Lemma split_join_noSlash (segs : list string) :
  segs <> [] -> Forall (fun s => noSlash s = true) segs ->
  Js.split "/" (Js.join "/" segs) = segs.
Proof. intros Hn Hs. now rewrite split_join, flat_map_split_noSlash. Qed.

Lemma join_split (s : string) : Js.join "/" (Js.split "/" s) = s.
Proof.
  induction s as [|c s IH]; [reflexivity |]. cbn [Js.split].
  pose proof (split_nonnil "/" s) as Hn.
  destruct (Ascii.eqb_spec c "/") as [-> | Hc].
  - destruct (Js.split "/" s) as [|h t]; [contradiction |].
    change (Js.join "/" ("" :: h :: t)) with (String "/" (Js.join "/" (h :: t))).
    now rewrite IH.
  - destruct (Js.split "/" s) as [|h t]; [contradiction |].
    rewrite <- IH. destruct t; reflexivity.
Qed.

Lemma join_nonempty (segs : list string) :
  segs <> [] -> Forall (fun s => Js.nonEmpty s = true) segs ->
  Js.join "/" segs <> "".
Proof.
  intros Hn Hs. destruct Hs as [|s segs Hs _]; [contradiction |].
  destruct s; [discriminate Hs |]. destruct segs; discriminate.
Qed.

Lemma startsWith_char (s : string) (c : ascii) :
  Js.startsWith s (String c "") = true <-> exists r, s = String c r.
Proof.
  destruct s as [|d r]; cbn [Js.startsWith].
  - split; [discriminate | intros [r [=]]].
  - rewrite andb_true_r, Ascii.eqb_sym. split.
    + intros ->%Ascii.eqb_eq. eauto.
    + intros [r' [= -> _]]. apply Ascii.eqb_refl.
Qed.

(** Collapsing runs of slashes only removes empty segments. *)
Lemma split_collapse (s : string) :
  exists h t t', Js.split "/" s = h :: t
    /\ Js.split "/" (pathe.collapseSlashes s) = h :: t'
    /\ List.filter Js.nonEmpty t' = List.filter Js.nonEmpty t.
Proof.
  induction s as [|c r (h & t & t' & E1 & E2 & E3)].
  - exists "", [], []. auto.
  - cbn [pathe.collapseSlashes Js.split]. unfold pathe.slash.
    destruct (Ascii.eqb_spec c "/") as [-> | Hc]; cbn [andb].
    + destruct (Js.startsWith r "/") eqn:Es.
      * apply startsWith_char in Es as [r' ->].
        cbn [Js.split] in E1. rewrite Ascii.eqb_refl in E1. injection E1 as <- <-.
        exists "", ("" :: Js.split "/" r'), t'. rewrite E2. auto.
      * cbn [Js.split]. rewrite Ascii.eqb_refl, E1, E2.
        exists "", (h :: t), (h :: t'). cbn [List.filter]. rewrite E3. auto.
    + cbn [Js.split]. apply Ascii.eqb_neq in Hc. rewrite Hc, E1, E2.
      exists (String c h), t, t'. auto.
Qed.

Lemma filter_split_collapse (s : string) :
  List.filter Js.nonEmpty (Js.split "/" (pathe.collapseSlashes s))
  = List.filter Js.nonEmpty (Js.split "/" s).
Proof.
  destruct (split_collapse s) as (h & t & t' & -> & -> & E).
  cbn [List.filter]. now rewrite E.
Qed.

Lemma collapse_empty (s : string) : pathe.collapseSlashes s = "" -> s = "".
Proof.
  induction s as [|c r IH]; [reflexivity |]. cbn [pathe.collapseSlashes].
  destruct (Ascii.eqb c pathe.slash && Js.startsWith r "/") eqn:E; [|discriminate].
  intros H. specialize (IH H). subst r.
  apply andb_prop in E as [_ E]. discriminate E.
Qed.

Lemma lastChar_collapse (s : string) :
  Js.lastChar (pathe.collapseSlashes s) = Js.lastChar s.
Proof.
  induction s as [|c r IH]; [reflexivity |]. cbn [pathe.collapseSlashes].
  destruct (Ascii.eqb c pathe.slash && Js.startsWith r "/") eqn:E.
  - rewrite IH. destruct r; [now rewrite andb_false_r in E | reflexivity].
  - cbn [Js.lastChar]. destruct r as [|d r]; [reflexivity |].
    destruct (pathe.collapseSlashes (String d r)) eqn:Ec;
      [apply collapse_empty in Ec; discriminate | exact IH].
Qed.

Lemma startsWith_collapse (s : string) :
  Js.startsWith (pathe.collapseSlashes s) "/" = Js.startsWith s "/".
Proof.
  induction s as [|c r IH]; [reflexivity |]. cbn [pathe.collapseSlashes].
  destruct (Ascii.eqb c pathe.slash && Js.startsWith r "/") eqn:E; [|reflexivity].
  apply andb_prop in E as [Ec Er]. apply Ascii.eqb_eq in Ec as ->.
  rewrite IH, Er. symmetry. apply startsWith_char. eauto.
Qed.

Lemma lastChar_none (s : string) : Js.lastChar s = None -> s = "".
Proof.
  induction s as [|c r IH]; [reflexivity |]. cbn [Js.lastChar].
  destruct r; [discriminate |]. intros H. now specialize (IH H).
Qed.

Lemma lastChar_append (a b : string) :
  b <> "" -> Js.lastChar (a +:+ b) = Js.lastChar b.
Proof.
  intros Hb. induction a as [|c a IH]; [reflexivity |].
  cbn [String.append Js.lastChar]. rewrite IH.
  destruct (a +:+ b) eqn:E; [|reflexivity].
  destruct a; [simpl in E; contradiction | discriminate].
Qed.

Lemma lastChar_join (segs : list string) (s : string) :
  s <> "" -> Js.lastChar (Js.join "/" (segs ++ [s])) = Js.lastChar s.
Proof.
  intros Hs. induction segs as [|a segs IH]; [reflexivity |].
  destruct (segs ++ [s]) as [|b l] eqn:E; [now destruct segs |].
  change (Js.join "/" ((a :: segs) ++ [s])) with (Js.join "/" (a :: segs ++ [s])).
  rewrite E in *.
  change (Js.join "/" (a :: b :: l)) with (a +:+ String "/" (Js.join "/" (b :: l))).
  rewrite lastChar_append by discriminate.
  cbn [Js.lastChar]. destruct (Js.join "/" (b :: l)) eqn:Ej; [|exact IH].
  simpl in IH. symmetry in IH. now apply lastChar_none in IH.
Qed.

(** ** [normalizeString] on segments *)

Lemma normalizeSegs_filter (allow : bool) (segs : list string) : forall stack,
  pathe.normalizeSegs allow stack (List.filter Js.nonEmpty segs)
  = pathe.normalizeSegs allow stack segs.
Proof.
  induction segs as [|s segs IH]; intros stack; [reflexivity |].
  cbn [List.filter]. unfold Js.nonEmpty at 1.
  destruct (String.eqb_spec s "") as [-> | Hs]; cbn [negb].
  - cbn [pathe.normalizeSegs]. cbn. apply IH.
  - cbn [pathe.normalizeSegs]. apply String.eqb_neq in Hs. rewrite Hs. cbn [orb].
    destruct (String.eqb s "."); [apply IH |].
    destruct (String.eqb s ".."); [|apply IH].
    destruct stack as [|top below]; [apply IH |].
    destruct (String.eqb top ".."); apply IH.
Qed.

Lemma normalizeSegs_clean (allow : bool) (segs : list string) : forall stack,
  Forall (fun s => cleanSegment s = true) segs ->
  pathe.normalizeSegs allow stack segs = rev stack ++ segs.
Proof.
  induction segs as [|s segs IH]; intros stack Hc.
  - simpl. now rewrite app_nil_r.
  - inversion Hc as [|? ? Hs Hrest]; subst. cbn [pathe.normalizeSegs].
    unfold cleanSegment, Js.nonEmpty in Hs.
    apply andb_prop in Hs as [[[H1 H2]%andb_prop H3]%andb_prop _].
    apply negb_true_iff in H1, H2, H3. rewrite H1, H2, H3. cbn [orb].
    rewrite IH by assumption. cbn [rev]. now rewrite <- app_assoc.
Qed.

Lemma map_dotdot (l : list string) :
  map (fun _ => "..") l = List.repeat ".." (length l).
Proof. induction l as [|x l IH]; simpl; [reflexivity | now rewrite IH]. Qed.

(** Going up as many segments as were just entered leads back. *)
Lemma normalizeSegs_up (allow : bool) (down rest : list string) : forall stack,
  Forall (fun s => cleanSegment s = true) down ->
  pathe.normalizeSegs allow (rev down ++ stack)
    (map (fun _ => "..") down ++ rest)
  = pathe.normalizeSegs allow stack rest.
Proof.
  rewrite map_dotdot.
  induction down as [|d down IH] using rev_ind; intros stack Hc; [reflexivity |].
  apply Forall_app in Hc as [Hdown Hd]. inversion Hd as [|? ? Hd' _]; subst.
  rewrite rev_app_distr, length_app, Nat.add_1_r. cbn [rev app List.repeat].
  cbn [pathe.normalizeSegs String.eqb Ascii.eqb Bool.eqb orb].
  unfold cleanSegment in Hd'.
  apply andb_prop in Hd' as [[[_ _]%andb_prop H3]%andb_prop _].
  apply negb_true_iff in H3. rewrite H3.
  now apply IH.
Qed.

Lemma normalizeSegs_push (allow : bool) (l rest : list string) : forall stack,
  Forall (fun s => cleanSegment s = true) l ->
  pathe.normalizeSegs allow stack (l ++ rest)
  = pathe.normalizeSegs allow (rev l ++ stack) rest.
Proof.
  induction l as [|s l IH]; intros stack Hc; [reflexivity |].
  inversion Hc as [|? ? Hs Hrest]; subst. cbn [app pathe.normalizeSegs].
  unfold cleanSegment, Js.nonEmpty in Hs.
  apply andb_prop in Hs as [[[H1 H2]%andb_prop H3]%andb_prop _].
  apply negb_true_iff in H1, H2, H3. rewrite H1, H2, H3. cbn [orb].
  rewrite IH by assumption. cbn [rev]. now rewrite <- app_assoc.
Qed.

Lemma normalizeSegs_nonEmpty (allow : bool) (segs : list string) : forall stack,
  Forall (fun s => Js.nonEmpty s = true) stack ->
  Forall (fun s => Js.nonEmpty s = true) (pathe.normalizeSegs allow stack segs).
Proof.
  induction segs as [|s segs IH]; intros stack Hst; cbn [pathe.normalizeSegs].
  - now apply Forall_rev.
  - destruct (String.eqb_spec s "") as [-> | Hs]; cbn [orb]; [now apply IH |].
    destruct (String.eqb s "."); [now apply IH |].
    destruct (String.eqb s "..").
    + destruct stack as [|top below].
      * destruct allow; apply IH; auto.
      * inversion Hst; subst.
        destruct (String.eqb top ".."); [destruct allow|]; apply IH; auto.
    + apply IH. constructor; [|assumption].
      unfold Js.nonEmpty. now apply negb_true_iff, String.eqb_neq.
Qed.

(** ** [pathe.join], [dirname] and [basename] on joined segments *)

Lemma join_head (a : string) (rest : list string) (c : ascii) (a' : string) :
  a = String c a' -> exists r, Js.join "/" (a :: rest) = String c r.
Proof. intros ->. destruct rest; simpl; eauto. Qed.

Lemma join_normalize (args : list string) (a : string) (rest : list string) :
  List.filter Js.nonEmpty args = a :: rest ->
  Js.startsWith a "/" = false ->
  Js.lastChar (Js.join "/" (a :: rest)) <> Some "/"%char ->
  pathe.normalizeSegs true [] (flat_map (Js.split "/") (a :: rest)) <> [] ->
  pathe.join args
  = Js.join "/" (pathe.normalizeSegs true [] (flat_map (Js.split "/") (a :: rest))).
Proof.
  intros Hf Ha Hlast Hne. unfold pathe.join. rewrite Hf.
  set (joined := Js.join "/" (a :: rest)) in *.
  assert (Hane : Js.nonEmpty a = true).
  { assert (Hin : In a (List.filter Js.nonEmpty args)) by (rewrite Hf; now left).
    now apply filter_In in Hin. }
  destruct a as [|c a']; [discriminate Hane |].
  destruct (join_head (String c a') rest c a' eq_refl) as [r Hj]. fold joined in Hj.
  assert (Hcol : pathe.collapseSlashes joined <> "").
  { intros E. apply collapse_empty in E. rewrite Hj in E. discriminate. }
  assert (Habs : pathe.isAbsolute (pathe.collapseSlashes joined) = false).
  { unfold pathe.isAbsolute. rewrite startsWith_collapse, Hj.
    cbn [Js.startsWith] in Ha |- *. rewrite andb_true_r in Ha |- *.
    now rewrite Ha. }
  unfold pathe.normalize. apply String.eqb_neq in Hcol. rewrite Hcol, Habs.
  rewrite lastChar_collapse.
  unfold pathe.normalizeString, pathe.slash.
  rewrite <- normalizeSegs_filter, filter_split_collapse, normalizeSegs_filter.
  assert (Hsp : Js.split "/" joined = flat_map (Js.split "/") (String c a' :: rest))
    by (unfold joined; now rewrite split_join).
  rewrite Hsp. cbn [negb].
  set (out := pathe.normalizeSegs true [] _) in *.
  assert (Hout : Js.join "/" out <> "").
  { apply join_nonempty; [exact Hne |]. apply normalizeSegs_nonEmpty. constructor. }
  apply String.eqb_neq in Hout. rewrite Hout.
  destruct (Js.lastChar joined) as [d|] eqn:El; [|reflexivity].
  destruct (Ascii.eqb_spec d "/") as [-> | _]; [contradiction | reflexivity].
Qed.

Lemma stripTrailingSlash_id (p : string) :
  Js.lastChar p <> Some "/"%char -> pathe.stripTrailingSlash p = p.
Proof.
  intros H. unfold pathe.stripTrailingSlash.
  destruct (Js.stripSuffix "/" p) as [stem|] eqn:E; [|reflexivity].
  apply stripSuffix_sound in E. subst p. exfalso. apply H.
  now rewrite lastChar_append.
Qed.

Lemma cleanSegment_noSlash (s : string) : cleanSegment s = true -> noSlash s = true.
Proof. unfold cleanSegment. now intros [_ H]%andb_prop. Qed.

Lemma cleanSegment_nonEmpty (s : string) : cleanSegment s = true -> Js.nonEmpty s = true.
Proof. unfold cleanSegment. now intros [[[H _]%andb_prop _]%andb_prop _]%andb_prop. Qed.

Lemma noSlash_lastChar (s : string) :
  noSlash s = true -> Js.lastChar s <> Some "/"%char.
Proof.
  unfold noSlash. induction s as [|c r IH]; [discriminate |].
  cbn [Js.sforall Js.lastChar]. intros [Hc Hr]%andb_prop.
  destruct r; [|now apply IH].
  intros [= ->]. discriminate Hc.
Qed.

Lemma lastChar_join_clean (segs : list string) (s : string) :
  cleanSegment s = true ->
  Js.lastChar (Js.join "/" (segs ++ [s])) <> Some "/"%char.
Proof.
  intros Hs. rewrite lastChar_join.
  - now apply noSlash_lastChar, cleanSegment_noSlash.
  - apply cleanSegment_nonEmpty in Hs. now destruct s.
Qed.

Lemma split_join_clean (segs : list string) :
  segs <> [] -> Forall (fun s => cleanSegment s = true) segs ->
  Js.split "/" (Js.join "/" segs) = segs.
Proof.
  intros Hn Hc. apply split_join_noSlash; [exact Hn |].
  eapply List.Forall_impl; [|exact Hc]. apply cleanSegment_noSlash.
Qed.

Lemma dirname_join (segs : list string) (s : string) :
  segs <> [] ->
  Forall (fun x => cleanSegment x = true) (segs ++ [s]) ->
  pathe.dirname (Js.join "/" (segs ++ [s])) = Js.join "/" segs.
Proof.
  intros Hn Hc. pose proof Hc as Hc'. apply Forall_app in Hc' as [Hsegs Hs].
  inversion Hs as [|? ? Hs' _]; subst.
  unfold pathe.dirname, pathe.slash.
  rewrite stripTrailingSlash_id by now apply lastChar_join_clean.
  rewrite split_join_clean by (try assumption; now destruct segs).
  rewrite removelast_last.
  assert (Hj : Js.join "/" segs <> "").
  { apply join_nonempty; [exact Hn |].
    eapply List.Forall_impl; [|exact Hsegs]. apply cleanSegment_nonEmpty. }
  apply String.eqb_neq in Hj. now rewrite Hj.
Qed.

Lemma basename_join (segs : list string) (s : string) :
  Forall (fun x => cleanSegment x = true) (segs ++ [s]) ->
  pathe.basename (Js.join "/" (segs ++ [s])) "" = s.
Proof.
  intros Hc. unfold pathe.basename, pathe.slash.
  rewrite split_join_clean by (try assumption; now destruct segs).
  rewrite last_last. reflexivity.
Qed.

Lemma join_clean (args : list string) (a : string) (rest segs : list string) :
  List.filter Js.nonEmpty args = a :: rest ->
  Js.startsWith a "/" = false ->
  Js.lastChar (Js.join "/" (a :: rest)) <> Some "/"%char ->
  List.filter Js.nonEmpty (flat_map (Js.split "/") (a :: rest)) = segs ->
  Forall (fun s => cleanSegment s = true) segs ->
  segs <> [] ->
  pathe.join args = Js.join "/" segs.
Proof.
  intros Hf Ha Hl Hsegs Hc Hn.
  assert (E : pathe.normalizeSegs true [] (flat_map (Js.split "/") (a :: rest)) = segs).
  { rewrite <- normalizeSegs_filter, Hsegs. now apply normalizeSegs_clean. }
  rewrite (join_normalize args a rest Hf Ha Hl); rewrite E; auto.
Qed.

Lemma join_snoc (segs : list string) (s : string) :
  segs <> [] -> Js.join "/" (segs ++ [s]) = Js.join "/" segs +:+ "/" +:+ s.
Proof.
  induction segs as [|a segs IH]; [contradiction |]. intros _.
  destruct segs as [|b segs]; [reflexivity |].
  change (Js.join "/" ((a :: b :: segs) ++ [s]))
    with (a +:+ "/" +:+ Js.join "/" ((b :: segs) ++ [s])).
  rewrite IH by discriminate.
  change (Js.join "/" (a :: b :: segs)) with (a +:+ "/" +:+ Js.join "/" (b :: segs)).
  now rewrite !append_assoc.
Qed.

(** ** Character classes of the generated segments *)

Lemma sforall_append (p : ascii -> bool) (a b : string) :
  Js.sforall p (a +:+ b) = Js.sforall p a && Js.sforall p b.
Proof.
  induction a as [|c a IH]; [reflexivity |].
  cbn [String.append Js.sforall]. now rewrite IH, andb_assoc.
Qed.

Lemma isSlug_pathChars (s : string) : isSlug s = true -> pathChars s = true.
Proof.
  unfold isSlug. intros [H | H]%orb_prop.
  - now apply String.eqb_eq in H as ->.
  - apply slugShape_chars in H. unfold pathChars.
    eapply sforall_impl; [|exact H]. intros c Hc. unfold isPathChar.
    now rewrite Hc.
Qed.

Lemma isSlug_noDot (s : string) : isSlug s = true -> hasDot s = false.
Proof.
  unfold isSlug, hasDot. intros [H | H]%orb_prop.
  - now apply String.eqb_eq in H as ->.
  - apply slugShape_chars in H. apply negb_false_iff.
    eapply sforall_impl; [|exact H]. intros c Hc.
    destruct c as [[] [] [] [] [] [] [] []]; try discriminate Hc; reflexivity.
Qed.

Lemma pathChars_noSlash (s : string) : pathChars s = true -> noSlash s = true.
Proof.
  unfold pathChars, noSlash. apply sforall_impl. intros c Hc.
  destruct c as [[] [] [] [] [] [] [] []]; try discriminate Hc; reflexivity.
Qed.

Lemma pathChars_noBackslash (s : string) :
  pathChars s = true -> backslashesToSlashes s = s.
Proof.
  unfold pathChars, backslashesToSlashes.
  induction s as [|c s IH]; [reflexivity |]. cbn [Js.sforall Js.smap].
  intros [Hc Hs]%andb_prop. rewrite (IH Hs). f_equal.
  destruct c as [[] [] [] [] [] [] [] []]; try discriminate Hc; reflexivity.
Qed.

Lemma noDot_clean (s : string) :
  pathChars s = true -> hasDot s = false -> Js.nonEmpty s = true ->
  cleanSegment s = true.
Proof.
  intros Hp Hd Hn. unfold cleanSegment. rewrite Hn, (pathChars_noSlash s Hp).
  destruct (String.eqb_spec s ".") as [-> | _]; [discriminate Hd |].
  destruct (String.eqb_spec s "..") as [-> | _]; [discriminate Hd | reflexivity].
Qed.

Lemma html_clean (n : string) :
  pathChars n = true -> cleanSegment (n +:+ ".html") = true.
Proof.
  intros Hp. unfold cleanSegment.
  assert (Hlen : String.length (n +:+ ".html") >= 5)
    by (rewrite length_append; simpl; lia).
  assert (Hne : Js.nonEmpty (n +:+ ".html") = true).
  { unfold Js.nonEmpty. destruct (n +:+ ".html"); [simpl in Hlen; lia | reflexivity]. }
  rewrite Hne.
  destruct (String.eqb_spec (n +:+ ".html") ".") as [E | _];
    [rewrite E in Hlen; simpl in Hlen; lia |].
  destruct (String.eqb_spec (n +:+ ".html") "..") as [E | _];
    [rewrite E in Hlen; simpl in Hlen; lia |].
  cbn [negb andb]. apply pathChars_noSlash. unfold pathChars.
  rewrite sforall_append. unfold pathChars in Hp. now rewrite Hp.
Qed.

Lemma html_hasDot (n : string) : hasDot (n +:+ ".html") = true.
Proof.
  unfold hasDot. rewrite sforall_append.
  now rewrite andb_false_r.
Qed.

Section OutputPathProperties.

Variable charMapExt : ascii -> option string.

Lemma outputName_pathChars (p : string) : pathChars (outputName charMapExt p) = true.
Proof.
  unfold outputName. destruct (isIndexName _); [reflexivity |].
  apply isSlug_pathChars, sanitizeFilename_isSlug.
Qed.

Lemma sanitized_clean (l : list string) :
  Forall (fun s => cleanSegment s = true)
    (List.filter Js.nonEmpty (map (sanitizeFilename charMapExt) l)).
Proof.
  apply List.Forall_forall. intros s [Hin Hne]%filter_In.
  apply in_map_iff in Hin as (x & <- & _).
  pose proof (sanitizeFilename_isSlug charMapExt x) as Hs.
  apply noDot_clean; auto using isSlug_pathChars, isSlug_noDot.
Qed.

Lemma sanitized_noSlash (l : list string) :
  Forall (fun s => noSlash s = true) (map (sanitizeFilename charMapExt) l).
Proof.
  apply List.Forall_forall. intros s (x & <- & _)%in_map_iff.
  apply pathChars_noSlash, isSlug_pathChars, sanitizeFilename_isSlug.
Qed.

Lemma siteSegments_clean : Forall (fun s => cleanSegment s = true) siteSegments.
Proof. repeat constructor. Qed.

(** [join(sitePath, mid, name)] when the non-empty segments of [mid] are
    clean. *)
Lemma join_site (mid nh : string) (dirs : list string) :
  cleanSegment nh = true ->
  List.filter Js.nonEmpty (Js.split "/" mid) = dirs ->
  Forall (fun s => cleanSegment s = true) dirs ->
  pathe.join [sitePath; mid; nh] = Js.join "/" (siteSegments ++ dirs ++ [nh]).
Proof.
  intros Hnh Hd Hc.
  pose proof (cleanSegment_nonEmpty _ Hnh) as Hne.
  pose proof (split_noSlash _ (cleanSegment_noSlash _ Hnh)) as Hsp.
  assert (Hall : Forall (fun s => cleanSegment s = true) (siteSegments ++ dirs ++ [nh])).
  { apply Forall_app; split; [apply siteSegments_clean |].
    apply Forall_app; split; [exact Hc | now constructor]. }
  destruct (Js.nonEmpty mid) eqn:Em.
  - apply (join_clean _ sitePath [mid; nh]); auto.
    + cbn [List.filter]. now rewrite Em, Hne.
    + apply (lastChar_join_clean [sitePath; mid] nh Hnh).
    + cbn [flat_map]. rewrite Hsp, app_nil_r, !List.filter_app, Hd.
      cbn [List.filter]. rewrite Hne. reflexivity.
  - assert (mid = "") as -> by (destruct mid; [reflexivity | discriminate Em]).
    cbn in Hd. subst dirs.
    apply (join_clean _ sitePath [nh]); auto.
    + cbn [List.filter]. now rewrite Hne.
    + apply (lastChar_join_clean [sitePath] nh Hnh).
    + cbn [flat_map]. rewrite Hsp, app_nil_r, !List.filter_app.
      cbn [List.filter]. rewrite Hne. reflexivity.
Qed.

Lemma getOutputPath_segments (p : string) :
  getOutputPath charMapExt p
  = Js.join "/" (siteSegments ++ outputDirSegments charMapExt p
                 ++ [outputName charMapExt p +:+ ".html"]).
Proof.
  unfold getOutputPath. fold (outputName charMapExt p).
  pose proof (html_clean _ (outputName_pathChars p)) as Hnh.
  destruct (String.eqb_spec (pathe.dirname p) ".") as [E | _].
  - change (pathe.join [sitePath; outputName charMapExt p +:+ ".html"])
      with (pathe.join [sitePath; ""; outputName charMapExt p +:+ ".html"]).
    unfold outputDirSegments. rewrite E.
    apply join_site; auto.
  - apply join_site; auto.
    + unfold sanitizeDirectoryPath, outputDirSegments.
      rewrite split_join_noSlash; [reflexivity | |apply sanitized_noSlash].
      pose proof (split_nonnil "/" (pathe.dirname p)).
      now destruct (Js.split "/" (pathe.dirname p)).
    + apply sanitized_clean.
Qed.

Lemma outputPath_clean (p : string) :
  Forall (fun s => cleanSegment s = true)
    ((siteSegments ++ outputDirSegments charMapExt p)
     ++ [outputName charMapExt p +:+ ".html"]).
Proof.
  apply Forall_app; split; [apply Forall_app; split|].
  - apply siteSegments_clean.
  - apply sanitized_clean.
  - constructor; [|constructor]. apply html_clean, outputName_pathChars.
Qed.

(** C4. The output path of a document path is the site directory, then
    the sanitized segments of the source directory (each segment
    sanitized on its own; [join] leaves out the ones that come out
    empty), then the file name: the literal [index] when the source base
    name is [index] in any letter case, the sanitized base name
    otherwise, followed by [.html]. *)
Theorem getOutputPath_shape (filePath : string) :
  let baseName := pathe.basename filePath ".md" in
  let name := if String.eqb (Js.toLowerCase baseName) "index" then "index"
              else sanitizeFilename charMapExt baseName in
  let dirs := List.filter Js.nonEmpty
                (map (sanitizeFilename charMapExt)
                   (Js.split "/" (pathe.dirname filePath))) in
  let out := getOutputPath charMapExt filePath in
  out = Js.join "/" (Js.split "/" sitePath ++ dirs) +:+ "/" +:+ name +:+ ".html"
  /\ pathe.dirname out = Js.join "/" (Js.split "/" sitePath ++ dirs)
  /\ pathe.basename out "" = name +:+ ".html".
Proof.
  intros baseName name dirs out.
  change (Js.split "/" sitePath) with siteSegments.
  change name with (outputName charMapExt filePath).
  change dirs with (outputDirSegments charMapExt filePath).
  unfold out. rewrite getOutputPath_segments, app_assoc.
  pose proof (outputPath_clean filePath) as Hc.
  split; [|split].
  - now rewrite join_snoc.
  - now apply dirname_join.
  - now apply basename_join.
Qed.

(** C10. A document that is not an index and whose base name sanitizes to
    the empty string gets the file name [.html]; two such documents of
    one source directory get the same output path. *)
Theorem empty_basename_collision (p q : string) :
  isIndexName (pathe.basename p ".md") = false ->
  sanitizeFilename charMapExt (pathe.basename p ".md") = "" ->
  pathe.basename (getOutputPath charMapExt p) "" = ".html"
  /\ (isIndexName (pathe.basename q ".md") = false ->
      sanitizeFilename charMapExt (pathe.basename q ".md") = "" ->
      pathe.dirname q = pathe.dirname p ->
      getOutputPath charMapExt q = getOutputPath charMapExt p).
Proof.
  intros Hi Hs.
  assert (Hn : outputName charMapExt p = "") by (unfold outputName; now rewrite Hi).
  split.
  - rewrite getOutputPath_segments, app_assoc, basename_join, Hn; [reflexivity |].
    apply outputPath_clean.
  - intros Hi' Hs' Hd.
    assert (Hn' : outputName charMapExt q = "") by (unfold outputName; now rewrite Hi').
    rewrite !getOutputPath_segments. unfold outputDirSegments. now rewrite Hn, Hn', Hd.
Qed.

End OutputPathProperties.

(** ** Relative paths *)

Lemma dropCommon_spec (f t : list string) :
  exists c, f = c ++ fst (pathe.dropCommon f t) /\ t = c ++ snd (pathe.dropCommon f t).
Proof.
  revert t. induction f as [|x f IH]; intros t; [exists []; auto |].
  destruct t as [|y t]; [exists []; auto |]. cbn [pathe.dropCommon].
  destruct (String.eqb_spec y x) as [-> | _]; [|exists []; auto].
  destruct (IH t) as (c & E1 & E2). exists (x :: c). simpl. now rewrite <- E1, <- E2.
Qed.

Lemma dropCommon_prefix (c f t : list string) :
  pathe.dropCommon (c ++ f) (c ++ t) = pathe.dropCommon f t.
Proof.
  induction c as [|x c IH]; [reflexivity |]. simpl. now rewrite String.eqb_refl.
Qed.

Lemma dropCommon_keeps_last (f t : list string) (x : string) :
  ~ In x f ->
  exists t1, snd (pathe.dropCommon f (t ++ [x])) = t1 ++ [x].
Proof.
  revert t. induction f as [|y f IH]; intros t Hx.
  - exists t. reflexivity.
  - destruct t as [|z t]; cbn [app pathe.dropCommon].
    + destruct (String.eqb_spec x y) as [-> | _]; [|exists []; reflexivity].
      exfalso. apply Hx. now left.
    + destruct (String.eqb_spec z y) as [-> | _]; [|exists (z :: t); reflexivity].
      apply IH. intros H. apply Hx. now right.
Qed.

Lemma resolveSegs_clean (cwd segs : list string) :
  Forall (fun s => cleanSegment s = true) cwd ->
  Forall (fun s => cleanSegment s = true) segs ->
  segs <> [] ->
  pathe.resolveSegs cwd (Js.join "/" segs) = cwd ++ segs.
Proof.
  intros Hc Hs Hn. unfold pathe.resolveSegs, pathe.slash.
  rewrite split_join_clean by assumption.
  apply normalizeSegs_clean. now apply Forall_app.
Qed.

Lemma relative_clean (cwd f t : list string) :
  Forall (fun s => cleanSegment s = true) cwd ->
  Forall (fun s => cleanSegment s = true) f ->
  Forall (fun s => cleanSegment s = true) t ->
  f <> [] -> t <> [] ->
  pathe.relative cwd (Js.join "/" f) (Js.join "/" t)
  = Js.join "/" (map (fun _ => "..") (fst (pathe.dropCommon f t))
                 ++ snd (pathe.dropCommon f t)).
Proof.
  intros Hc Hf Ht Hfn Htn. unfold pathe.relative.
  rewrite !resolveSegs_clean, dropCommon_prefix by assumption.
  now destruct (pathe.dropCommon f t).
Qed.

Lemma smap_append (g : ascii -> ascii) (a b : string) :
  Js.smap g (a +:+ b) = Js.smap g a +:+ Js.smap g b.
Proof. induction a as [|c a IH]; simpl; [reflexivity | now rewrite IH]. Qed.

Lemma backslashes_join (segs : list string) :
  Forall (fun s => pathChars s = true) segs ->
  backslashesToSlashes (Js.join "/" segs) = Js.join "/" segs.
Proof.
  induction 1 as [|s segs Hs Hrest IH]; [reflexivity |].
  destruct segs as [|b segs]; [now apply pathChars_noBackslash |].
  change (Js.join "/" (s :: b :: segs)) with (s +:+ "/" +:+ Js.join "/" (b :: segs)).
  unfold backslashesToSlashes in *. rewrite !smap_append, IH.
  fold (backslashesToSlashes s). now rewrite pathChars_noBackslash.
Qed.

Section RelativePathProperties.

Variable charMapExt : ascii -> option string.
Variable cwd : list string.
Hypothesis cwd_clean : Forall (fun s => cleanSegment s = true) cwd.

Lemma outputDir_pathChars (p : string) :
  Forall (fun s => pathChars s = true /\ hasDot s = false)
    (siteSegments ++ outputDirSegments charMapExt p).
Proof.
  apply Forall_app; split; [repeat constructor |].
  apply List.Forall_forall. intros s [Hin _]%filter_In.
  apply in_map_iff in Hin as (x & <- & _).
  pose proof (sanitizeFilename_isSlug charMapExt x).
  auto using isSlug_pathChars, isSlug_noDot.
Qed.

(** The relative path from the directory of one output path to another
    output path leads, from that directory, to the other output path. *)
Lemma getRelativePath_roundtrip (a b : string) :
  pathe.join [pathe.dirname (getOutputPath charMapExt a);
              getRelativePath cwd (getOutputPath charMapExt a)
                (getOutputPath charMapExt b)]
  = getOutputPath charMapExt b.
Proof.
  unfold getRelativePath. rewrite !getOutputPath_segments, !app_assoc.
  set (dA := siteSegments ++ outputDirSegments charMapExt a).
  set (dB := siteSegments ++ outputDirSegments charMapExt b).
  set (nA := outputName charMapExt a +:+ ".html").
  set (nB := outputName charMapExt b +:+ ".html").
  pose proof (outputPath_clean charMapExt a) as HcA. fold dA nA in HcA.
  pose proof (outputPath_clean charMapExt b) as HcB. fold dB nB in HcB.
  pose proof (outputDir_pathChars a) as HpA. fold dA in HpA.
  pose proof (outputDir_pathChars b) as HpB. fold dB in HpB.
  assert (HdA : dA <> []) by discriminate.
  assert (HcdA : Forall (fun s => cleanSegment s = true) dA)
    by now apply Forall_app in HcA as [? _].
  rewrite dirname_join by assumption.
  rewrite relative_clean; try assumption; [|now destruct dB].
  destruct (dropCommon_spec dA (dB ++ [nB])) as (c & Ef & Et).
  destruct (dropCommon_keeps_last dA dB nB) as (t1 & Elast).
  { intros Hin. apply (proj1 (List.Forall_forall _ _) HpA) in Hin as [_ Hd].
    unfold nB in Hd. now rewrite html_hasDot in Hd. }
  set (f' := fst (pathe.dropCommon dA (dB ++ [nB]))) in *.
  set (t' := snd (pathe.dropCommon dA (dB ++ [nB]))) in *.
  assert (Hcf : Forall (fun s => cleanSegment s = true) c /\
                Forall (fun s => cleanSegment s = true) f')
    by (rewrite Ef in HcdA; now apply Forall_app in HcdA).
  destruct Hcf as [Hcc Hcf].
  assert (Hct : Forall (fun s => cleanSegment s = true) t')
    by (rewrite Et in HcB; now apply Forall_app in HcB as [_ ?]).
  assert (HnB : pathChars nB = true).
  { unfold nB, pathChars. rewrite sforall_append.
    pose proof (outputName_pathChars charMapExt b) as H. unfold pathChars in H.
    now rewrite H. }
  assert (Hpt : Forall (fun s => pathChars s = true) (map (fun _ => "..") f' ++ t')).
  { apply Forall_app; split.
    - apply List.Forall_forall. now intros s (x & <- & _)%in_map_iff.
    - assert (Hall : Forall (fun s => pathChars s = true) (dB ++ [nB])).
      { apply Forall_app; split; [|now repeat constructor].
        eapply List.Forall_impl; [|exact HpB]. now intros s [? _]. }
      rewrite Et in Hall. now apply Forall_app in Hall as [_ ?]. }
  rewrite backslashes_join by assumption.
  set (rel := Js.join "/" (map (fun _ => "..") f' ++ t')).
  assert (Hups : Forall (fun s => noSlash s = true) (map (fun _ => "..") f' ++ t')).
  { eapply List.Forall_impl; [|exact Hpt]. apply pathChars_noSlash. }
  assert (Hrel : rel <> "").
  { apply join_nonempty; [rewrite Elast; now destruct (map _ f'), t1 |].
    apply Forall_app; split.
    - apply List.Forall_forall. now intros s (x & <- & _)%in_map_iff.
    - eapply List.Forall_impl; [|exact Hct]. apply cleanSegment_nonEmpty. }
  assert (HjA : Js.join "/" dA <> "").
  { apply join_nonempty; [assumption |].
    eapply List.Forall_impl; [|exact HcdA]. apply cleanSegment_nonEmpty. }
  assert (Hsegs : pathe.normalizeSegs true []
            (flat_map (Js.split "/") [Js.join "/" dA; rel]) = dB ++ [nB]).
  { cbn [flat_map]. rewrite app_nil_r.
    rewrite split_join_clean by assumption.
    unfold rel. rewrite split_join_noSlash;
      [|rewrite Elast; now destruct (map _ f'), t1 | assumption].
    rewrite Ef at 1. rewrite <- !app_assoc.
    rewrite normalizeSegs_push by assumption.
    rewrite normalizeSegs_push by assumption.
    rewrite normalizeSegs_up by assumption.
    rewrite normalizeSegs_clean by assumption.
    rewrite app_nil_r, rev_involutive. now rewrite <- Et. }
  rewrite (join_normalize _ (Js.join "/" dA) [rel]).
  - now rewrite Hsegs.
  - cbn [List.filter]. unfold Js.nonEmpty.
    apply String.eqb_neq in HjA, Hrel. now rewrite HjA, Hrel.
  - unfold dA, siteSegments. cbn [app].
    destruct (join_head "obsidian-foursg" ("site" :: outputDirSegments charMapExt a)
                "o" "bsidian-foursg" eq_refl) as [r ->].
    reflexivity.
  - change (Js.join "/" dA :: [rel]) with ([Js.join "/" dA] ++ [rel]).
    rewrite (lastChar_join [Js.join "/" dA] rel Hrel).
    unfold rel. rewrite Elast, app_assoc.
    apply lastChar_join_clean.
    apply Forall_app in HcB as [_ H]. now inversion H.
  - rewrite Hsegs. now destruct dB.
Qed.

End RelativePathProperties.

(** ** Regular-expression replacement *)

Lemma closeBrackets_sound (r t x : string) :
  closeBrackets r = Some (t, x) -> r = t +:+ "]]" +:+ x /\ noCloseBracket t = true.
Proof.
  revert t. induction r as [|c r IH]; intros t; cbn [closeBrackets]; [discriminate |].
  destruct (Ascii.eqb_spec c "]") as [-> | Hc].
  - destruct r as [|d r]; [discriminate |].
    destruct (Ascii.eqb_spec d "]") as [-> | _]; [|discriminate].
    intros [= <- <-]. auto.
  - destruct (closeBrackets r) as [[t' x']|]; [|discriminate].
    intros [= <- <-]. destruct (IH t' eq_refl) as [-> Ht]. split; [reflexivity |].
    unfold noCloseBracket in *. cbn [Js.sforall]. rewrite Ht.
    apply Ascii.eqb_neq in Hc. now rewrite Hc.
Qed.

Lemma closeBrackets_marker (inner post : string) :
  noCloseBracket inner = true ->
  closeBrackets (inner +:+ "]]" +:+ post) = Some (inner, post).
Proof.
  unfold noCloseBracket. induction inner as [|c r IH]; [reflexivity |].
  cbn [Js.sforall]. intros [Hc Hr]%andb_prop.
  change (String c r +:+ "]]" +:+ post) with (String c (r +:+ "]]" +:+ post)).
  cbn [closeBrackets].
  apply negb_true_iff in Hc. now rewrite Hc, (IH Hr).
Qed.

Lemma bracketMatch_marker (inner post : string) :
  inner <> "" -> noCloseBracket inner = true ->
  bracketMatch ("[[" +:+ inner +:+ "]]" +:+ post)
  = Some (inner, String.length inner + 4).
Proof.
  intros Hne Hnc.
  change ("[[" +:+ inner +:+ "]]" +:+ post)
    with (String "[" (String "[" (inner +:+ "]]" +:+ post))).
  cbn [bracketMatch Ascii.eqb Bool.eqb andb].
  rewrite closeBrackets_marker by assumption.
  apply String.eqb_neq in Hne. now rewrite Hne.
Qed.

Lemma bracketMatch_sound (s t : string) (n : nat) :
  bracketMatch s = Some (t, n) ->
  n = String.length t + 4 /\ exists x, s = "[[" +:+ t +:+ "]]" +:+ x.
Proof.
  destruct s as [|a [|b r]]; cbn [bracketMatch]; try discriminate.
  destruct (Ascii.eqb_spec a "[") as [-> | _]; [|discriminate].
  destruct (Ascii.eqb_spec b "[") as [-> | _]; [|discriminate]. cbn [andb].
  destruct (closeBrackets r) as [[t' x]|] eqn:E; [|discriminate].
  destruct (String.eqb t' ""); [discriminate |].
  intros [= <- <-]. split; [reflexivity |].
  exists x. apply closeBrackets_sound in E as [-> _]. reflexivity.
Qed.

Lemma bracketMatch_group (s t : string) (n : nat) :
  bracketMatch s = Some (t, n) -> t <> "" /\ noCloseBracket t = true.
Proof.
  destruct s as [|a [|b r]]; cbn [bracketMatch]; try discriminate.
  destruct (Ascii.eqb a "[" && Ascii.eqb b "["); [|discriminate].
  destruct (closeBrackets r) as [[t' x]|] eqn:E; [|discriminate].
  destruct (String.eqb_spec t' ""); [discriminate |].
  intros [= <- <-]. split; [assumption |].
  now apply closeBrackets_sound in E as [_ H].
Qed.

(** A text that begins another one up to its length is a prefix of it. *)
Lemma prefix_of_append (a : string) : forall x s rest,
  a +:+ x = s +:+ rest -> String.length a <= String.length s ->
  exists y, s = a +:+ y.
Proof.
  induction a as [|c a IH]; intros x s rest E Hlen; [now exists s |].
  destruct s as [|d s]; [simpl in Hlen; lia |].
  cbn [String.append String.length] in E, Hlen. injection E as -> E.
  destruct (IH x s rest E) as [y ->]; [lia |]. now exists y.
Qed.

Lemma bracketMatch_monotone (s rest t : string) (n : nat) :
  bracketMatch s = Some (t, n) -> bracketMatch (s +:+ rest) = Some (t, n).
Proof.
  intros H. destruct (bracketMatch_group _ _ _ H) as [Hne Hnc].
  apply bracketMatch_sound in H as [-> [x ->]].
  rewrite !append_assoc. cbn [String.append].
  change (String "[" (String "[" (t +:+ String "]" (String "]" (x +:+ rest)))))
    with ("[[" +:+ t +:+ "]]" +:+ (x +:+ rest)).
  now apply bracketMatch_marker.
Qed.

Lemma bracketMatch_prefixDetermined (s rest : string) :
  match bracketMatch (s +:+ rest) with
  | Some (group, n) => n <= String.length s -> bracketMatch s = Some (group, n)
  | None => bracketMatch s = None
  end.
Proof.
  destruct (bracketMatch (s +:+ rest)) as [[t n]|] eqn:E.
  - intros Hn. destruct (bracketMatch_group _ _ _ E) as [Hne Hnc].
    apply bracketMatch_sound in E as [-> [x E]].
    assert (Hp : exists y, s = ("[[" +:+ t +:+ "]]") +:+ y).
    { apply (prefix_of_append _ x s rest).
      - rewrite E. now rewrite !append_assoc.
      - rewrite !length_append. simpl. simpl in Hn. lia. }
    destruct Hp as [y ->]. rewrite !append_assoc. cbn [String.append].
    change (String "[" (String "[" (t +:+ String "]" (String "]" y))))
      with ("[[" +:+ t +:+ "]]" +:+ y).
    now apply bracketMatch_marker.
  - destruct (bracketMatch s) as [[t n]|] eqn:E'; [|reflexivity].
    apply (bracketMatch_monotone _ rest) in E'. congruence.
Qed.

Lemma wikiLinkRegex_prefixDetermined : prefixDetermined wikiLinkRegex.
Proof.
  intros pb s rest. unfold wikiLinkRegex. destruct pb; [reflexivity |].
  apply bracketMatch_prefixDetermined.
Qed.

Lemma imageEmbedRegex_prefixDetermined : prefixDetermined imageEmbedRegex.
Proof.
  intros pb s rest. destruct s as [|a r].
  - cbn [String.append]. destruct (imageEmbedRegex pb rest) as [[t n]|] eqn:E;
      [|reflexivity].
    intros Hn. simpl in Hn. exfalso. unfold imageEmbedRegex in E.
    destruct rest as [|b rest]; [discriminate |].
    destruct (Ascii.eqb b "!"); [|discriminate].
    destruct (bracketMatch rest) as [[t' m]|]; [|discriminate].
    injection E as _ <-. lia.
  - cbn [String.append imageEmbedRegex].
    destruct (Ascii.eqb a "!"); [|reflexivity].
    pose proof (bracketMatch_prefixDetermined r rest) as H.
    destruct (bracketMatch (r +:+ rest)) as [[t n]|].
    + intros Hn. cbn [String.length] in Hn. rewrite H by lia. reflexivity.
    + now rewrite H.
Qed.

Lemma bangAfter_cons (pb : bool) (c : ascii) (r : string) :
  bangAfter pb (String c r) = bangAfter (Ascii.eqb c "!") r.
Proof.
  unfold bangAfter. destruct r as [|a r]; [reflexivity |].
  change (Js.lastChar (String c (String a r))) with (Js.lastChar (String a r)).
  destruct (Js.lastChar (String a r)) eqn:E; [reflexivity |].
  apply lastChar_none in E. discriminate E.
Qed.

Section ReplaceAll.

Variable regex : bool -> string -> option (string * nat).
Variable f : string -> string.

Lemma replaceAll_skip (a s : string) : forall pb,
  replaceAll regex f pb (String.length a) (a +:+ s)
  = replaceAll regex f (bangAfter pb a) 0 s.
Proof.
  induction a as [|c a IH]; intros pb; [reflexivity |].
  cbn [String.length String.append replaceAll]. now rewrite IH, bangAfter_cons.
Qed.

Lemma replaceAll_match (a s group : string) (pb : bool) :
  regex pb (a +:+ s) = Some (group, String.length a) ->
  a <> "" ->
  replaceAll regex f pb 0 (a +:+ s)
  = f group +:+ replaceAll regex f (bangAfter pb a) 0 s.
Proof.
  intros Hm Ha. destruct a as [|c a]; [contradiction |].
  rewrite bangAfter_cons. change (String c a +:+ s) with (String c (a +:+ s)) in *.
  cbn [replaceAll]. rewrite Hm. cbn [String.length Nat.pred].
  now rewrite replaceAll_skip.
Qed.

(** The scan over [pre +:+ rest]: either it arrives at [rest], and the
    replacement works on the two texts separately, or it finds a match
    that begins in [pre] and runs into [rest]; the text before that match
    is then replaced on its own. *)
Lemma replaceAll_scan (rest : string) :
  prefixDetermined regex ->
  forall pre pb k,
    k <= String.length pre ->
    match openMatch regex pb k pre rest with
    | None =>
        replaceAll regex f pb k (pre +:+ rest)
        = replaceAll regex f pb k pre +:+ replaceAll regex f (bangAfter pb pre) 0 rest
    | Some open =>
        exists before group n,
          pre = before +:+ open
          /\ k <= String.length before
          /\ regex (bangAfter pb before) (open +:+ rest) = Some (group, n)
          /\ String.length open < n
          /\ replaceAll regex f pb k (pre +:+ rest)
             = replaceAll regex f pb k before
               +:+ replaceAll regex f (bangAfter pb before) 0 (open +:+ rest)
    end.
Proof.
  intros Hdet. induction pre as [|c r IH]; intros pb k Hk.
  - simpl in Hk. replace k with 0 by lia. reflexivity.
  - cbn [openMatch String.length] in *. destruct k as [|k].
    + pose proof (Hdet pb (String c r) rest) as Hd.
      destruct (regex pb (String c r +:+ rest)) as [[g n]|] eqn:Ematch.
      * destruct (Nat.leb_spec n (S (String.length r))) as [Hn | Hn].
        -- specialize (Hd Hn). specialize (IH (Ascii.eqb c "!") (Nat.pred n) ltac:(lia)).
           cbn [String.append] in Ematch.
           destruct (openMatch regex (Ascii.eqb c "!") (Nat.pred n) r rest) as [open|].
           ++ destruct IH as (before & group & m & -> & Hb & Hopen & Hlen & IH).
              exists (String c before), group, m.
              rewrite bangAfter_cons. split; [reflexivity |].
              split; [lia |]. split; [exact Hopen |]. split; [exact Hlen |].
              pose proof (Hdet pb (String c before) (open +:+ rest)) as Hd'.
              rewrite <- append_assoc in Hd'. cbn [String.append] in Hd'.
              rewrite Ematch in Hd'. cbn [String.length] in Hd'.
              specialize (Hd' ltac:(lia)).
              cbn [String.append replaceAll]. rewrite Ematch, Hd', IH.
              now rewrite append_assoc.
           ++ rewrite bangAfter_cons. cbn [String.append replaceAll].
              rewrite Ematch, Hd, IH. now rewrite append_assoc.
        -- exists "", g, n. cbn [String.append String.length].
           split; [reflexivity |]. split; [lia |].
           split; [exact Ematch |]. split; [lia | reflexivity].
      * specialize (IH (Ascii.eqb c "!") 0 ltac:(lia)).
        cbn [String.append] in Ematch.
        destruct (openMatch regex (Ascii.eqb c "!") 0 r rest) as [open|].
        -- destruct IH as (before & group & m & -> & Hb & Hopen & Hlen & IH).
           exists (String c before), group, m.
           rewrite bangAfter_cons. split; [reflexivity |].
           split; [lia |]. split; [exact Hopen |]. split; [exact Hlen |].
           pose proof (Hdet pb (String c before) (open +:+ rest)) as Hd'.
           rewrite <- append_assoc in Hd'. cbn [String.append] in Hd'.
           rewrite Ematch in Hd'.
           cbn [String.append replaceAll]. rewrite Ematch, Hd', IH. reflexivity.
        -- rewrite bangAfter_cons. cbn [String.append replaceAll].
           rewrite Ematch, Hd, IH. reflexivity.
    + specialize (IH (Ascii.eqb c "!") k ltac:(lia)).
      destruct (openMatch regex (Ascii.eqb c "!") k r rest) as [open|].
      * destruct IH as (before & group & m & -> & Hb & Hopen & Hlen & IH).
        exists (String c before), group, m.
        rewrite bangAfter_cons. split; [reflexivity |].
        split; [cbn [String.length]; lia |]. split; [exact Hopen |].
        split; [exact Hlen |].
        cbn [String.append replaceAll]. exact IH.
      * rewrite bangAfter_cons. cbn [String.append replaceAll]. exact IH.
Qed.

End ReplaceAll.

Lemma openMatch_nonempty (regex : bool -> string -> option (string * nat))
    (pre rest : string) :
  forall pb k, openMatch regex pb k pre rest <> Some "".
Proof.
  induction pre as [|c r IH]; intros pb k; cbn [openMatch]; [discriminate |].
  destruct k as [|k]; [|apply IH].
  destruct (regex pb _) as [[g n]|]; [|apply IH].
  destruct (Nat.leb n _); [apply IH | discriminate].
Qed.

(** A closing bracket in [y] decides the match before the end of [y]. *)
Lemma closeBrackets_decided (y z : string) :
  noCloseBracket y = false -> Js.startsWith z "]" = false ->
  match closeBrackets (y +:+ z) with
  | Some (t, _) => String.length t + 2 <= String.length y
  | None => True
  end.
Proof.
  intros Hy Hz. unfold noCloseBracket in Hy.
  induction y as [|c y IH]; [discriminate Hy |].
  cbn [Js.sforall String.append closeBrackets String.length] in *.
  destruct (Ascii.eqb_spec c "]") as [-> | Hc].
  - destruct y as [|d y]; cbn [String.append].
    + destruct z as [|e z]; [exact I |].
      cbn [Js.startsWith] in Hz. rewrite andb_true_r, Ascii.eqb_sym in Hz.
      now rewrite Hz.
    + destruct (Ascii.eqb d "]"); [cbn [String.length]; lia | exact I].
  - cbn [negb andb] in Hy. specialize (IH Hy).
    destruct (closeBrackets (y +:+ z)) as [[t x]|]; [|exact I].
    cbn [String.length]. lia.
Qed.

Lemma noCloseBracket_append (a b : string) :
  noCloseBracket (a +:+ b) = noCloseBracket a && noCloseBracket b.
Proof. apply sforall_append. Qed.

(** A match of the bracket pattern on a text that goes on with [mark]
    and two closing brackets, [mark] having no closing bracket: when the
    match does not end in [open], it ends with those two brackets, and
    its group is all the text between the first two brackets of [open]
    and them. *)
Lemma bracketMatch_crossing (mark post g : string) (n : nat) :
  mark <> "" -> noCloseBracket mark = true ->
  forall open,
    bracketMatch (open +:+ mark +:+ "]]" +:+ post) = Some (g, n) ->
    String.length open < n ->
    g = Js.drop 2 (open +:+ mark)
    /\ n = String.length open + String.length mark + 2.
Proof.
  intros Hne Hmark open Hm Hlen.
  assert (Hhead : Js.startsWith (mark +:+ "]]" +:+ post) "]" = false).
  { destruct mark as [|c m]; [contradiction |].
    unfold noCloseBracket in Hmark. cbn [Js.sforall] in Hmark.
    apply andb_prop in Hmark as [Hc _]. apply negb_true_iff in Hc.
    cbn [String.append Js.startsWith]. now rewrite Ascii.eqb_sym, Hc. }
  assert (Hfull : forall u, noCloseBracket u = true ->
            closeBrackets (u +:+ "]]" +:+ post) = Some (u, post))
    by (intros u; apply closeBrackets_marker).
  remember ("]]" +:+ post) as closing eqn:Eclosing.
  destruct open as [|a [|b y]].
  - destruct mark as [|a [|b m]]; [contradiction | |].
    + subst closing. cbn in Hm. destruct (Ascii.eqb a "["); discriminate.
    + cbn [String.append bracketMatch] in Hm.
      destruct (Ascii.eqb a "[" && Ascii.eqb b "["); [|discriminate].
      assert (Hm' : noCloseBracket m = true).
      { unfold noCloseBracket in *. cbn [Js.sforall] in Hmark.
        now apply andb_prop in Hmark as [_ [_ ?]%andb_prop]. }
      rewrite (Hfull m Hm') in Hm. destruct (String.eqb m ""); [discriminate |].
      injection Hm as <- <-. cbn [String.append Js.drop String.length]. split; [reflexivity | lia].
  - destruct mark as [|b m]; [contradiction |].
    cbn [String.append bracketMatch] in Hm.
    destruct (Ascii.eqb a "[" && Ascii.eqb b "["); [|discriminate].
    assert (Hm' : noCloseBracket m = true).
    { unfold noCloseBracket in *. cbn [Js.sforall] in Hmark.
      now apply andb_prop in Hmark as [_ ?]. }
    rewrite (Hfull m Hm') in Hm. destruct (String.eqb m ""); [discriminate |].
    injection Hm as <- <-. cbn [String.append Js.drop String.length]. split; [reflexivity | lia].
  - cbn [String.append bracketMatch] in Hm.
    destruct (Ascii.eqb a "[" && Ascii.eqb b "["); [|discriminate].
    destruct (noCloseBracket y) eqn:Hy.
    + assert (Hu : noCloseBracket (y +:+ mark) = true)
        by now rewrite noCloseBracket_append, Hy, Hmark.
      rewrite <- append_assoc, (Hfull _ Hu) in Hm.
      destruct (String.eqb (y +:+ mark) ""); [discriminate |].
      injection Hm as <- <-. cbn [String.append Js.drop String.length].
      rewrite length_append. split; [reflexivity | lia].
    + pose proof (closeBrackets_decided y _ Hy Hhead) as Hd.
      destruct (closeBrackets (y +:+ mark +:+ closing)) as [[t x]|];
        [|discriminate].
      destruct (String.eqb t ""); [discriminate |].
      injection Hm as <- <-. cbn [String.length] in Hlen. lia.
Qed.

Lemma wikiLinkRegex_crossing (pb : bool) (open inner post g : string) (n : nat) :
  noCloseBracket inner = true ->
  wikiLinkRegex pb (open +:+ "[[" +:+ inner +:+ "]]" +:+ post) = Some (g, n) ->
  String.length open < n ->
  g = Js.drop 2 (open +:+ "[[" +:+ inner)
  /\ n = String.length (open +:+ "[[" +:+ inner +:+ "]]").
Proof.
  intros Hinner Hm Hlen. unfold wikiLinkRegex in Hm. destruct pb; [discriminate |].
  assert (Hne : "[[" +:+ inner <> "") by discriminate.
  assert (Hmark : noCloseBracket ("[[" +:+ inner) = true).
  { unfold noCloseBracket in *. cbn [String.append Js.sforall]. now rewrite Hinner. }
  destruct (bracketMatch_crossing ("[[" +:+ inner) post g n Hne Hmark open Hm Hlen)
    as [-> ->].
  split; [reflexivity |]. rewrite !length_append. simpl. lia.
Qed.

Lemma imageEmbedRegex_crossing (pb : bool) (open inner post g : string) (n : nat) :
  noCloseBracket inner = true -> open <> "" ->
  imageEmbedRegex pb (open +:+ "![[" +:+ inner +:+ "]]" +:+ post) = Some (g, n) ->
  String.length open < n ->
  g = Js.drop 3 (open +:+ "![[" +:+ inner)
  /\ n = String.length (open +:+ "![[" +:+ inner +:+ "]]").
Proof.
  intros Hinner Hne Hm Hlen. destruct open as [|a open]; [contradiction |].
  change (String a open +:+ "![[" +:+ inner +:+ "]]" +:+ post)
    with (String a (open +:+ "![[" +:+ inner +:+ "]]" +:+ post)) in Hm.
  cbn [imageEmbedRegex] in Hm.
  destruct (Ascii.eqb a "!"); [|discriminate].
  destruct (bracketMatch (open +:+ "![[" +:+ inner +:+ "]]" +:+ post))
    as [[t m]|] eqn:E; [|discriminate].
  injection Hm as <- <-. cbn [String.length] in Hlen.
  assert (Hne' : "![[" +:+ inner <> "") by discriminate.
  assert (Hmark : noCloseBracket ("![[" +:+ inner) = true).
  { unfold noCloseBracket in *. cbn [String.append Js.sforall]. now rewrite Hinner. }
  destruct (bracketMatch_crossing ("![[" +:+ inner) post t m Hne' Hmark open E
              ltac:(lia)) as [-> ->].
  split; [reflexivity |]. cbn [String.append String.length].
  rewrite !length_append. simpl. rewrite !length_append. simpl. lia.
Qed.

Section LinkRewriting.

Variable charMapExt : ascii -> option string.
Variable cwd : list string.

Lemma marker_assoc (open inner post : string) :
  open +:+ inner +:+ "]]" +:+ post = (open +:+ inner +:+ "]]") +:+ post.
Proof. now rewrite !append_assoc. Qed.

Lemma closing_assoc (open mark inner : string) :
  open +:+ mark +:+ inner +:+ "]]" = (open +:+ mark +:+ inner) +:+ "]]".
Proof. now rewrite !append_assoc. Qed.

Lemma bangAfter_closing (pb : bool) (text : string) :
  bangAfter pb (text +:+ "]]") = false.
Proof. unfold bangAfter. now rewrite lastChar_append by discriminate. Qed.

Lemma marker_bang (pb : bool) (open inner : string) :
  bangAfter pb (open +:+ inner +:+ "]]") = false.
Proof.
  unfold bangAfter. rewrite <- append_assoc, lastChar_append by discriminate.
  reflexivity.
Qed.

(** What becomes of a reference marker.  When the scan arrives at it,
    and no exclamation mark stands before it, it is replaced by what the
    callback returns for its inner text, and the texts around it are
    converted on their own.  When a match that begins at [open] before it
    runs into it, that match ends with the marker and is replaced as one
    reference. *)
Lemma convertWikiLinks_marker_cases (files : list TFile.t) (file : TFile.t)
    (pre inner post : string) :
  inner <> "" -> noCloseBracket inner = true ->
  match openMatch wikiLinkRegex false 0 pre ("[[" +:+ inner +:+ "]]" +:+ post) with
  | None =>
      endsWithBang pre = false ->
      convertWikiLinks charMapExt cwd files
        (pre +:+ "[[" +:+ inner +:+ "]]" +:+ post) file
      = convertWikiLinks charMapExt cwd files pre file
        +:+ wikiLinkReplacement charMapExt cwd files file inner
        +:+ convertWikiLinks charMapExt cwd files post file
  | Some open =>
      exists before,
        pre = before +:+ open
        /\ convertWikiLinks charMapExt cwd files
             (pre +:+ "[[" +:+ inner +:+ "]]" +:+ post) file
           = convertWikiLinks charMapExt cwd files before file
             +:+ wikiLinkReplacement charMapExt cwd files file
                   (Js.drop 2 (open +:+ "[[" +:+ inner))
             +:+ convertWikiLinks charMapExt cwd files post file
  end.
Proof.
  intros Hne Hnc. unfold convertWikiLinks.
  pose proof (replaceAll_scan wikiLinkRegex
                (wikiLinkReplacement charMapExt cwd files file)
                ("[[" +:+ inner +:+ "]]" +:+ post)
                wikiLinkRegex_prefixDetermined pre false 0 ltac:(lia)) as H.
  destruct (openMatch wikiLinkRegex false 0 pre _) as [open|].
  - destruct H as (before & g & n & -> & _ & Hm & Hlen & ->).
    exists before. split; [reflexivity |]. f_equal.
    destruct (wikiLinkRegex_crossing _ _ _ _ _ _ Hnc Hm Hlen) as [-> ->].
    assert (Ea : open +:+ "[[" +:+ inner +:+ "]]" +:+ post
                 = (open +:+ "[[" +:+ inner +:+ "]]") +:+ post)
      by now rewrite !append_assoc.
    rewrite Ea in Hm |- *. rewrite (replaceAll_match _ _ _ post _ _ Hm).
    + now rewrite (closing_assoc open "[[" inner), bangAfter_closing.
    + destruct open; discriminate.
  - intros Hbang. rewrite H. f_equal. fold (endsWithBang pre). rewrite Hbang.
    rewrite marker_assoc, (replaceAll_match _ _ _ post inner), marker_bang;
      [reflexivity | |].
    + rewrite <- marker_assoc. unfold wikiLinkRegex.
      rewrite bracketMatch_marker by assumption.
      do 2 f_equal. rewrite !length_append. simpl. lia.
    + discriminate.
Qed.

Lemma convertImageEmbeds_marker_cases (imageFiles : list TFile.t) (file : TFile.t)
    (pre inner post : string) :
  inner <> "" -> noCloseBracket inner = true ->
  match openMatch imageEmbedRegex false 0 pre ("![[" +:+ inner +:+ "]]" +:+ post) with
  | None =>
      convertImageEmbeds charMapExt cwd imageFiles
        (pre +:+ "![[" +:+ inner +:+ "]]" +:+ post) file
      = convertImageEmbeds charMapExt cwd imageFiles pre file
        +:+ imageEmbedReplacement charMapExt cwd imageFiles file inner
        +:+ convertImageEmbeds charMapExt cwd imageFiles post file
  | Some open =>
      exists before,
        pre = before +:+ open
        /\ convertImageEmbeds charMapExt cwd imageFiles
             (pre +:+ "![[" +:+ inner +:+ "]]" +:+ post) file
           = convertImageEmbeds charMapExt cwd imageFiles before file
             +:+ imageEmbedReplacement charMapExt cwd imageFiles file
                   (Js.drop 3 (open +:+ "![[" +:+ inner))
             +:+ convertImageEmbeds charMapExt cwd imageFiles post file
  end.
Proof.
  intros Hne Hnc. unfold convertImageEmbeds.
  pose proof (replaceAll_scan imageEmbedRegex
                (imageEmbedReplacement charMapExt cwd imageFiles file)
                ("![[" +:+ inner +:+ "]]" +:+ post)
                imageEmbedRegex_prefixDetermined pre false 0 ltac:(lia)) as H.
  destruct (openMatch imageEmbedRegex false 0 pre _) as [open|] eqn:Eopen.
  - destruct H as (before & g & n & -> & _ & Hm & Hlen & ->).
    exists before. split; [reflexivity |]. f_equal.
    assert (Hopen : open <> "") by (intros ->; now apply openMatch_nonempty in Eopen).
    destruct (imageEmbedRegex_crossing _ _ _ _ _ _ Hnc Hopen Hm Hlen) as [-> ->].
    assert (Ea : open +:+ "![[" +:+ inner +:+ "]]" +:+ post
                 = (open +:+ "![[" +:+ inner +:+ "]]") +:+ post)
      by now rewrite !append_assoc.
    rewrite Ea in Hm |- *. rewrite (replaceAll_match _ _ _ post _ _ Hm).
    + now rewrite (closing_assoc open "![[" inner), bangAfter_closing.
    + destruct open; [contradiction | discriminate].
  - rewrite H. f_equal.
    rewrite marker_assoc, (replaceAll_match _ _ _ post inner), marker_bang;
      [reflexivity | |].
    + rewrite <- marker_assoc.
      change ("![[" +:+ inner +:+ "]]" +:+ post)
        with (String "!" ("[[" +:+ inner +:+ "]]" +:+ post)).
      cbn [imageEmbedRegex Ascii.eqb Bool.eqb].
      rewrite bracketMatch_marker by assumption.
      do 2 f_equal. rewrite !length_append. simpl. lia.
    + discriminate.
Qed.

(** What the callback of [convertWikiLinks] looks up and shows, for an
    inner text that splits at the bars into [target] and [labels]. *)
Lemma reference_parts (inner target : string) (labels : list string) :
  Js.split "|" inner = target :: labels ->
  linkOf inner = Js.trim target /\ displayTextOf inner = shownText target labels.
Proof.
  intros E. unfold displayTextOf, linkOf, shownText. rewrite E. cbn [hd].
  destruct labels as [|label rest]; [now split |]. now split.
Qed.


End LinkRewriting.

Section ReferenceRoundTrip.

Variable charMapExt : ascii -> option string.
Variable cwd : list string.
Hypothesis cwd_clean : Forall (fun s => cleanSegment s = true) cwd.

(** C2 as amended. When the body of document [fileA] holds a reference
    marker at which the scan of the pattern arrives, not after an
    exclamation mark, and whose target resolves to a document [fileB],
    the marker is replaced by a link whose destination is a relative path
    which, resolved against the directory of [fileA]'s output path, is
    exactly [fileB]'s output path, whatever the folder depths.  A marker
    into which an earlier match runs is not rewritten on its own: that
    match ends with the marker and is rewritten as one reference. *)
Theorem wiki_link_roundtrip (files : list TFile.t) (fileA fileB : TFile.t)
    (pre inner post target : string) (labels : list string) :
  inner <> "" -> noCloseBracket inner = true ->
  Js.split "|" inner = target :: labels ->
  endsWithBang pre = false ->
  findTargetFile files (Js.trim target) = Some fileB ->
  match openMatch wikiLinkRegex false 0 pre ("[[" +:+ inner +:+ "]]" +:+ post) with
  | None =>
      exists relativePath,
        convertWikiLinks charMapExt cwd files
          (pre +:+ "[[" +:+ inner +:+ "]]" +:+ post) fileA
        = convertWikiLinks charMapExt cwd files pre fileA
          +:+ ("[" +:+ shownText target labels +:+ "](" +:+ relativePath +:+ ")")
          +:+ convertWikiLinks charMapExt cwd files post fileA
        /\ pathe.join [pathe.dirname (getOutputPath charMapExt (TFile.path fileA));
                       relativePath]
           = getOutputPath charMapExt (TFile.path fileB)
  | Some open =>
      exists before,
        pre = before +:+ open
        /\ convertWikiLinks charMapExt cwd files
             (pre +:+ "[[" +:+ inner +:+ "]]" +:+ post) fileA
           = convertWikiLinks charMapExt cwd files before fileA
             +:+ wikiLinkReplacement charMapExt cwd files fileA
                   (Js.drop 2 (open +:+ "[[" +:+ inner))
             +:+ convertWikiLinks charMapExt cwd files post fileA
  end.
Proof.
  intros Hne Hnc Hsplit Hbang Hfind.
  destruct (reference_parts _ _ _ Hsplit) as [Hlink Htext].
  pose proof (convertWikiLinks_marker_cases charMapExt cwd files fileA pre inner post
                Hne Hnc) as H.
  destruct (openMatch wikiLinkRegex false 0 pre _) as [open|]; [exact H |].
  exists (getRelativePath cwd (getOutputPath charMapExt (TFile.path fileA))
            (getOutputPath charMapExt (TFile.path fileB))).
  split.
  - rewrite (H Hbang). unfold wikiLinkReplacement. now rewrite Hlink, Htext, Hfind.
  - now apply getRelativePath_roundtrip.
Qed.

End ReferenceRoundTrip.

(** ** Sitemap *)

Section SitemapDefaults.

Variable isoDate : Z -> string.

(** C3. Without [priority] and [changefreq] in the front matter, the
    sitemap entry of a document has priority 1.0 and frequency [weekly]
    when its base name is [index] (in any letter case) and its path has
    one segment, priority 0.8 and [weekly] when it is an index deeper
    down, and priority 0.6 and [monthly] otherwise. *)
Theorem sitemap_defaults (file : TFile.t) (frontMatter : FrontMatter.t)
    (outputFilePath : string) :
  FrontMatter.priority frontMatter = None ->
  FrontMatter.changefreq frontMatter = None ->
  let entry := sitemapUrlOf isoDate file frontMatter outputFilePath in
  let baseName := pathe.basename (TFile.path file) ".md" in
  let depth := length (Js.split "/" (TFile.path file)) in
  if String.eqb (Js.toLowerCase baseName) "index" then
    SitemapUrl.changefreq entry = Some "weekly"
    /\ SitemapUrl.priority entry = Some (if Nat.eqb depth 1 then 1.0%Q else 0.8%Q)
  else
    SitemapUrl.changefreq entry = Some "monthly"
    /\ SitemapUrl.priority entry = Some 0.6%Q.
Proof.
  intros Hp Hc entry baseName depth. unfold entry, sitemapUrlOf.
  cbn [SitemapUrl.changefreq SitemapUrl.priority]. rewrite Hp, Hc.
  unfold getChangeFreq, getPriority. fold baseName. fold depth.
  destruct (String.eqb (Js.toLowerCase baseName) "index"); auto.
Qed.

End SitemapDefaults.

Lemma occursIn_here (sub a b : string) : occursIn sub (a +:+ sub +:+ b).
Proof. now exists a, b. Qed.

Lemma occursIn_app_l (sub s t : string) : occursIn sub s -> occursIn sub (s +:+ t).
Proof.
  intros (a & b & ->). exists a, (b +:+ t). now rewrite !append_assoc.
Qed.

Lemma occursIn_app_r (sub s t : string) : occursIn sub t -> occursIn sub (s +:+ t).
Proof.
  intros (a & b & ->). exists (s +:+ a), b. now rewrite !append_assoc.
Qed.

Lemma urls_fold (entries : list SitemapUrl.t) : forall g,
  SitemapGenerator.urls (fold_left SitemapGenerator.addUrl entries g)
  = SitemapGenerator.urls g ++ entries
  /\ SitemapGenerator.hostname (fold_left SitemapGenerator.addUrl entries g)
     = SitemapGenerator.hostname g.
Proof.
  induction entries as [|e entries IH]; intros g; simpl.
  - now rewrite app_nil_r.
  - destruct (IH (SitemapGenerator.addUrl g e)) as [-> ->]. simpl.
    now rewrite <- app_assoc.
Qed.

Lemma escapeXml_noRawMarkup (text : string) :
  noRawMarkup (SitemapGenerator.escapeXml text) = true.
Proof.
  unfold noRawMarkup, SitemapGenerator.escapeXml.
  induction text as [|c text IH]; [reflexivity |].
  cbn [Js.sbind]. rewrite sforall_append, IH, andb_true_r.
  destruct c as [[] [] [] [] [] [] [] []]; reflexivity.
Qed.

Lemma digitChar_isDigit (d : Z) :
  (0 <= d < 10)%Z -> Js.isDigit (SitemapGenerator.digitChar d) = true.
Proof.
  intros H.
  assert (d = 0 \/ d = 1 \/ d = 2 \/ d = 3 \/ d = 4 \/ d = 5 \/ d = 6 \/ d = 7
          \/ d = 8 \/ d = 9)%Z as Hd by lia.
  repeat destruct Hd as [-> | Hd]; try reflexivity. now subst.
Qed.

Lemma unescapeXml_escapeXml (text : string) :
  unescapeXml (SitemapGenerator.escapeXml text) = text.
Proof.
  unfold unescapeXml, SitemapGenerator.escapeXml.
  induction text as [|c text IH]; [reflexivity |].
  cbn [Js.sbind]. set (rest := Js.sbind SitemapGenerator.escapeChar text) in *.
  unfold SitemapGenerator.escapeChar.
  destruct (Ascii.eqb_spec c "&") as [-> | Hamp]; [cbn; now rewrite IH |].
  destruct (Ascii.eqb_spec c "<") as [-> | Hlt]; [cbn; now rewrite IH |].
  destruct (Ascii.eqb_spec c ">") as [-> | Hgt]; [cbn; now rewrite IH |].
  destruct (Ascii.eqb_spec c "034") as [-> | Hq]; [cbn; now rewrite IH |].
  destruct (Ascii.eqb_spec c "'") as [-> | Ha]; [cbn; now rewrite IH |].
  cbn [String.append readXml Js.startsWith].
  assert (E : Ascii.eqb "&" c = false) by (apply Ascii.eqb_neq; congruence).
  rewrite E. cbn [andb]. now rewrite IH.
Qed.

Lemma numeralFrom_append (a b : string) : forall acc,
  numeralFrom acc (a +:+ b) = numeralFrom (numeralFrom acc a) b.
Proof. induction a as [|c a IH]; intros acc; [reflexivity | apply IH]. Qed.

Lemma digitChar_value (d : Z) :
  (0 <= d < 10)%Z -> (Z.of_N (Js.code (SitemapGenerator.digitChar d)) - 48 = d)%Z.
Proof.
  intros H.
  assert (d = 0 \/ d = 1 \/ d = 2 \/ d = 3 \/ d = 4 \/ d = 5 \/ d = 6 \/ d = 7
          \/ d = 8 \/ d = 9)%Z as Hd by lia.
  repeat destruct Hd as [-> | Hd]; try reflexivity. now subst.
Qed.

(** [digitsOf] writes the digits of [n] in front of [acc]: they stand
    for [n], and only the numeral of zero begins with a zero. *)
Lemma digitsOf_numeral (fuel : nat) : forall n acc,
  (0 <= n)%Z -> (Z.log2 n <= Z.of_nat fuel)%Z ->
  exists ds,
    SitemapGenerator.digitsOf fuel n acc = ds +:+ acc
    /\ numeral ds = n
    /\ ds <> ""
    /\ Js.sforall Js.isDigit ds = true
    /\ (ds = "0" \/ Js.startsWith ds "0" = false).
Proof.
  induction fuel as [|fuel IH]; intros n acc Hn Hlog.
  - assert (n < 2)%Z as Hsmall.
    { destruct (Z.eq_dec n 0%Z) as [-> | Hnz]; [lia |].
      assert (0 < n)%Z by lia.
      pose proof (Z.log2_nonneg n). assert (Z.log2 n = 0)%Z as E by lia.
      pose proof (proj2 (Z.log2_spec n H)) as Hs. rewrite E in Hs. simpl in Hs. lia. }
    cbn [SitemapGenerator.digitsOf].
    exists (String (SitemapGenerator.digitChar (n mod 10)) "").
    assert (n = 0 \/ n = 1)%Z as [-> | ->] by lia; repeat split; auto.
  - cbn [SitemapGenerator.digitsOf].
    destruct (Z.ltb_spec n 10%Z) as [Hlt | Hge].
    + exists (String (SitemapGenerator.digitChar (n mod 10)) "").
      rewrite Z.mod_small by lia.
      split; [reflexivity |]. split.
      { unfold numeral. cbn [numeralFrom]. rewrite digitChar_value by lia. lia. }
      split; [discriminate |]. split.
      { cbn [Js.sforall]. rewrite digitChar_isDigit by lia. reflexivity. }
      destruct (Z.eq_dec n 0%Z) as [-> | Hnz]; [left; reflexivity | right].
      cbn [Js.startsWith]. rewrite andb_true_r. apply Ascii.eqb_neq. intros E.
      pose proof (digitChar_value n ltac:(lia)) as V. rewrite <- E in V.
      simpl in V. lia.
    + assert (Hq : (1 <= n / 10)%Z) by (apply Z.div_le_lower_bound; lia).
      assert (Hlog' : (Z.log2 (n / 10) <= Z.of_nat fuel)%Z).
      { assert (n / 10 <= n / 2)%Z.
        { apply Z.div_le_lower_bound; [lia |].
          pose proof (Z.mul_div_le n 10%Z ltac:(lia)). lia. }
        pose proof (Z.log2_le_mono _ _ H) as Hm.
        rewrite Z.div2_div in Hm || idtac.
        assert (Z.log2 (n / 2) = Z.log2 n - 1)%Z.
        { rewrite <- Z.div2_div, Z.div2_spec, Z.log2_shiftr by lia.
          rewrite Z.max_r; [reflexivity |].
          assert (1 <= Z.log2 n)%Z; [|lia].
          apply Z.log2_le_pow2; simpl; lia. }
        lia. }
      destruct (IH (n / 10)%Z (String (SitemapGenerator.digitChar (n mod 10)) acc)
                  ltac:(lia) Hlog') as (ds & E & Hv & Hne & Hdig & Hlead).
      exists (ds +:+ String (SitemapGenerator.digitChar (n mod 10)) "").
      split; [rewrite E; now rewrite append_assoc |]. split.
      { unfold numeral in *. rewrite numeralFrom_append, Hv. cbn [numeralFrom].
        rewrite digitChar_value by (apply Z.mod_pos_bound; lia).
        pose proof (Z.div_mod n 10%Z ltac:(lia)). lia. }
      split; [destruct ds; [contradiction | discriminate] |]. split.
      { rewrite sforall_append, Hdig. cbn [Js.sforall].
        rewrite digitChar_isDigit by (apply Z.mod_pos_bound; lia). reflexivity. }
      right. destruct Hlead as [-> | Hlead].
      * unfold numeral in Hv. simpl in Hv. lia.
      * destruct ds as [|c ds]; [contradiction |]. exact Hlead.
Qed.

Lemma decimal_numeral (n : Z) :
  (0 <= n)%Z ->
  numeral (SitemapGenerator.decimal n) = n
  /\ SitemapGenerator.decimal n <> ""
  /\ Js.sforall Js.isDigit (SitemapGenerator.decimal n) = true
  /\ (SitemapGenerator.decimal n = "0"
      \/ Js.startsWith (SitemapGenerator.decimal n) "0" = false).
Proof.
  intros Hn. unfold SitemapGenerator.decimal.
  destruct (digitsOf_numeral (Z.to_nat (Z.log2 n)) n "" Hn) as (ds & E & H).
  { rewrite Z2Nat.id; [lia | apply Z.log2_nonneg]. }
  rewrite E, append_nil_r. exact H.
Qed.

(** [roundTenths x] is the integer nearest to [10 x], the larger one of
    two. *)
Lemma roundTenths_nearest (x : Q) :
  (0 <= x)%Q ->
  (0 <= SitemapGenerator.roundTenths x)%Z
  /\ (inject_Z (SitemapGenerator.roundTenths x) - (1 # 2) <= 10 * x)%Q
  /\ (10 * x < inject_Z (SitemapGenerator.roundTenths x) + (1 # 2))%Q.
Proof.
  destruct x as [num den]. unfold Qle, SitemapGenerator.roundTenths. cbn [Qnum Qden].
  intros Hx. rewrite Z.mul_1_r in Hx. simpl in Hx.
  set (N := (20 * num + Z.pos den)%Z). set (D := (2 * Z.pos den)%Z).
  assert (HD : (0 < D)%Z) by (unfold D; lia).
  pose proof (Z.mul_div_le N D HD) as Hlo.
  pose proof (Z.mul_succ_div_gt N D HD) as Hhi.
  assert (H0 : (0 <= N / D)%Z) by (apply Z.div_pos; unfold N; lia).
  split; [exact H0 |].
  unfold Qlt, Qle, Qminus, Qplus, Qopp, Qmult, inject_Z. cbn [Qnum Qden].
  unfold N, D in *. split; nia.
Qed.

Section SitemapSerialization.

Variable numberToString : Q -> string.

Local Abbreviation entryOf := (SitemapGenerator.generateUrlEntry numberToString).

(** [toFixed(1)] below 10^21: the sign, then the numeral of the integer
    nearest to ten times the absolute value, with a point before its last
    digit. *)
Lemma toFixed1_format (p : Q) :
  Qle_bool (10 ^ 21) (Qabs p) = false ->
  exists digits d,
    SitemapGenerator.toFixed1 numberToString p
    = (if Qlt_le_dec p 0 then "-" else "") +:+ digits +:+ "." +:+ String d ""
    /\ digits <> "" /\ Js.sforall Js.isDigit digits = true
    /\ (digits = "0" \/ Js.startsWith digits "0" = false)
    /\ Js.isDigit d = true
    /\ (inject_Z (numeral (digits +:+ String d "")) - (1 # 2) <= 10 * Qabs p)%Q
    /\ (10 * Qabs p < inject_Z (numeral (digits +:+ String d "")) + (1 # 2))%Q.
Proof.
  intros Hsmall. unfold SitemapGenerator.toFixed1. rewrite Hsmall.
  destruct (roundTenths_nearest (Qabs p) (Qabs_nonneg p)) as (Hn & Hlo & Hhi).
  set (n := SitemapGenerator.roundTenths (Qabs p)) in *.
  assert (Hq : (0 <= n / 10)%Z) by (apply Z.div_pos; lia).
  assert (Hm : (0 <= n mod 10 < 10)%Z) by (apply Z.mod_pos_bound; lia).
  destruct (decimal_numeral (n / 10) Hq) as (Hv & Hne & Hdig & Hlead).
  assert (E : numeral (SitemapGenerator.decimal (n / 10)
                       +:+ String (SitemapGenerator.digitChar (n mod 10)) "") = n).
  { unfold numeral in *. rewrite numeralFrom_append, Hv. cbn [numeralFrom].
    rewrite digitChar_value by exact Hm.
    pose proof (Z.div_mod n 10%Z ltac:(lia)). lia. }
  exists (SitemapGenerator.decimal (n / 10)), (SitemapGenerator.digitChar (n mod 10)).
  rewrite E.
  split; [reflexivity |]. split; [exact Hne |]. split; [exact Hdig |].
  split; [exact Hlead |]. split; [now apply digitChar_isDigit |].
  split; assumption.
Qed.

(** The four elements of an entry: the location is escaped, the other
    three texts are emitted as they are. *)
Lemma generateUrlEntry_parts (g : SitemapGenerator.t) (url : SitemapUrl.t) :
  (exists rest,
     entryOf g url
     = "  <url>" +:+ Js.nl +:+ "    <loc>"
       +:+ SitemapGenerator.escapeXml
             (SitemapGenerator.hostname g
              +:+ (if Js.startsWith (SitemapUrl.loc url) "/" then "" else "/")
              +:+ SitemapUrl.loc url)
       +:+ "</loc>" +:+ rest)
  /\ (forall l, SitemapUrl.lastmod url = Some l -> l <> "" ->
        occursIn ("<lastmod>" +:+ l +:+ "</lastmod>") (entryOf g url))
  /\ (forall c, SitemapUrl.changefreq url = Some c -> c <> "" ->
        occursIn ("<changefreq>" +:+ c +:+ "</changefreq>") (entryOf g url))
  /\ (forall p, SitemapUrl.priority url = Some p ->
        occursIn ("<priority>" +:+ SitemapGenerator.toFixed1 numberToString p
                  +:+ "</priority>") (entryOf g url)).
Proof.
  unfold SitemapGenerator.generateUrlEntry.
  set (e0 := "  <url>" +:+ Js.nl +:+ "    <loc>" +:+ _ +:+ "</loc>").
  set (e1 := match SitemapUrl.lastmod url with Some _ => _ | None => _ end).
  set (e2 := match SitemapUrl.changefreq url with Some _ => _ | None => _ end).
  set (e3 := match SitemapUrl.priority url with Some _ => _ | None => _ end).
  assert (H1 : exists r, e1 = e0 +:+ r).
  { unfold e1. destruct (SitemapUrl.lastmod url) as [l|];
      [destruct (String.eqb l "")|]; eauto using append_assoc, append_nil_r.
    all: exists ""; now rewrite append_nil_r. }
  assert (H2 : forall sub, occursIn sub e1 -> occursIn sub e2).
  { intros sub H. unfold e2. destruct (SitemapUrl.changefreq url) as [c|];
      [destruct (String.eqb c "")|]; auto using occursIn_app_l. }
  assert (H3 : forall sub, occursIn sub e2 -> occursIn sub e3).
  { intros sub H. unfold e3. destruct (SitemapUrl.priority url) as [p|];
      auto using occursIn_app_l. }
  split; [|split; [|split]].
  - destruct H1 as [r1 E1].
    assert (exists r, e2 = e0 +:+ r) as [r2 E2].
    { unfold e2. destruct (SitemapUrl.changefreq url) as [c|];
        [destruct (String.eqb c "")|]; rewrite E1;
        eauto using append_assoc. }
    assert (exists r, e3 = e0 +:+ r) as [r3 E3].
    { unfold e3. destruct (SitemapUrl.priority url) as [p|]; rewrite E2;
        eauto using append_assoc. }
    exists (r3 +:+ Js.nl +:+ "  </url>"). rewrite E3. unfold e0.
    now rewrite !append_assoc.
  - intros l Hl Hne. apply occursIn_app_l, H3, H2. unfold e1. rewrite Hl.
    apply String.eqb_neq in Hne. rewrite Hne.
    exists (e0 +:+ Js.nl +:+ "    "), "". now rewrite !append_assoc.
  - intros c Hc Hne. apply occursIn_app_l, H3. unfold e2. rewrite Hc.
    apply String.eqb_neq in Hne. rewrite Hne.
    exists (e1 +:+ Js.nl +:+ "    "), "". now rewrite !append_assoc.
  - intros p Hp. apply occursIn_app_l. unfold e3. rewrite Hp.
    exists (e2 +:+ Js.nl +:+ "    "), "". now rewrite !append_assoc.
Qed.

(** C8 as amended. [toXml] serializes the accumulated entries in
    accumulation order.  The location of an entry is the site URL
    (without its trailing slash) before the entry's path, written so
    that no markup character is left in it and an XML reader gets the
    address back.  A priority below 10^21 in absolute value is written
    with one decimal: the sign, then the tenths nearest to the value, the
    larger ones of two; from 10^21 on it is written as the number is
    printed otherwise.  [lastmod] and [changefreq] are written as they
    are, without escaping. *)
Theorem toXml_serialization (host : string) (entries : list SitemapUrl.t) :
  let g := fold_left SitemapGenerator.addUrl entries (SitemapGenerator.new host) in
  SitemapGenerator.toXml numberToString g
  = SitemapGenerator.xmlHeader +:+ Js.nl +:+ SitemapGenerator.urlsetOpen +:+ Js.nl
    +:+ Js.join Js.nl (map (entryOf g) entries)
    +:+ Js.nl +:+ "</urlset>"
  /\ forall url,
       let address :=
         pathe.stripTrailingSlash host
         +:+ (if Js.startsWith (SitemapUrl.loc url) "/" then "" else "/")
         +:+ SitemapUrl.loc url in
       (exists locText rest,
          entryOf g url
          = "  <url>" +:+ Js.nl +:+ "    <loc>" +:+ locText +:+ "</loc>" +:+ rest
          /\ noRawMarkup locText = true
          /\ unescapeXml locText = address)
       /\ (forall l, SitemapUrl.lastmod url = Some l -> l <> "" ->
             occursIn ("<lastmod>" +:+ l +:+ "</lastmod>") (entryOf g url))
       /\ (forall c, SitemapUrl.changefreq url = Some c -> c <> "" ->
             occursIn ("<changefreq>" +:+ c +:+ "</changefreq>") (entryOf g url))
       /\ (forall p, SitemapUrl.priority url = Some p ->
             let sign := if Qlt_le_dec p 0 then "-" else "" in
             if Qle_bool (10 ^ 21) (Qabs p) then
               occursIn ("<priority>" +:+ (sign +:+ numberToString (Qabs p))
                         +:+ "</priority>") (entryOf g url)
             else
               exists digits d,
                 occursIn ("<priority>" +:+ (sign +:+ digits +:+ "." +:+ String d "")
                           +:+ "</priority>") (entryOf g url)
                 /\ digits <> "" /\ Js.sforall Js.isDigit digits = true
                 /\ (digits = "0" \/ Js.startsWith digits "0" = false)
                 /\ Js.isDigit d = true
                 /\ (inject_Z (numeral (digits +:+ String d "")) - (1 # 2)
                     <= 10 * Qabs p)%Q
                 /\ (10 * Qabs p
                     < inject_Z (numeral (digits +:+ String d "")) + (1 # 2))%Q).
Proof.
  intros g.
  destruct (urls_fold entries (SitemapGenerator.new host)) as [Hu Hh].
  fold g in Hu, Hh. simpl in Hu, Hh. split.
  - unfold SitemapGenerator.toXml. now rewrite Hu.
  - intros url address.
    destruct (generateUrlEntry_parts g url) as (Hloc & Hlm & Hcf & Hpr).
    rewrite Hh in Hloc. fold address in Hloc. destruct Hloc as [rest Hloc].
    split.
    { exists (SitemapGenerator.escapeXml address), rest.
      split; [exact Hloc |].
      split; [apply escapeXml_noRawMarkup | apply unescapeXml_escapeXml]. }
    split; [exact Hlm |]. split; [exact Hcf |].
    intros p Hp sign. subst sign. specialize (Hpr p Hp).
    destruct (Qle_bool (10 ^ 21) (Qabs p)) eqn:Hsize.
    + unfold SitemapGenerator.toFixed1 in Hpr. rewrite Hsize in Hpr. exact Hpr.
    + destruct (toFixed1_format p Hsize) as (digits & d & E & Hrest).
      exists digits, d. split; [|exact Hrest].
      rewrite <- E. exact Hpr.
Qed.

End SitemapSerialization.

(** ** Directory removal *)

Section RemoveDirectoryProperties.

Variable World : Type.
Variable Error : Type.
Variable dataAdapter : DataAdapter World Error.

Local Abbreviation Async' := (Async World Error).

Lemma extendsLog_ret (A : Type) (a : A) : extendsLog (ret a : Async' A).
Proof. intros s r s' [= <- <-]. exists []. now rewrite app_nil_r. Qed.

Lemma extendsLog_throw (A : Type) (e : Error) : extendsLog (throw e : Async' A).
Proof. intros s r s' [= <- <-]. exists []. now rewrite app_nil_r. Qed.

Lemma extendsLog_call (A : Type) (c : AdapterCall) (op : World -> Outcome Error A * World) :
  extendsLog (call c op).
Proof.
  intros s r s'. unfold call. destruct (op (fst s)) as [r0 w].
  intros [= <- <-]. now exists [c].
Qed.

Lemma extendsLog_bind (A B : Type) (m : Async' A) (k : A -> Async' B) :
  extendsLog m -> (forall a, extendsLog (k a)) -> extendsLog (bind m k).
Proof.
  intros Hm Hk s r s'. unfold bind.
  destruct (m s) as [[[a | e] s1]|] eqn:E; [| |discriminate].
  - intros H. destruct (Hm _ _ _ E) as [l1 E1], (Hk a _ _ _ H) as [l2 E2].
    exists (l1 ++ l2). now rewrite E2, E1, app_assoc.
  - intros [= <- <-]. exact (Hm _ _ _ E).
Qed.

Lemma extendsLog_tryCatch (A : Type) (m : Async' A) (h : Error -> Async' A) :
  extendsLog m -> (forall e, extendsLog (h e)) -> extendsLog (tryCatch m h).
Proof.
  intros Hm Hh s r s'. unfold tryCatch.
  destruct (m s) as [[[a | e] s1]|] eqn:E; [| |discriminate].
  - intros [= <- <-]. exact (Hm _ _ _ E).
  - intros H. destruct (Hm _ _ _ E) as [l1 E1], (Hh e _ _ _ H) as [l2 E2].
    exists (l1 ++ l2). now rewrite E2, E1, app_assoc.
Qed.

Lemma extendsLog_forEach (A : Type) (xs : list A) (body : A -> Async' unit) :
  (forall x, extendsLog (body x)) -> extendsLog (forEach xs body).
Proof.
  intros Hb. induction xs as [|x xs IH]; cbn [forEach].
  - apply extendsLog_ret.
  - apply extendsLog_bind; auto.
Qed.

Lemma extendsLog_remove (fuel : nat) : forall dirPath,
  extendsLog (removeDirectoryRecursive dataAdapter fuel dirPath).
Proof.
  induction fuel as [|fuel IH]; intros dirPath; cbn [removeDirectoryRecursive].
  - intros s r s'. discriminate.
  - apply extendsLog_bind; [apply extendsLog_call |]. intros ex.
    destruct (negb ex); [apply extendsLog_ret |].
    apply extendsLog_tryCatch.
    + unfold structuredDelete.
      apply extendsLog_bind; [apply extendsLog_call | intros items].
      apply extendsLog_bind;
        [apply extendsLog_forEach; intros; apply extendsLog_call | intros _].
      apply extendsLog_bind; [apply extendsLog_forEach; intros; apply IH | intros _].
      apply extendsLog_call.
    + intros e. unfold fallbackRemove. apply extendsLog_tryCatch.
      * apply extendsLog_call.
      * intros ?. apply extendsLog_throw.
Qed.

(** More recursion budget does not change a result. *)
Lemma bind_mono (A B : Type) (m m' : Async' A) (k k' : A -> Async' B) :
  (forall s r, m s = Some r -> m' s = Some r) ->
  (forall a s r, k a s = Some r -> k' a s = Some r) ->
  forall s r, bind m k s = Some r -> bind m' k' s = Some r.
Proof.
  intros Hm Hk s r. unfold bind.
  destruct (m s) as [[[a | e] s1]|] eqn:E; [| |discriminate];
    rewrite (Hm _ _ E); auto.
Qed.

Lemma tryCatch_mono (A : Type) (m m' : Async' A) (h : Error -> Async' A) :
  (forall s r, m s = Some r -> m' s = Some r) ->
  forall s r, tryCatch m h s = Some r -> tryCatch m' h s = Some r.
Proof.
  intros Hm s r. unfold tryCatch.
  destruct (m s) as [[[a | e] s1]|] eqn:E; [| |discriminate];
    rewrite (Hm _ _ E); auto.
Qed.

Lemma forEach_mono (A : Type) (xs : list A) (f g : A -> Async' unit) :
  (forall x s r, f x s = Some r -> g x s = Some r) ->
  forall s r, forEach xs f s = Some r -> forEach xs g s = Some r.
Proof.
  intros Hfg. induction xs as [|x xs IH]; intros s r; cbn [forEach]; [auto |].
  apply bind_mono; auto.
Qed.

Lemma removeDirectoryRecursive_mono (fuel : nat) : forall dirPath s r,
  removeDirectoryRecursive dataAdapter fuel dirPath s = Some r ->
  removeDirectoryRecursive dataAdapter (S fuel) dirPath s = Some r.
Proof.
  induction fuel as [|fuel IH]; intros dirPath s r; [discriminate |].
  change (removeDirectoryRecursive dataAdapter (S (S fuel)) dirPath)
    with (bind (callExists dataAdapter dirPath) (fun exists_ =>
          if negb exists_ then ret tt
          else tryCatch (structuredDelete dataAdapter
                           (removeDirectoryRecursive dataAdapter (S fuel)) dirPath)
                        (fallbackRemove dataAdapter dirPath))).
  cbn [removeDirectoryRecursive].
  apply bind_mono; [auto |]. intros ex s1 r1.
  destruct (negb ex); [auto |].
  apply tryCatch_mono. unfold structuredDelete.
  apply bind_mono; [auto |]. intros items.
  apply bind_mono; [auto |]. intros _.
  apply bind_mono; [|auto]. apply forEach_mono. exact IH.
Qed.

Lemma forEach_RunsInOrder (A : Type) (step : A -> Async' unit) (xs : list A) :
  forall s, RunsInOrder step xs s (forEach xs step s).
Proof.
  induction xs as [|x xs IH]; intros s; cbn [forEach]; [constructor |].
  unfold bind. destruct (step x s) as [[[[] | e] s']|] eqn:E.
  - eapply RunsInOrder_next; [exact E | apply IH].
  - now apply RunsInOrder_thrown.
  - now apply RunsInOrder_unfinished.
Qed.

Lemma forEach_total (A : Type) (step : A -> Async' unit) (xs : list A) :
  (forall x s, step x s <> None) -> forall s, forEach xs step s <> None.
Proof.
  intros Hstep. induction xs as [|x xs IH]; intros s; cbn [forEach]; [discriminate |].
  unfold bind. destruct (step x s) as [[[[] | e] s']|] eqn:E;
    [apply IH | discriminate | now apply Hstep in E].
Qed.

(** C9. Removal of a directory: when the directory does not exist,
    nothing but the existence check happens and the operation succeeds.
    Otherwise the structured delete is attempted: the children are
    listed, each file is removed in turn, the removal is run on each
    folder in turn, and the folder itself is removed, not recursively.
    As soon as one of these steps throws, exactly one removal of the path
    itself follows and nothing else; when that succeeds the operation
    succeeds, and when it throws as well, the error of the failed step is
    thrown, not the second error. *)
Theorem removeDirectoryRecursive_fallback (fuel : nat) (dirPath : string)
    (w : World) (log : list AdapterCall) :
  let run := removeDirectoryRecursive dataAdapter (S fuel) dirPath (w, log) in
  let started := log ++ [CallExists dirPath] in
  let fallback (error : Error) (s : AdapterState World) :=
    match adapter_remove dataAdapter dirPath (fst s) with
    | (Returned _, w') => Some (Returned tt, (w', snd s ++ [CallRemove dirPath]))
    | (Thrown _, w') => Some (Thrown error, (w', snd s ++ [CallRemove dirPath]))
    end in
  let removeFile (file : string) (s : AdapterState World) :=
    let '(r, w') := adapter_remove dataAdapter file (fst s) in
    Some (r, (w', snd s ++ [CallRemove file])) in
  match adapter_exists dataAdapter dirPath w with
  | (Returned false, w1) => run = Some (Returned tt, (w1, started))
  | (Thrown e, w1) => run = Some (Thrown e, (w1, started))
  | (Returned true, w1) =>
      match adapter_list dataAdapter dirPath w1 with
      | (Thrown error, w2) => run = fallback error (w2, started ++ [CallList dirPath])
      | (Returned items, w2) =>
          exists afterFiles,
            RunsInOrder removeFile (files items)
              (w2, started ++ [CallList dirPath]) afterFiles
            /\ match afterFiles with
               | None => False
               | Some (Thrown error, s) => run = fallback error s
               | Some (Returned _, s) =>
                   exists afterFolders,
                     RunsInOrder (removeDirectoryRecursive dataAdapter fuel)
                       (folders items) s afterFolders
                     /\ match afterFolders with
                        | None => run = None
                        | Some (Thrown error, s') => run = fallback error s'
                        | Some (Returned _, s') =>
                            match adapter_rmdir dataAdapter dirPath false (fst s') with
                            | (Returned _, w4) =>
                                run = Some (Returned tt,
                                            (w4, snd s' ++ [CallRmdir dirPath false]))
                            | (Thrown error, w4) =>
                                run = fallback error
                                        (w4, snd s' ++ [CallRmdir dirPath false])
                            end
                        end
               end
      end
  end.
Proof.
  intros run started fallback removeFile.
  assert (Hfallback : forall error s,
            fallbackRemove dataAdapter dirPath error s = fallback error s).
  { intros error s. unfold fallbackRemove, tryCatch, callRemove, call, fallback.
    now destruct (adapter_remove dataAdapter dirPath (fst s)) as [[[] | e2] w3]. }
  assert (Hrun : run =
    match adapter_exists dataAdapter dirPath w with
    | (Returned true, w1) =>
        tryCatch (structuredDelete dataAdapter
                    (removeDirectoryRecursive dataAdapter fuel) dirPath)
                 (fallbackRemove dataAdapter dirPath) (w1, started)
    | (Returned false, w1) => Some (Returned tt, (w1, started))
    | (Thrown e, w1) => Some (Thrown e, (w1, started))
    end).
  { unfold run. cbn [removeDirectoryRecursive]. unfold bind at 1, callExists, call.
    cbn [fst snd]. fold started.
    now destruct (adapter_exists dataAdapter dirPath w) as [[[|] | e] w1]. }
  clearbody run. subst run.
  destruct (adapter_exists dataAdapter dirPath w) as [[[|] | e] w1];
    try reflexivity.
  assert (Hattempt :
    structuredDelete dataAdapter (removeDirectoryRecursive dataAdapter fuel) dirPath
      (w1, started)
    = match adapter_list dataAdapter dirPath w1 with
      | (Thrown error, w2) => Some (Thrown error, (w2, started ++ [CallList dirPath]))
      | (Returned items, w2) =>
          match forEach (files items) (callRemove dataAdapter)
                  (w2, started ++ [CallList dirPath]) with
          | None => None
          | Some (Thrown error, s) => Some (Thrown error, s)
          | Some (Returned _, s) =>
              match forEach (folders items)
                      (removeDirectoryRecursive dataAdapter fuel) s with
              | None => None
              | Some (Thrown error, s') => Some (Thrown error, s')
              | Some (Returned _, s') => callRmdir dataAdapter dirPath false s'
              end
          end
      end).
  { unfold structuredDelete, bind, callList, call. cbn [fst snd].
    destruct (adapter_list dataAdapter dirPath w1) as [[items | error] w2];
      [|reflexivity].
    destruct (forEach (files items) _ _) as [[[[] | error] s]|]; try reflexivity. }
  unfold tryCatch. rewrite Hattempt. clear Hattempt.
  destruct (adapter_list dataAdapter dirPath w1) as [[items | error] w2];
    [|apply Hfallback].
  exists (forEach (files items) (callRemove dataAdapter)
            (w2, started ++ [CallList dirPath])).
  split; [exact (forEach_RunsInOrder _ _ _ _) |].
  destruct (forEach (files items) _ _) as [[[[] | error] s]|] eqn:Efiles;
    [| apply Hfallback | ].
  2:{ apply (forEach_total _ (callRemove dataAdapter) (files items)) in Efiles;
        [exact Efiles |].
      intros x s. unfold callRemove, call.
      now destruct (adapter_remove dataAdapter x (fst s)). }
  exists (forEach (folders items) (removeDirectoryRecursive dataAdapter fuel) s).
  split; [apply forEach_RunsInOrder |].
  destruct (forEach (folders items) _ s) as [[[[] | error] s']|];
    [| apply Hfallback | reflexivity].
  unfold callRmdir, call.
  destruct (adapter_rmdir dataAdapter dirPath false (fst s')) as [[[] | error] w4];
    [reflexivity | apply Hfallback].
Qed.

End RemoveDirectoryProperties.

(** ** The navigation tree *)

Lemma flat_map_ext_in {A B : Type} (f g : A -> list B) (l : list A) :
  (forall a, In a l -> f a = g a) -> flat_map f l = flat_map g l.
Proof.
  induction l as [|a l IH]; intros H; [reflexivity |]. simpl.
  rewrite (H a) by now left. rewrite IH; [reflexivity |].
  intros b Hb. apply H. now right.
Qed.

Lemma chainsOf_app (key : string) (a b : list (list string * NodeRef)) :
  chainsOf key (a ++ b) = chainsOf key a ++ chainsOf key b.
Proof. apply omap_app. Qed.

Lemma locateRefs_fresh (m : gmap string DirNode.t) (k : string) (node : DirNode.t) :
  m !! k = None ->
  (forall q e, m !! q = Some e ->
     forall c, In (DirRef c) (DirNode.children e) -> is_Some (m !! c)) ->
  forall fuel above ref,
    (forall q, ref = DirRef q -> is_Some (m !! q)) ->
    locateRefs fuel (<[k := node]> m) above ref = locateRefs fuel m above ref.
Proof.
  intros Hk Hclosed. induction fuel as [|fuel IH]; intros above ref Href;
    destruct ref as [q | page]; cbn [locateRefs]; try reflexivity.
  - destruct (Href q eq_refl) as [e He].
    rewrite lookup_insert_ne by congruence. now rewrite He.
  - destruct (Href q eq_refl) as [e He].
    rewrite lookup_insert_ne by congruence. rewrite He. f_equal.
    apply flat_map_ext_in. intros c Hc. apply IH.
    intros q' ->. eapply Hclosed; eauto.
Qed.

Lemma locateRefs_setIndex (m : gmap string DirNode.t) (p o : string) (e : DirNode.t) :
  m !! p = Some e ->
  forall fuel above ref,
    locateRefs fuel (<[p := setIndexPage o e]> m) above ref
    = locateRefs fuel m above ref.
Proof.
  intros Hp. induction fuel as [|fuel IH]; intros above ref;
    destruct ref as [q | page]; cbn [locateRefs]; try reflexivity.
  - destruct (decide (p = q)) as [<- | Hne].
    + now rewrite lookup_insert_eq, Hp.
    + now rewrite lookup_insert_ne.
  - destruct (decide (p = q)) as [<- | Hne].
    + rewrite lookup_insert_eq, Hp. cbn. f_equal. apply flat_map_ext_in. auto.
    + rewrite lookup_insert_ne by assumption.
      destruct (m !! q); [|reflexivity]. f_equal. apply flat_map_ext_in. auto.
Qed.

(** Summing over an array what holds of each element. *)
Lemma flat_map_pushed (p : string) (x : NodeRef)
    (F G : NodeRef -> list (list string * NodeRef)) (l : list NodeRef) :
  (forall c, In c l ->
     Permutation (F c)
       (G c ++ map (fun ch => (ch ++ [p], x)) (chainsOf p (G c)))) ->
  Permutation (flat_map F l)
    (flat_map G l ++ map (fun ch => (ch ++ [p], x)) (chainsOf p (flat_map G l))).
Proof.
  induction l as [|c l IH]; intros H; [reflexivity |]. cbn [flat_map].
  rewrite (H c) by now left. rewrite IH by (intros; apply H; now right).
  rewrite chainsOf_app, map_app.
  rewrite <- !app_assoc. apply Permutation_app_head.
  rewrite !app_assoc. apply Permutation_app_tail. apply Permutation_app_comm.
Qed.

Lemma chainsOf_cons_dir (key q : string) (above : list string)
    (l : list (list string * NodeRef)) :
  chainsOf key ((above, DirRef q) :: l)
  = (if String.eqb q key then [above] else []) ++ chainsOf key l.
Proof. unfold chainsOf. cbn. now destruct (String.eqb q key). Qed.

Lemma locateRefs_push (L : nat) (m : gmap string DirNode.t) (p : string)
    (e : DirNode.t) (x : NodeRef) :
  (forall k node, m !! k = Some node ->
     String.length k <= L
     /\ forall c, In (DirRef c) (DirNode.children node) ->
          String.length k < String.length c /\ is_Some (m !! c)) ->
  m !! p = Some e -> DirNode.path e = p ->
  (forall fuel above,
     locateRefs fuel (<[p := pushChild x e]> m) above x = [(above, x)]) ->
  forall fuel above ref,
    (forall q, ref = DirRef q -> is_Some (m !! q) -> L < fuel + String.length q) ->
    Permutation
      (locateRefs fuel (<[p := pushChild x e]> m) above ref)
      (locateRefs fuel m above ref
       ++ map (fun ch => (ch ++ [p], x)) (chainsOf p (locateRefs fuel m above ref))).
Proof.
  intros Hbound Hp Hpath Hx.
  assert (Hnone : forall fuel above q, m !! q = None ->
    Permutation
      (locateRefs fuel (<[p := pushChild x e]> m) above (DirRef q))
      (locateRefs fuel m above (DirRef q)
       ++ map (fun ch => (ch ++ [p], x))
            (chainsOf p (locateRefs fuel m above (DirRef q))))).
  { intros fuel above q Eq.
    assert (Hne : p <> q) by congruence.
    destruct fuel; cbn [locateRefs]; rewrite lookup_insert_ne, Eq by assumption;
      rewrite chainsOf_cons_dir;
      (destruct (String.eqb_spec q p) as [-> | _]; [contradiction | reflexivity]). }
  induction fuel as [|fuel IH]; intros above ref Hfuel;
    destruct ref as [q | page]; try (cbn; reflexivity).
  - destruct (m !! q) as [eq|] eqn:Eq; [|now apply Hnone].
    specialize (Hfuel q eq_refl (mk_is_Some _ _ Eq)).
    destruct (Hbound q eq Eq) as [Hlen _]. simpl in Hfuel. lia.
  - destruct (m !! q) as [eq|] eqn:Eq; [|now apply Hnone].
    destruct (Hbound q eq Eq) as [Hlen Hch].
    specialize (Hfuel q eq_refl (mk_is_Some _ _ Eq)).
    assert (Hkids : forall above' c, In c (DirNode.children eq) ->
      Permutation
        (locateRefs fuel (<[p := pushChild x e]> m) above' c)
        (locateRefs fuel m above' c
         ++ map (fun ch => (ch ++ [p], x)) (chainsOf p (locateRefs fuel m above' c)))).
    { intros above' c Hc. apply IH. intros q' -> _.
      destruct (Hch q' Hc) as [Hlt _]. lia. }
    destruct (decide (p = q)) as [<- | Hne].
    + assert (eq = e) as -> by congruence.
      cbn [locateRefs]. rewrite lookup_insert_eq, Hp.
      cbn [pushChild DirNode.path DirNode.children].
      rewrite flat_map_app. cbn [flat_map]. rewrite Hx, app_nil_r, Hpath.
      rewrite chainsOf_cons_dir, String.eqb_refl. cbn [app map].
      rewrite (flat_map_pushed p x _ _ _ (Hkids (above ++ [p]))).
      apply perm_skip. rewrite <- app_assoc. apply Permutation_app_head.
      symmetry. apply Permutation_cons_append.
    + cbn [locateRefs]. rewrite lookup_insert_ne, Eq by assumption.
      rewrite chainsOf_cons_dir.
      destruct (String.eqb_spec q p) as [-> | _]; [contradiction |]. cbn [app].
      apply perm_skip. apply flat_map_pushed. apply Hkids.
Qed.

Lemma dirKeysIn_app (a b : list (list string * NodeRef)) :
  dirKeysIn (a ++ b) = dirKeysIn a ++ dirKeysIn b.
Proof. apply omap_app. Qed.

Lemma pagesIn_app (a b : list (list string * NodeRef)) :
  pagesIn (a ++ b) = pagesIn a ++ pagesIn b.
Proof. apply omap_app. Qed.

Lemma dirKeysIn_cons_dir (c : list string) (q : string) (S : list (list string * NodeRef)) :
  dirKeysIn ((c, DirRef q) :: S) = q :: dirKeysIn S.
Proof. reflexivity. Qed.

Lemma dirKeysIn_cons_page (c : list string) (pg : NavNode.t)
    (S : list (list string * NodeRef)) :
  dirKeysIn ((c, PageRef pg) :: S) = dirKeysIn S.
Proof. reflexivity. Qed.

Lemma pagesIn_cons_dir (c : list string) (q : string) (S : list (list string * NodeRef)) :
  pagesIn ((c, DirRef q) :: S) = pagesIn S.
Proof. reflexivity. Qed.

Lemma pagesIn_cons_page (c : list string) (pg : NavNode.t)
    (S : list (list string * NodeRef)) :
  pagesIn ((c, PageRef pg) :: S) = (c, pg) :: pagesIn S.
Proof. reflexivity. Qed.

Lemma chainsOf_cons_page (key : string) (c : list string) (pg : NavNode.t)
    (S : list (list string * NodeRef)) :
  chainsOf key ((c, PageRef pg) :: S) = chainsOf key S.
Proof. reflexivity. Qed.

Lemma dirKeysIn_In (S : list (list string * NodeRef)) (k : string) :
  In k (dirKeysIn S) <-> exists c, In (c, DirRef k) S.
Proof.
  induction S as [|[c r] S IH]; [split; [contradiction | intros [? []]] |].
  destruct r as [q | pg].
  - rewrite dirKeysIn_cons_dir. cbn [In]. rewrite IH. split.
    + intros [-> | [c' H]]; eauto.
    + intros [c' [[= -> ->] | H]]; eauto.
  - rewrite dirKeysIn_cons_page. cbn [In]. rewrite IH. split.
    + intros [c' H]; eauto.
    + intros [c' [[=] | H]]; eauto.
Qed.

Lemma pagesIn_In (S : list (list string * NodeRef)) (c : list string) (pg : NavNode.t) :
  In (c, pg) (pagesIn S) <-> In (c, PageRef pg) S.
Proof.
  induction S as [|[c' r] S IH]; [reflexivity |].
  destruct r as [q | pg'].
  - rewrite pagesIn_cons_dir. cbn [In]. rewrite IH.
    split; [auto | now intros [[=] | H]].
  - rewrite pagesIn_cons_page. cbn [In]. rewrite IH. split.
    + intros [[= -> ->] | H]; auto.
    + intros [[= -> ->] | H]; auto.
Qed.

Lemma chainsOf_absent (p : string) (S : list (list string * NodeRef)) :
  ~ In p (dirKeysIn S) -> chainsOf p S = [].
Proof.
  induction S as [|[c r] S IH]; [reflexivity |]. destruct r as [q | pg].
  - rewrite dirKeysIn_cons_dir, chainsOf_cons_dir. cbn [In]. intros H.
    destruct (String.eqb_spec q p) as [-> | _]; [exfalso; apply H; now left |].
    apply IH. intros Hin. apply H. now right.
  - rewrite dirKeysIn_cons_page, chainsOf_cons_page. exact IH.
Qed.

Lemma chainsOf_unique (p : string) (c : list string) (S : list (list string * NodeRef)) :
  List.NoDup (dirKeysIn S) -> In (c, DirRef p) S -> chainsOf p S = [c].
Proof.
  induction S as [|[c' r] S IH]; [contradiction |]. destruct r as [q | pg].
  - rewrite dirKeysIn_cons_dir, chainsOf_cons_dir.
    intros Hnd%List.NoDup_cons_iff [[= -> ->] | Hin]; destruct Hnd as [Hq Hnd].
    + now rewrite String.eqb_refl, chainsOf_absent.
    + destruct (String.eqb_spec q p) as [-> | _]; [|now apply IH].
      exfalso. apply Hq. apply dirKeysIn_In. eauto.
  - rewrite dirKeysIn_cons_page, chainsOf_cons_page.
    intros Hnd [[=] | Hin]. now apply IH.
Qed.

Lemma chain_unique (p : string) (c1 c2 : list string) (S : list (list string * NodeRef)) :
  List.NoDup (dirKeysIn S) -> In (c1, DirRef p) S -> In (c2, DirRef p) S -> c1 = c2.
Proof.
  intros Hnd H1 H2.
  pose proof (chainsOf_unique p c1 S Hnd H1) as E1.
  pose proof (chainsOf_unique p c2 S Hnd H2) as E2.
  congruence.
Qed.

(** The elements reached from the roots, after a child was pushed on the
    directory node [p], which occurs once. *)
Lemma pushed_perm (L : nat) (m : gmap string DirNode.t) (R : list NodeRef)
    (S : list (list string * NodeRef)) (p : string) (e : DirNode.t)
    (cp : list string) (x : NodeRef) :
  (forall k node, m !! k = Some node ->
     String.length k <= L
     /\ forall c, In (DirRef c) (DirNode.children node) ->
          String.length k < String.length c /\ is_Some (m !! c)) ->
  Permutation (flat_map (locateRefs (Datatypes.S L) m []) R) S ->
  List.NoDup (dirKeysIn S) ->
  m !! p = Some e -> DirNode.path e = p -> In (cp, DirRef p) S ->
  (forall fuel above,
     locateRefs fuel (<[p := pushChild x e]> m) above x = [(above, x)]) ->
  Permutation
    (flat_map (locateRefs (Datatypes.S L) (<[p := pushChild x e]> m) []) R)
    (S ++ [(cp ++ [p], x)]).
Proof.
  intros Hb Hperm Hnd Hp Hpath Hin Hx.
  rewrite (flat_map_pushed p x _ (locateRefs (Datatypes.S L) m [])).
  - change [(cp ++ [p], x)] with (map (fun ch => (ch ++ [p], x)) [cp]).
    rewrite <- (chainsOf_unique p cp S Hnd Hin).
    apply Permutation_app; [exact Hperm |]. apply Permutation_map.
    unfold chainsOf. now apply omap_Permutation.
  - intros c _. apply (locateRefs_push L); auto. intros. lia.
Qed.

Lemma is_Some_insert_mono (m : gmap string DirNode.t) (k c : string) (v : DirNode.t) :
  is_Some (m !! c) -> is_Some (<[k := v]> m !! c).
Proof.
  intros H. rewrite lookup_insert_is_Some. destruct (decide (k = c)); auto.
Qed.

Section ShapeSteps.

Variable L : nat.
Variable m : gmap string DirNode.t.
Variable R : list NodeRef.
Variable S : list (list string * NodeRef).
Hypothesis HS : NavShape L (mkNavBuild m R) S.

Lemma shape_bounded (k : string) (node : DirNode.t) :
  m !! k = Some node ->
  String.length k <= L
  /\ forall c, In (DirRef c) (DirNode.children node) ->
       String.length k < String.length c /\ is_Some (m !! c).
Proof. intros Hk. now destruct (shape_bound _ _ _ HS k node Hk) as (? & _ & ?). Qed.

Lemma shape_closed (q : string) (e : DirNode.t) :
  m !! q = Some e -> forall c, In (DirRef c) (DirNode.children e) -> is_Some (m !! c).
Proof. intros Hq c Hc. destruct (shape_bounded q e Hq) as [_ H]. now destruct (H c Hc). Qed.

Lemma shape_chain_mono (x : list string * NodeRef) (c : list string) (k : string) :
  In (c, DirRef k) S ->
  (c = [] /\ noSlash k = true)
  \/ (exists c' p part,
        c = c' ++ [p] /\ In (c', DirRef p) (S ++ [x])
        /\ k = p +:+ "/" +:+ part /\ noSlash part = true /\ Js.nonEmpty p = true).
Proof.
  intros Hin.
  destruct (shape_chain _ _ _ HS c k Hin) as [? | (c' & p & part & ? & ? & ?)];
    [now left |].
  right. exists c', p, part. rewrite in_app_iff. auto.
Qed.

Lemma shape_root_page (pg : NavNode.t) :
  NavShape L (mkNavBuild m (R ++ [PageRef pg])) (S ++ [([], PageRef pg)]).
Proof.
  pose proof HS as [Hperm Hnd Hdom Hchain Hbound Hroots]. cbn [dirMap rootNodes] in *. constructor; cbn [dirMap rootNodes].
  - rewrite flat_map_app. cbn. now apply Permutation_app_tail.
  - rewrite dirKeysIn_app. cbn. now rewrite app_nil_r.
  - intros k. rewrite dirKeysIn_app. cbn. rewrite app_nil_r. apply Hdom.
  - intros c k [Hin | [[=] | []]]%in_app_or. now apply shape_chain_mono.
  - exact Hbound.
  - intros c [Hin | [[=] | []]]%in_app_or. now apply Hroots.
Qed.

Lemma shape_set_index (p o : string) (e : DirNode.t) :
  m !! p = Some e ->
  NavShape L (mkNavBuild (<[p := setIndexPage o e]> m) R) S.
Proof.
  intros Hp. pose proof HS as [Hperm Hnd Hdom Hchain Hbound Hroots]. cbn [dirMap rootNodes] in *.
  constructor; cbn [dirMap rootNodes].
  - rewrite <- Hperm. erewrite flat_map_ext_in; [reflexivity |].
    intros r _. now apply locateRefs_setIndex.
  - exact Hnd.
  - intros k. rewrite Hdom, lookup_insert_is_Some.
    split; [destruct (decide (p = k)); auto | intros [<- | [_ H]]; eauto].
  - exact Hchain.
  - intros k node. rewrite lookup_insert_Some.
    intros [[<- <-] | [Hne Hk]].
    + destruct (Hbound p e Hp) as (Hl & Hpa & Hch). cbn.
      split; [exact Hl |]. split; [exact Hpa |]. intros c Hc.
      destruct (Hch c Hc). split; [assumption | now apply is_Some_insert_mono].
    + destruct (Hbound k node Hk) as (Hl & Hpa & Hch).
      split; [exact Hl |]. split; [exact Hpa |]. intros c Hc.
      destruct (Hch c Hc). split; [assumption | now apply is_Some_insert_mono].
  - intros c Hc. apply is_Some_insert_mono. now apply Hroots.
Qed.

Lemma shape_push_page (p : string) (e : DirNode.t) (cp : list string) (pg : NavNode.t) :
  m !! p = Some e -> In (cp, DirRef p) S ->
  NavShape L (mkNavBuild (<[p := pushChild (PageRef pg) e]> m) R)
    (S ++ [(cp ++ [p], PageRef pg)]).
Proof.
  intros Hp Hin. pose proof HS as [Hperm Hnd Hdom Hchain Hbound Hroots]. cbn [dirMap rootNodes] in *.
  constructor; cbn [dirMap rootNodes].
  - apply (pushed_perm L); auto using shape_bounded.
    + now destruct (Hbound p e Hp) as (_ & ? & _).
    + now intros [|fuel] above.
  - rewrite dirKeysIn_app. cbn. now rewrite app_nil_r.
  - intros k. rewrite dirKeysIn_app. cbn. rewrite app_nil_r, Hdom, lookup_insert_is_Some.
    split; [destruct (decide (p = k)); auto | intros [<- | [_ H]]; eauto].
  - intros c k [Hc | [[=] | []]]%in_app_or. now apply shape_chain_mono.
  - intros k node. rewrite lookup_insert_Some.
    intros [[<- <-] | [Hne Hk]].
    + destruct (Hbound p e Hp) as (Hl & Hpa & Hch). cbn.
      split; [exact Hl |]. split; [exact Hpa |].
      intros c [Hc | [[=] | []]]%in_app_or.
      destruct (Hch c Hc). split; [assumption | now apply is_Some_insert_mono].
    + destruct (Hbound k node Hk) as (Hl & Hpa & Hch).
      split; [exact Hl |]. split; [exact Hpa |]. intros c Hc.
      destruct (Hch c Hc). split; [assumption | now apply is_Some_insert_mono].
  - intros c Hc. apply is_Some_insert_mono. now apply Hroots.
Qed.

Lemma shape_new_root (part k : string) :
  m !! k = None -> String.length k <= L -> noSlash k = true ->
  NavShape L (mkNavBuild (<[k := DirNode.mk part k "" [] false]> m) (R ++ [DirRef k]))
    (S ++ [([], DirRef k)]).
Proof.
  intros Hk Hlen Hns. pose proof HS as [Hperm Hnd Hdom Hchain Hbound Hroots]. cbn [dirMap rootNodes] in *.
  constructor; cbn [dirMap rootNodes].
  - assert (Hnew : locateRefs (Datatypes.S L) (<[k := DirNode.mk part k "" [] false]> m) [] (DirRef k)
                   = [([], DirRef k)])
      by (cbn [locateRefs]; now rewrite lookup_insert_eq).
    rewrite flat_map_app. cbn [flat_map]. rewrite Hnew, app_nil_r.
    apply Permutation_app_tail. rewrite <- Hperm.
    erewrite flat_map_ext_in; [reflexivity |].
    intros r Hr.
    apply locateRefs_fresh; [exact Hk | apply shape_closed | intros q ->; now apply Hroots].
  - rewrite dirKeysIn_app. cbn. apply List.NoDup_app; [exact Hnd | repeat constructor; auto |].
    intros a Ha [<- | []]. apply Hdom in Ha. rewrite Hk in Ha. now destruct Ha.
  - intros k'. rewrite dirKeysIn_app, in_app_iff, Hdom, lookup_insert_is_Some. cbn.
    split.
    + intros [H | [<- | []]]; [destruct (decide (k = k')); auto | auto].
    + intros [<- | [_ H]]; auto.
  - intros c k' [Hc | [[= <- <-] | []]]%in_app_or; [now apply shape_chain_mono | auto].
  - intros k' node. rewrite lookup_insert_Some.
    intros [[<- <-] | [Hne Hk']].
    + cbn. repeat split; auto; contradiction.
    + destruct (Hbound k' node Hk') as (Hl & Hpa & Hch).
      split; [exact Hl |]. split; [exact Hpa |]. intros c Hc.
      destruct (Hch c Hc). split; [assumption | now apply is_Some_insert_mono].
  - intros c [Hc | [[= <-] | []]]%in_app_or.
    + apply is_Some_insert_mono. now apply Hroots.
    + rewrite lookup_insert_eq. eauto.
Qed.

Lemma shape_new_child (part k p : string) (e : DirNode.t) (cp : list string) :
  m !! k = None -> String.length k <= L ->
  m !! p = Some e -> In (cp, DirRef p) S ->
  k = p +:+ "/" +:+ part -> noSlash part = true -> Js.nonEmpty p = true ->
  NavShape L
    (mkNavBuild (<[p := pushChild (DirRef k) e]> (<[k := DirNode.mk part k "" [] false]> m)) R)
    (S ++ [(cp ++ [p], DirRef k)]).
Proof.
  intros Hk Hlen Hp Hin Ek Hns Hne.
  pose proof HS as [Hperm Hnd Hdom Hchain Hbound Hroots]. cbn [dirMap rootNodes] in *.
  assert (Hpk : p <> k) by congruence.
  assert (Hlt : String.length p < String.length k).
  { rewrite Ek, !length_append. simpl. lia. }
  set (m1 := <[k := DirNode.mk part k "" [] false]> m).
  assert (Hp1 : m1 !! p = Some e) by (unfold m1; now rewrite lookup_insert_ne).
  assert (Hb1 : forall k' node, m1 !! k' = Some node ->
    String.length k' <= L /\ DirNode.path node = k'
    /\ forall c, In (DirRef c) (DirNode.children node) ->
         String.length k' < String.length c /\ is_Some (m1 !! c)).
  { intros k' node. unfold m1. rewrite lookup_insert_Some.
    intros [[<- <-] | [Hne' Hk']].
    - cbn. repeat split; auto; contradiction.
    - destruct (Hbound k' node Hk') as (Hl & Hpa & Hch).
      split; [exact Hl |]. split; [exact Hpa |]. intros c Hc.
      destruct (Hch c Hc). split; [assumption | now apply is_Some_insert_mono]. }
  constructor; cbn [dirMap rootNodes].
  - apply (pushed_perm L); auto.
    + intros k' node Hk'. destruct (Hb1 k' node Hk') as (? & _ & ?). auto.
    + rewrite <- Hperm. erewrite flat_map_ext_in; [reflexivity |].
      intros r Hr.
      apply locateRefs_fresh; [exact Hk | apply shape_closed | intros q ->; now apply Hroots].
    + now destruct (Hbound p e Hp) as (_ & ? & _).
    + intros fuel above. destruct fuel; cbn [locateRefs];
        rewrite lookup_insert_ne by assumption; unfold m1;
        rewrite lookup_insert_eq; reflexivity.
  - rewrite dirKeysIn_app. cbn. apply List.NoDup_app; [exact Hnd | repeat constructor; auto |].
    intros a Ha [<- | []]. apply Hdom in Ha. rewrite Hk in Ha. now destruct Ha.
  - intros k'. rewrite dirKeysIn_app, in_app_iff, Hdom.
    change (dirKeysIn [(cp ++ [p], DirRef k)]) with [k]. split.
    + intros [H | [<- | []]]; [do 2 apply is_Some_insert_mono; exact H |].
      rewrite lookup_insert_ne by auto. unfold m1. rewrite lookup_insert_eq. eauto.
    + intros H. destruct (decide (k = k')) as [<- | Hkk]; [right; now left |]. left.
      rewrite lookup_insert_is_Some in H. destruct H as [<- | [_ H]]; [eauto |].
      unfold m1 in H. now rewrite lookup_insert_ne in H by auto.
  - intros c k' [Hc | [[= <- <-] | []]]%in_app_or; [now apply shape_chain_mono |].
    right. exists cp, p, part. rewrite in_app_iff. auto.
  - intros k' node. rewrite lookup_insert_Some.
    intros [[<- <-] | [Hne' Hk']].
    + destruct (Hb1 p e Hp1) as (Hl & Hpa & Hch). cbn.
      split; [exact Hl |]. split; [exact Hpa |].
      intros c [Hc | [[= <-] | []]]%in_app_or.
      * destruct (Hch c Hc). split; [assumption | now apply is_Some_insert_mono].
      * split; [exact Hlt |]. apply is_Some_insert_mono. unfold m1.
        rewrite lookup_insert_eq. eauto.
    + destruct (Hb1 k' node Hk') as (Hl & Hpa & Hch).
      split; [exact Hl |]. split; [exact Hpa |]. intros c Hc.
      destruct (Hch c Hc). split; [assumption | now apply is_Some_insert_mono].
  - intros c Hc. do 2 apply is_Some_insert_mono. now apply Hroots.
Qed.

End ShapeSteps.

(** *** The inner loop *)

Lemma noSlash_joined (p part : string) : noSlash (p +:+ "/" +:+ part) = false.
Proof.
  unfold noSlash. rewrite sforall_append. cbn. now rewrite andb_false_r.
Qed.

Lemma slash_split_inj (p q x y : string) :
  p +:+ "/" +:+ x = q +:+ "/" +:+ y -> noSlash x = true -> noSlash y = true ->
  p = q /\ x = y.
Proof.
  intros E Hx Hy. apply (f_equal (Js.split "/")) in E.
  change (p +:+ "/" +:+ x) with (p +:+ String "/" x) in E.
  change (q +:+ "/" +:+ y) with (q +:+ String "/" y) in E.
  rewrite !split_app, (split_noSlash x Hx), (split_noSlash y Hy) in E.
  apply app_inj_tail in E as [E ->]. split; [|reflexivity].
  now rewrite <- (join_split p), <- (join_split q), E.
Qed.

Lemma last_cons_default {A : Type} (l : list A) :
  forall a d, List.last (a :: l) d = List.last l a.
Proof.
  induction l as [|b l IH]; intros a d; [reflexivity |].
  change (List.last (a :: b :: l) d) with (List.last (b :: l) d).
  now rewrite !IH.
Qed.

Lemma outputsKept_refl (m : gmap string DirNode.t) : outputsKept m m.
Proof. split; eauto. Qed.

Lemma outputsKept_trans (m1 m2 m3 : gmap string DirNode.t) :
  outputsKept m1 m2 -> outputsKept m2 m3 -> outputsKept m1 m3.
Proof.
  intros [A1 B1] [A2 B2]. split.
  - intros k node Hk. destruct (A1 k node Hk) as (n2 & H2 & E2).
    destruct (A2 k n2 H2) as (n3 & H3 & E3). exists n3. split; congruence.
  - intros k n3 Hk Hne. destruct (B2 k n3 Hk Hne) as (n2 & H2 & E2).
    destruct (B1 k n2 H2) as (n1 & H1 & E1); [congruence |].
    exists n1. split; congruence.
Qed.

Lemma outputsKept_fresh (m : gmap string DirNode.t) (k part : string) :
  m !! k = None -> outputsKept m (<[k := DirNode.mk part k "" [] false]> m).
Proof.
  intros Hk. split.
  - intros k' node Hk'. exists node. rewrite lookup_insert_ne by congruence. auto.
  - intros k' node'. rewrite lookup_insert_Some.
    intros [[<- <-] | [_ Hk']] Hne; [now cbn in Hne | eauto].
Qed.

Lemma outputsKept_push (m : gmap string DirNode.t) (p : string) (e : DirNode.t)
    (x : NodeRef) :
  m !! p = Some e -> outputsKept m (<[p := pushChild x e]> m).
Proof.
  intros Hp. split.
  - intros k node Hk. destruct (decide (p = k)) as [<- | Hne].
    + rewrite lookup_insert_eq. assert (node = e) as -> by congruence. eauto.
    + rewrite lookup_insert_ne by assumption. eauto.
  - intros k node'. rewrite lookup_insert_Some.
    intros [[<- <-] | [_ Hk]] Hne; eauto.
Qed.

Lemma ensureDir_shape (L : nat) (m : gmap string DirNode.t) (R : list NodeRef)
    (S : list (list string * NodeRef)) (parent part : string) (cp : list string) :
  NavShape L (mkNavBuild m R) S ->
  noSlash part = true ->
  (Js.nonEmpty parent = true -> In (cp, DirRef parent) S) ->
  let key := if Js.nonEmpty parent then parent +:+ "/" +:+ part else part in
  String.length key <= L ->
  exists m' R' S',
    ensureDir parent part (mkNavBuild m R) = (key, mkNavBuild m' R')
    /\ NavShape L (mkNavBuild m' R') S'
    /\ incl S S' /\ pagesIn S' = pagesIn S /\ outputsKept m m'
    /\ In (if Js.nonEmpty parent then cp ++ [parent] else [], DirRef key) S'.
Proof.
  intros HS Hpart Hparent key Hlen. unfold ensureDir. cbn [dirMap rootNodes]. fold key.
  destruct (m !! key) as [node|] eqn:Ek.
  - exists m, R, S. split; [reflexivity |]. split; [exact HS |].
    split; [apply incl_refl |]. split; [reflexivity |].
    split; [apply outputsKept_refl |].
    assert (Hin : In key (dirKeysIn S))
      by (apply (shape_dom _ _ _ HS); cbn; rewrite Ek; eauto).
    apply dirKeysIn_In in Hin as [c Hc].
    destruct (shape_chain _ _ _ HS c key Hc) as [[-> Hns] | (c' & p & part' & -> & Hp & E & Hns & Hne)].
    + destruct (Js.nonEmpty parent); [|exact Hc].
      unfold key in Hns. now rewrite noSlash_joined in Hns.
    + destruct (Js.nonEmpty parent) eqn:En.
      * unfold key in E. apply slash_split_inj in E as [-> ->]; auto.
        now rewrite (chain_unique p cp c' S (shape_nodup _ _ _ HS) (Hparent eq_refl) Hp).
      * unfold key in E. rewrite E in Hpart. now rewrite noSlash_joined in Hpart.
  - destruct (Js.nonEmpty parent) eqn:En.
    + specialize (Hparent eq_refl).
      assert (Hdom : is_Some (m !! parent)).
      { apply (shape_dom _ _ _ HS). apply dirKeysIn_In. eauto. }
      destruct Hdom as [e He].
      assert (Hne : key <> parent) by congruence.
      rewrite lookup_insert_ne, He by assumption.
      eexists _, _, (S ++ [(cp ++ [parent], DirRef key)]).
      split; [reflexivity |].
      split; [exact (shape_new_child L m R S HS part key parent e cp Ek Hlen He Hparent eq_refl Hpart En) |].
      split; [now apply incl_appl |].
      split; [rewrite pagesIn_app; cbn; now rewrite app_nil_r |].
      split; [|apply in_or_app; right; now left].
      eapply outputsKept_trans; [exact (outputsKept_fresh m key part Ek) |].
      apply outputsKept_push. now rewrite lookup_insert_ne.
    + eexists _, _, (S ++ [([], DirRef key)]).
      split; [reflexivity |].
      split; [exact (shape_new_root L m R S HS part key Ek Hlen Hpart) |].
      split; [now apply incl_appl |].
      split; [rewrite pagesIn_app; cbn; now rewrite app_nil_r |].
      split; [now apply outputsKept_fresh | apply in_or_app; right; now left].
Qed.

Lemma ensureDirs_shape (L : nat) (parts : list string) :
  forall cur cp m R S,
    NavShape L (mkNavBuild m R) S ->
    Forall (fun s => noSlash s = true /\ Js.nonEmpty s = true) parts ->
    (Js.nonEmpty cur = true -> In (cp, DirRef cur) S) ->
    Forall (fun k => String.length k <= L) (cumulativePaths cur parts) ->
    exists m' R' S',
      ensureDirs parts cur (mkNavBuild m R)
      = (List.last (cumulativePaths cur parts) cur, mkNavBuild m' R')
      /\ NavShape L (mkNavBuild m' R') S'
      /\ incl S S' /\ pagesIn S' = pagesIn S /\ outputsKept m m'
      /\ forall pre k post, cumulativePaths cur parts = pre ++ k :: post ->
           In ((if Js.nonEmpty cur then cp ++ [cur] else []) ++ pre, DirRef k) S'.
Proof.
  induction parts as [|part rest IH]; intros cur cp m R S HS Hparts Hcur Hlen.
  - exists m, R, S. split; [reflexivity |]. split; [exact HS |].
    split; [apply incl_refl |]. split; [reflexivity |].
    split; [apply outputsKept_refl |].
    intros pre k post E. now destruct pre.
  - inversion Hparts as [|? ? [Hns Hne] Hrest]; subst.
    cbn [cumulativePaths] in Hlen |- *.
    set (key := if Js.nonEmpty cur then cur +:+ "/" +:+ part else part) in *.
    inversion Hlen as [|? ? Hkey Hlen']; subst.
    destruct (ensureDir_shape L m R S cur part cp HS Hns Hcur Hkey)
      as (m1 & R1 & S1 & E1 & HS1 & Hincl1 & Hpg1 & Hout1 & Hin1).
    fold key in E1, Hin1.
    assert (Hkne : Js.nonEmpty key = true).
    { unfold key. destruct (Js.nonEmpty cur); [|exact Hne].
      unfold Js.nonEmpty. now destruct cur. }
    destruct (IH key (if Js.nonEmpty cur then cp ++ [cur] else []) m1 R1 S1 HS1 Hrest
                (fun _ => Hin1) Hlen')
      as (m2 & R2 & S2 & E2 & HS2 & Hincl2 & Hpg2 & Hout2 & Hin2).
    exists m2, R2, S2. cbn [ensureDirs]. rewrite E1, E2.
    split; [now rewrite last_cons_default |].
    split; [exact HS2 |].
    split; [eauto using incl_tran |]. split; [congruence |].
    split; [eauto using outputsKept_trans |].
    intros pre k post E. destruct pre as [|k0 pre]; cbn [app] in E; injection E as <- E.
    + rewrite app_nil_r. now apply Hincl2.
    + specialize (Hin2 pre k post E). rewrite Hkne in Hin2.
      now rewrite <- app_assoc in Hin2.
Qed.

(** *** The paths of a file *)

Lemma split_all_noSlash (s : string) :
  Forall (fun x => noSlash x = true) (Js.split "/" s).
Proof.
  induction s as [|c r IH]; [repeat constructor |].
  cbn [Js.split]. destruct (Ascii.eqb c "/") eqn:Ec; [now constructor |].
  destruct (Js.split "/" r) as [|h t]; [repeat constructor; cbn; now rewrite Ec |].
  inversion IH; subst. constructor; [|assumption].
  unfold noSlash in *. cbn. now rewrite Ec.
Qed.

Lemma Forall_removelast {A : Type} (P : A -> Prop) (l : list A) :
  Forall P l -> Forall P (removelast l).
Proof.
  induction 1 as [|a l Ha Hl IH]; [constructor |].
  cbn [removelast]. destruct l; [constructor | now constructor].
Qed.

Lemma join_cons_length (p : string) (rest : list string) :
  rest <> [] ->
  String.length (Js.join "/" (p :: rest))
  = String.length p + 1 + String.length (Js.join "/" rest).
Proof.
  intros Hne. destruct rest as [|q rest]; [congruence |].
  change (Js.join "/" (p :: q :: rest)) with (p +:+ "/" +:+ Js.join "/" (q :: rest)).
  rewrite !length_append. simpl. lia.
Qed.

Lemma cumulativePaths_bound (parts : list string) : forall cur k,
  In k (cumulativePaths cur parts) ->
  String.length k <= String.length cur + 1 + String.length (Js.join "/" parts).
Proof.
  induction parts as [|part rest IH]; intros cur k Hin; [destruct Hin |].
  cbn [cumulativePaths] in Hin.
  set (key := if Js.nonEmpty cur then cur +:+ "/" +:+ part else part) in *.
  assert (Hkey : String.length key <= String.length cur + 1 + String.length part).
  { unfold key. destruct (Js.nonEmpty cur); [|lia]. rewrite !length_append. simpl. lia. }
  destruct rest as [|q rest].
  - destruct Hin as [<- | []]. exact Hkey.
  - rewrite join_cons_length by discriminate.
    destruct Hin as [<- | Hin].
    + lia.
    + apply IH in Hin. lia.
Qed.

Lemma dirPathsOf_bound (file : TFile.t) (k : string) :
  In k (dirPathsOf file) -> String.length k <= String.length (TFile.path file).
Proof.
  unfold dirPathsOf. intros Hin.
  pose proof (split_nonnil "/" (TFile.path file)) as Hne.
  destruct (removelast (Js.split "/" (TFile.path file))) as [|a l] eqn:Er;
    [destruct Hin|].
  apply cumulativePaths_bound in Hin.
  pose proof (app_removelast_last "" Hne) as E. rewrite Er in E.
  rewrite <- (join_split (TFile.path file)), E, join_snoc by discriminate.
  rewrite !length_append. simpl in *. lia.
Qed.

Lemma cumulativePaths_length (parts : list string) : forall cur,
  length (cumulativePaths cur parts) = length parts.
Proof. induction parts; intros cur; cbn; auto. Qed.

Lemma nested_dirPaths (file : TFile.t) :
  isNested file = true ->
  exists pre, dirPathsOf file = pre ++ [List.last (dirPathsOf file) ""].
Proof.
  unfold isNested, dirPathsOf. intros Hn.
  exists (removelast (cumulativePaths "" (removelast (Js.split "/" (TFile.path file))))).
  apply app_removelast_last. intros E. apply (f_equal (@length _)) in E.
  rewrite cumulativePaths_length in E.
  pose proof (split_nonnil "/" (TFile.path file)) as Hne.
  destruct (Js.split "/" (TFile.path file)) as [|a [|b l]]; cbn in *;
    [congruence | discriminate | discriminate].
Qed.

Lemma root_dirPaths (file : TFile.t) : isNested file = false -> dirPathsOf file = [].
Proof.
  unfold isNested, dirPathsOf. intros Hn.
  destruct (Js.split "/" (TFile.path file)) as [|a [|b l]]; cbn in *; congruence.
Qed.

(** *** The outer loop *)

Section NavigationConstruction.

Variable charMapExt : ascii -> option string.

Lemma getOutputPath_nonempty (p : string) : getOutputPath charMapExt p <> "".
Proof.
  rewrite getOutputPath_segments, app_assoc. apply join_nonempty.
  - now destruct (siteSegments ++ outputDirSegments charMapExt p).
  - eapply List.Forall_impl; [|apply outputPath_clean].
    intros s. apply cleanSegment_nonEmpty.
Qed.

Lemma nav_initial (L : nat) :
  NavShape L (mkNavBuild ∅ []) [] /\ NavContent charMapExt [] (mkNavBuild ∅ []) [].
Proof.
  split; constructor; cbn [dirMap rootNodes]; try easy.
  - constructor.
  - intros k. cbn. rewrite lookup_empty. split; [easy | intros [? ?]; discriminate].
Qed.

Lemma addFile_root (L : nat) (done : list TFile.t) (m : gmap string DirNode.t)
    (R : list NodeRef) (S : list (list string * NodeRef)) (file : TFile.t) :
  NavShape L (mkNavBuild m R) S -> NavContent charMapExt done (mkNavBuild m R) S ->
  isNested file = false ->
  exists S', NavShape L (addFile charMapExt (mkNavBuild m R) file) S'
    /\ NavContent charMapExt (done ++ [file]) (addFile charMapExt (mkNavBuild m R) file) S'.
Proof.
  intros HS HC Hn. pose proof HC as [Hpages Hdirs Hfrom Hset].
  unfold addFile. unfold isNested in Hn. apply negb_false_iff in Hn. rewrite Hn.
  cbn [dirMap rootNodes] in *.
  set (pg := pageNode charMapExt file (isIndexName (TFile.basename file))).
  exists (S ++ [([], PageRef pg)]). split; [now apply shape_root_page |].
  constructor; cbn [dirMap rootNodes].
  - rewrite pagesIn_app, flat_map_app, Hpages. f_equal. cbn.
    unfold pageEntryOf, isNested. now rewrite Hn.
  - intros g [Hg | [<- | []]]%in_app_iff Hnest pre k post E.
    + apply in_or_app. left. exact (Hdirs g Hg Hnest pre k post E).
    + unfold isNested in Hnest. now rewrite Hn in Hnest.
  - intros k node Hk Hne. destruct (Hfrom k node Hk Hne) as (g & Hg & H).
    exists g. split; [apply in_or_app; now left | exact H].
  - intros g [Hg | [<- | []]]%in_app_iff Hnest Hidx.
    + eauto.
    + unfold isNested in Hnest. now rewrite Hn in Hnest.
Qed.

Lemma addFile_nested (L : nat) (done : list TFile.t) (m : gmap string DirNode.t)
    (R : list NodeRef) (S : list (list string * NodeRef)) (file : TFile.t) :
  NavShape L (mkNavBuild m R) S -> NavContent charMapExt done (mkNavBuild m R) S ->
  wellFormedFile file -> String.length (TFile.path file) <= L ->
  isNested file = true ->
  exists S', NavShape L (addFile charMapExt (mkNavBuild m R) file) S'
    /\ NavContent charMapExt (done ++ [file]) (addFile charMapExt (mkNavBuild m R) file) S'.
Proof.
  intros HS HC [_ Hwf] Hlen Hn. pose proof HC as [Hpages Hdirs Hfrom Hset].
  cbn [dirMap rootNodes] in *.
  assert (Hparts : Forall (fun s => noSlash s = true /\ Js.nonEmpty s = true)
                     (removelast (Js.split "/" (TFile.path file)))).
  { apply Forall_removelast, List.Forall_forall. intros s Hs. split.
    - pose proof (split_all_noSlash (TFile.path file)) as H.
      rewrite List.Forall_forall in H. auto.
    - rewrite List.Forall_forall in Hwf. auto. }
  assert (Hbound : Forall (fun k => String.length k <= L)
                     (cumulativePaths "" (removelast (Js.split "/" (TFile.path file))))).
  { apply List.Forall_forall. intros k Hk. apply dirPathsOf_bound in Hk. lia. }
  destruct (ensureDirs_shape L _ "" [] m R S HS Hparts
              (fun H => False_ind _ (Bool.diff_false_true H)) Hbound)
    as (m1 & R1 & S1 & E & HS1 & Hincl & Hpg & Hout & Hin).
  fold (dirPathsOf file) in E, Hin.
  destruct (nested_dirPaths file Hn) as [pre0 Epre].
  set (k0 := List.last (dirPathsOf file) "") in *.
  cbn [Js.nonEmpty app] in Hin.
  assert (Hk0 : In (pre0, DirRef k0) S1) by (apply (Hin pre0 k0 []); exact Epre).
  assert (Hdom : is_Some (m1 !! k0)).
  { apply (shape_dom _ _ _ HS1). apply dirKeysIn_In. eauto. }
  destruct Hdom as [e He].
  unfold addFile. unfold isNested in Hn. apply negb_true_iff in Hn. rewrite Hn.
  rewrite E. cbn [dirMap rootNodes]. rewrite He.
  assert (HdirsS1 : forall g, In g (done ++ [file]) -> isNested g = true ->
            forall pre k post, dirPathsOf g = pre ++ k :: post -> In (pre, DirRef k) S1).
  { intros g [Hg | [<- | []]]%in_app_iff Hnest pre k post Eg.
    - apply Hincl. exact (Hdirs g Hg Hnest pre k post Eg).
    - exact (Hin pre k post Eg). }
  destruct Hout as [Hfwd Hback].
  destruct (isIndexName (TFile.basename file)) eqn:Eidx.
  - exists S1. split; [now apply shape_set_index |].
    constructor; cbn [dirMap rootNodes].
    + rewrite Hpg, flat_map_app, Hpages. cbn. unfold pageEntryOf, isNested.
      now rewrite Hn, Eidx, app_nil_r.
    + exact HdirsS1.
    + intros k node. rewrite lookup_insert_Some.
      intros [[<- <-] | [Hne Hk]] Hnz.
      * exists file. split; [apply in_or_app; right; now left |].
        unfold isNested. rewrite Hn. auto.
      * destruct (Hback k node Hk Hnz) as (node0 & Hk0' & Eo).
        destruct (Hfrom k node0 Hk0') as (g & Hg & H); [congruence |].
        exists g. split; [apply in_or_app; now left |]. now rewrite <- Eo.
    + intros g Hg Hnest Hidx.
      destruct (decide (k0 = List.last (dirPathsOf g) "")) as [<- | Hne].
      * rewrite lookup_insert_eq. eexists. split; [reflexivity |].
        cbn. apply getOutputPath_nonempty.
      * rewrite lookup_insert_ne by assumption.
        apply in_app_iff in Hg as [Hg | [<- | []]]; [|now contradiction Hne].
        destruct (Hset g Hg Hnest Hidx) as (node & Hk & Hnz).
        destruct (Hfwd _ _ Hk) as (node' & Hk' & Eo).
        exists node'. split; [exact Hk' | congruence].
  - set (pg := pageNode charMapExt file false).
    exists (S1 ++ [(pre0 ++ [k0], PageRef pg)]). split; [now apply shape_push_page |].
    constructor; cbn [dirMap rootNodes].
    + rewrite pagesIn_app, Hpg, flat_map_app, Hpages. f_equal. cbn.
      unfold pageEntryOf, isNested. now rewrite Hn, Eidx, Epre.
    + intros g Hg Hnest pre k post Eg. apply in_or_app. left.
      exact (HdirsS1 g Hg Hnest pre k post Eg).
    + intros k node. rewrite lookup_insert_Some.
      intros [[<- <-] | [Hne Hk]] Hnz.
      * cbn in Hnz. destruct (Hback k0 e He Hnz) as (node0 & Hk0' & Eo).
        destruct (Hfrom k0 node0 Hk0') as (g & Hg & H); [congruence |].
        exists g. split; [apply in_or_app; now left |]. cbn. now rewrite <- Eo.
      * destruct (Hback k node Hk Hnz) as (node0 & Hk0' & Eo).
        destruct (Hfrom k node0 Hk0') as (g & Hg & H); [congruence |].
        exists g. split; [apply in_or_app; now left |]. now rewrite <- Eo.
    + intros g [Hg | [<- | []]]%in_app_iff Hnest Hidx; [|congruence].
      destruct (Hset g Hg Hnest Hidx) as (node & Hk & Hnz).
      destruct (Hfwd _ _ Hk) as (node' & Hk' & Eo).
      destruct (decide (k0 = List.last (dirPathsOf g) "")) as [Ek | Hne].
      * rewrite <- Ek in Hk' |- *.
        rewrite lookup_insert_eq. eexists. split; [reflexivity |].
        assert (node' = e) as -> by congruence. cbn. congruence.
      * rewrite lookup_insert_ne by assumption.
        exists node'. split; [exact Hk' | congruence].
Qed.

Lemma addFile_inv (L : nat) (done : list TFile.t) (st : NavBuild)
    (S : list (list string * NodeRef)) (file : TFile.t) :
  NavShape L st S -> NavContent charMapExt done st S ->
  wellFormedFile file -> String.length (TFile.path file) <= L ->
  exists S', NavShape L (addFile charMapExt st file) S'
    /\ NavContent charMapExt (done ++ [file]) (addFile charMapExt st file) S'.
Proof.
  destruct st as [m R]. intros HS HC Hwf Hlen.
  destruct (isNested file) eqn:Hn.
  - exact (addFile_nested L done m R S file HS HC Hwf Hlen Hn).
  - exact (addFile_root L done m R S file HS HC Hn).
Qed.

Lemma fold_addFile_inv (L : nat) (l : list TFile.t) : forall done st S,
  Forall wellFormedFile l ->
  Forall (fun f => String.length (TFile.path f) <= L) l ->
  NavShape L st S -> NavContent charMapExt done st S ->
  exists S', NavShape L (fold_left (addFile charMapExt) l st) S'
    /\ NavContent charMapExt (done ++ l) (fold_left (addFile charMapExt) l st) S'.
Proof.
  induction l as [|f l IH]; intros done st S Hwf Hlen HS HC.
  - exists S. rewrite app_nil_r. now split.
  - inversion Hwf as [|? ? Hwf1 Hwf2]; inversion Hlen as [|? ? Hlen1 Hlen2]; subst.
    destruct (addFile_inv L done st S f HS HC Hwf1 Hlen1) as (S1 & HS1 & HC1).
    destruct (IH (done ++ [f]) _ S1 Hwf2 Hlen2 HS1 HC1) as (S2 & HS2 & HC2).
    exists S2. cbn [fold_left]. rewrite <- app_assoc in HC2. now split.
Qed.

End NavigationConstruction.

(** *** Reading the tree back *)

Lemma filter_all {A : Type} (P : A -> bool) (l : list A) :
  (forall x, In x l -> P x = true) -> List.filter P l = l.
Proof.
  induction l as [|a l IH]; intros H; [reflexivity |].
  cbn. rewrite (H a (or_introl eq_refl)), IH; auto.
  intros x Hx. apply H. now right.
Qed.

Lemma filter_none {A : Type} (P : A -> bool) (l : list A) :
  (forall x, In x l -> P x = false) -> List.filter P l = [].
Proof.
  induction l as [|a l IH]; intros H; [reflexivity |].
  cbn. rewrite (H a (or_introl eq_refl)), IH; auto.
  intros x Hx. apply H. now right.
Qed.

Lemma filter_map_comm {A B : Type} (g : A -> B) (P : B -> bool) (l : list A) :
  List.filter P (map g l) = map g (List.filter (fun x => P (g x)) l).
Proof.
  induction l as [|a l IH]; [reflexivity |].
  cbn. destruct (P (g a)); cbn; now rewrite IH.
Qed.

Lemma filter_unique {A : Type} (P : A -> bool) (l : list A) (a : A) :
  List.NoDup l -> In a l -> P a = true ->
  (forall x, In x l -> P x = true -> x = a) ->
  List.filter P l = [a].
Proof.
  induction l as [|b l IH]; intros Hnd Hin Ha Hall; [destruct Hin |].
  apply List.NoDup_cons_iff in Hnd as [Hnb Hnd]. cbn.
  destruct (P b) eqn:Eb.
  - assert (b = a) as -> by (apply Hall; [now left | exact Eb]).
    f_equal. apply filter_none. intros x Hx.
    destruct (P x) eqn:Ex; [|reflexivity].
    assert (x = a) as -> by (apply Hall; [now right | exact Ex]). contradiction.
  - destruct Hin as [-> | Hin]; [congruence |].
    apply IH; auto. intros x Hx. apply Hall. now right.
Qed.

Lemma filter_single {A : Type} (P : A -> bool) (l : list A) (a : A) :
  length (List.filter P l) = 1 -> In a l -> P a = true -> List.filter P l = [a].
Proof.
  intros Hlen Hin Ha.
  assert (Hf : In a (List.filter P l)) by (apply filter_In; now split).
  destruct (List.filter P l) as [|b [|c r]]; try discriminate.
  destruct Hf as [-> | []]. reflexivity.
Qed.

Lemma locate_resolve (m : gmap string DirNode.t) (fuel : nat) : forall ref above,
  (forall c pg, In (c, PageRef pg) (locateRefs fuel m above ref) ->
     NavNode.children pg = []) ->
  map chainAndOutput (locate above (resolve fuel m ref))
  = map (chainAndOutputOf m) (locateRefs fuel m above ref).
Proof.
  induction fuel as [|fuel IH]; intros [key | pg] above Hleaf.
  - cbn. destruct (m !! key) eqn:Ek; cbn; unfold chainAndOutputOf; cbn; now rewrite Ek.
  - destruct pg as [n p o ch i].
    assert (ch = []) as -> by (apply (Hleaf above (NavNode.mk n p o ch i)); now left).
    reflexivity.
  - cbn [resolve locateRefs] in *. destruct (m !! key) as [node|] eqn:Ek.
    + cbn [locate NavNode.children NavNode.path map].
      unfold chainAndOutput at 1, chainAndOutputOf at 1. cbn. rewrite Ek. f_equal.
      assert (Hch : forall c pg,
                In (c, PageRef pg)
                  (flat_map (locateRefs fuel m (above ++ [DirNode.path node]))
                     (DirNode.children node)) -> NavNode.children pg = []).
      { intros c pg H. apply (Hleaf c pg). now right. }
      clear Hleaf. induction (DirNode.children node) as [|r rs IHr]; [reflexivity |].
      cbn [map flat_map] in *. rewrite !map_app. f_equal.
      * apply IH. intros c pg H. apply (Hch c pg), in_or_app. now left.
      * apply IHr. intros c pg H. apply (Hch c pg), in_or_app. now right.
    + cbn. unfold chainAndOutputOf. cbn. now rewrite Ek.
  - destruct pg as [n p o ch i].
    assert (ch = []) as -> by (apply (Hleaf above (NavNode.mk n p o ch i)); now left).
    reflexivity.
Qed.

Lemma located_resolve (m : gmap string DirNode.t) (fuel : nat) (R : list NodeRef) :
  (forall c pg, In (c, PageRef pg) (flat_map (locateRefs fuel m []) R) ->
     NavNode.children pg = []) ->
  map chainAndOutput (located (map (resolve fuel m) R))
  = map (chainAndOutputOf m) (flat_map (locateRefs fuel m []) R).
Proof.
  unfold located. induction R as [|r R IH]; intros Hleaf; [reflexivity |].
  cbn [map flat_map] in *. rewrite !map_app. f_equal.
  - apply locate_resolve. intros c pg H. apply (Hleaf c pg), in_or_app. now left.
  - apply IH. intros c pg H. apply (Hleaf c pg), in_or_app. now right.
Qed.

Lemma count_by_kind (m : gmap string DirNode.t) (o : string)
    (S : list (list string * NodeRef)) :
  length (List.filter (fun y => String.eqb (snd y) o) (map (chainAndOutputOf m) S))
  = length (List.filter (fun k => String.eqb (outputPathOf m (DirRef k)) o) (dirKeysIn S))
    + length (List.filter (hasOutputPath o) (pagesIn S)).
Proof.
  induction S as [|[c [k | pg]] S IH]; [reflexivity | |].
  - rewrite dirKeysIn_cons_dir, pagesIn_cons_dir. cbn [map List.filter].
    change (snd (chainAndOutputOf m (c, DirRef k))) with (outputPathOf m (DirRef k)).
    destruct (String.eqb (outputPathOf m (DirRef k)) o); cbn [length]; lia.
  - rewrite dirKeysIn_cons_page, pagesIn_cons_page. cbn [map List.filter].
    change (snd (chainAndOutputOf m (c, PageRef pg))) with (NavNode.outputPath pg).
    change (hasOutputPath o (c, pg)) with (String.eqb (NavNode.outputPath pg) o).
    destruct (String.eqb (NavNode.outputPath pg) o); cbn [length]; lia.
Qed.

(** *** Output paths of the nodes *)

Lemma perm_filter {A : Type} (P : A -> bool) (l l' : list A) :
  Permutation l l' -> Permutation (List.filter P l) (List.filter P l').
Proof.
  induction 1 as [|x l l' H IH|x y l|l l' l'' H1 IH1 H2 IH2]; cbn.
  - constructor.
  - destruct (P x); [now constructor | exact IH].
  - destruct (P x), (P y); try reflexivity. constructor.
  - now transitivity (List.filter P l').
Qed.

Lemma NoDup_map_inj {A B : Type} (f : A -> B) (l : list A) (a b : A) :
  List.NoDup (map f l) -> In a l -> In b l -> f a = f b -> a = b.
Proof.
  induction l as [|x l IH]; intros Hnd Ha Hb E; [destruct Ha |].
  cbn in Hnd. apply List.NoDup_cons_iff in Hnd as [Hx Hnd].
  destruct Ha as [-> | Ha], Hb as [-> | Hb]; auto.
  - contradict Hx. rewrite E. now apply in_map.
  - contradict Hx. rewrite <- E. now apply in_map.
Qed.

Lemma cumulativePaths_last (parts : list string) : forall cur d,
  Forall (fun s => Js.nonEmpty s = true) parts -> parts <> [] ->
  List.last (cumulativePaths cur parts) d
  = if Js.nonEmpty cur then cur +:+ "/" +:+ Js.join "/" parts else Js.join "/" parts.
Proof.
  induction parts as [|part rest IH]; intros cur d Hne Hnil; [congruence |].
  inversion Hne as [|? ? Hpart Hrest]; subst.
  cbn [cumulativePaths].
  set (key := if Js.nonEmpty cur then cur +:+ "/" +:+ part else part).
  destruct rest as [|q rest]; [reflexivity |].
  rewrite last_cons_default, IH by (auto; discriminate).
  assert (Hk : Js.nonEmpty key = true).
  { unfold key. destruct (Js.nonEmpty cur); [|exact Hpart]. now destruct cur. }
  rewrite Hk. unfold key.
  change (Js.join "/" (part :: q :: rest)) with (part +:+ "/" +:+ Js.join "/" (q :: rest)).
  destruct (Js.nonEmpty cur); [|reflexivity].
  now rewrite !append_assoc.
Qed.

Lemma nested_dirname (file : TFile.t) :
  wellFormedFile file -> isNested file = true ->
  pathe.dirname (TFile.path file) = List.last (dirPathsOf file) "".
Proof.
  intros [_ Hwf] Hn. unfold dirPathsOf, isNested in *.
  pose proof (split_nonnil "/" (TFile.path file)) as Hnil.
  pose proof (split_all_noSlash (TFile.path file)) as Hns.
  pose proof (app_removelast_last "" Hnil) as E.
  set (parts := Js.split "/" (TFile.path file)) in *.
  assert (Hrl : removelast parts <> []).
  { destruct parts as [|a [|b l]]; cbn in *; congruence. }
  assert (Hrne : Forall (fun s => Js.nonEmpty s = true) (removelast parts))
    by now apply Forall_removelast.
  rewrite cumulativePaths_last by assumption. cbn [Js.nonEmpty].
  assert (Hl : In (List.last parts "") parts).
  { rewrite E at 2. apply in_or_app. right. now left. }
  assert (Hstrip : pathe.stripTrailingSlash (TFile.path file) = TFile.path file).
  { apply stripTrailingSlash_id. rewrite <- (join_split (TFile.path file)).
    fold parts. rewrite E, lastChar_join.
    - apply noSlash_lastChar. rewrite List.Forall_forall in Hns. auto.
    - rewrite List.Forall_forall in Hwf. specialize (Hwf _ Hl).
      intros E0. rewrite E0 in Hwf. discriminate. }
  unfold pathe.dirname. rewrite Hstrip. fold parts.
  change pathe.slash with "/"%char. fold parts.
  destruct (String.eqb (Js.join "/" (removelast parts)) "") eqn:Ed; [|reflexivity].
  apply String.eqb_eq in Ed. now apply join_nonempty in Ed.
Qed.

Section NavigationCompleteness.

Variable charMapExt : ascii -> option string.
Variable sortByPath : list TFile.t -> list TFile.t.

Local Abbreviation out := (fun f : TFile.t => getOutputPath charMapExt (TFile.path f)).

Lemma pageEntry_out (g : TFile.t) (x : list string * NavNode.t) :
  In x (pageEntryOf charMapExt g) -> NavNode.outputPath (snd x) = out g.
Proof.
  unfold pageEntryOf.
  destruct (isNested g); [destruct (isIndexName _)|]; cbn; intros H;
    try contradiction; now destruct H as [<- | []].
Qed.

Lemma pageEntry_leaf (g : TFile.t) (x : list string * NavNode.t) :
  In x (pageEntryOf charMapExt g) -> NavNode.children (snd x) = [].
Proof.
  unfold pageEntryOf.
  destruct (isNested g); [destruct (isIndexName _)|]; cbn; intros H;
    try contradiction; now destruct H as [<- | []].
Qed.

Lemma pageEntry_chain (g : TFile.t) (x : list string * NavNode.t) :
  In x (pageEntryOf charMapExt g) -> fst x = ancestorDirs g.
Proof.
  unfold pageEntryOf, ancestorDirs.
  destruct (isNested g) eqn:En.
  - destruct (isIndexName _); cbn; intros H; try contradiction.
    now destruct H as [<- | []].
  - rewrite (root_dirPaths g En). cbn. intros [<- | []].
    now destruct (isIndexName _).
Qed.

Lemma pages_filter (l : list TFile.t) (file : TFile.t) :
  List.NoDup (map out l) -> In file l ->
  List.filter (hasOutputPath (out file)) (flat_map (pageEntryOf charMapExt) l)
  = pageEntryOf charMapExt file.
Proof.
  induction l as [|g l IH]; intros Hnd Hin; [destruct Hin |].
  cbn [map] in Hnd. apply List.NoDup_cons_iff in Hnd as [Hg Hnd].
  cbn [flat_map]. rewrite List.filter_app.
  destruct (String.eqb (out g) (out file)) eqn:Eo.
  - apply String.eqb_eq in Eo.
    assert (g = file) as ->.
    { destruct Hin as [-> | Hin]; [reflexivity |].
      contradict Hg. rewrite Eo. now apply (in_map out). }
    rewrite filter_all, filter_none; [apply app_nil_r | |].
    + intros x (g & Hgl & Hx)%in_flat_map. unfold hasOutputPath.
      rewrite (pageEntry_out g x Hx). apply String.eqb_neq.
      intros E. apply Hg. rewrite <- E. now apply (in_map out).
    + intros x Hx. unfold hasOutputPath. rewrite (pageEntry_out file x Hx).
      apply String.eqb_refl.
  - destruct Hin as [-> | Hin]; [now rewrite String.eqb_refl in Eo |].
    rewrite filter_none, IH; auto.
    intros x Hx. unfold hasOutputPath. now rewrite (pageEntry_out g x Hx).
Qed.

Lemma same_index_output (g file : TFile.t) :
  wellFormedFile g -> wellFormedFile file ->
  isNested g = true -> isNested file = true ->
  isIndexName (TFile.basename g) = true -> isIndexName (TFile.basename file) = true ->
  List.last (dirPathsOf g) "" = List.last (dirPathsOf file) "" ->
  out g = out file.
Proof.
  intros Hg Hf Hng Hnf Hig Hif E. cbn beta.
  rewrite !getOutputPath_segments. unfold outputDirSegments, outputName.
  rewrite (nested_dirname g Hg Hng), (nested_dirname file Hf Hnf), E.
  destruct Hg as [<- _], Hf as [<- _]. now rewrite Hig, Hif.
Qed.


(** The state after the loop has exactly one array element with the
    output path of a given file, below the directory nodes of the
    file's ancestor directories. *)
Lemma navigation_state (files : list TFile.t) (L : nat)
    (m : gmap string DirNode.t) (R : list NodeRef)
    (S : list (list string * NodeRef)) (file : TFile.t) :
  NavShape L (mkNavBuild m R) S -> NavContent charMapExt files (mkNavBuild m R) S ->
  Forall wellFormedFile files -> List.NoDup (map out files) -> In file files ->
  length (List.filter (fun y => String.eqb (snd y) (out file))
            (map (chainAndOutputOf m) S)) = 1
  /\ In (ancestorDirs file, out file) (map (chainAndOutputOf m) S).
Proof.
  intros HS HC Hwf Hnd Hin.
  pose proof HC as [Hpages Hdirs Hfrom Hset]. cbn [dirMap rootNodes] in *.
  rewrite List.Forall_forall in Hwf.
  rewrite count_by_kind, Hpages, (pages_filter files file Hnd Hin).
  assert (Hback : forall k, String.eqb (outputPathOf m (DirRef k)) (out file) = true ->
            isNested file = true /\ isIndexName (TFile.basename file) = true
            /\ List.last (dirPathsOf file) "" = k).
  { intros k Hk. apply String.eqb_eq in Hk. cbn [outputPathOf] in Hk.
    destruct (m !! k) as [node|] eqn:Ek;
      [|now apply eq_sym, getOutputPath_nonempty in Hk].
    destruct (Hfrom k node Ek) as (g & Hg & Hng & Hig & Hlast & Eo).
    { rewrite Hk. apply getOutputPath_nonempty. }
    assert (g = file) as -> by (apply (NoDup_map_inj out files); auto; congruence).
    auto. }
  destruct (isNested file && isIndexName (TFile.basename file)) eqn:Ecase.
  - apply andb_prop in Ecase as [Hn Hi].
    destruct (nested_dirPaths file Hn) as [pre0 Epre].
    set (k0 := List.last (dirPathsOf file) "") in *.
    assert (Hk0 : In (pre0, DirRef k0) S) by exact (Hdirs file Hin Hn pre0 k0 [] Epre).
    assert (Ho : outputPathOf m (DirRef k0) = out file).
    { destruct (Hset file Hin Hn Hi) as (node & Ek & Hnz). fold k0 in Ek.
      destruct (Hfrom k0 node Ek Hnz) as (g & Hg & Hng & Hig & Hlast & Eo).
      cbn [outputPathOf]. rewrite Ek, Eo.
      apply same_index_output; auto. }
    split.
    + rewrite (filter_unique _ _ k0).
      * unfold pageEntryOf. now rewrite Hn, Hi.
      * exact (shape_nodup _ _ _ HS).
      * apply dirKeysIn_In. eauto.
      * rewrite Ho. apply String.eqb_refl.
      * intros x _ Hx. symmetry. now apply Hback.
    + apply in_map_iff. exists (pre0, DirRef k0). split; [|exact Hk0].
      unfold chainAndOutputOf, ancestorDirs. cbn [fst snd]. rewrite Ho, Hi, Epre.
      now rewrite removelast_last.
  - assert (Hentry : exists x, pageEntryOf charMapExt file = [x]).
    { unfold pageEntryOf. destruct (isNested file); [|eauto].
      destruct (isIndexName _); [discriminate | eauto]. }
    destruct Hentry as [[c pg] Hx]. rewrite Hx. split.
    + rewrite filter_none; [reflexivity |].
      intros k _. destruct (String.eqb _ _) eqn:Ek; [|reflexivity].
      destruct (Hback k Ek) as (Hn & Hi & _). now rewrite Hn, Hi in Ecase.
    + assert (Hxin : In (c, pg) (pageEntryOf charMapExt file)) by (rewrite Hx; now left).
      apply in_map_iff. exists (c, PageRef pg). split.
      * unfold chainAndOutputOf. cbn [fst snd outputPathOf].
        now rewrite <- (pageEntry_chain file _ Hxin), <- (pageEntry_out file _ Hxin).
      * apply pagesIn_In. rewrite Hpages. apply in_flat_map. eauto.
Qed.

(** C7, with the conditions under which it holds.  When the documents
    are well formed and no two of them have the same output path, then
    for every document the navigation tree has exactly one node with the
    document's output path, and the nodes above that node, from the root
    down, are the folder nodes of the document's ancestor directories
    (for the index document of a folder, whose node is the folder's own
    node, the directories above that folder). *)
Theorem navigation_completeness (files : list TFile.t) (file : TFile.t) :
  Permutation (sortByPath files) files ->
  Forall wellFormedFile files ->
  List.NoDup (map (fun f => getOutputPath charMapExt (TFile.path f)) files) ->
  In file files ->
  exists node,
    List.filter (hasOutputPath (getOutputPath charMapExt (TFile.path file)))
      (located (buildNavigationTree charMapExt sortByPath files))
    = [(ancestorDirs file, node)].
Proof.
  intros Hperm Hwf Hnd Hin.
  unfold buildNavigationTree, buildNavigationState, depthBound.
  set (L := list_max (map (fun f => String.length (TFile.path f)) files)).
  set (files' := sortByPath files) in *.
  assert (Hwf' : Forall wellFormedFile files')
    by (eapply Permutation_Forall; [symmetry; exact Hperm | exact Hwf]).
  assert (Hlen' : Forall (fun f => String.length (TFile.path f) <= L) files').
  { eapply Permutation_Forall; [symmetry; exact Hperm |].
    assert (H : Forall (fun k => k <= L)
                  (map (fun f => String.length (TFile.path f)) files))
      by now apply list_max_le.
    rewrite List.Forall_forall in H. apply List.Forall_forall. intros f Hf.
    apply H. now apply (in_map (fun f => String.length (TFile.path f))). }
  assert (Hnd' : List.NoDup (map out files')).
  { eapply Permutation_NoDup; [|exact Hnd]. apply Permutation_map. now symmetry. }
  assert (Hin' : In file files')
    by (eapply Permutation_in; [symmetry; exact Hperm | exact Hin]).
  destruct (nav_initial charMapExt L) as [HS0 HC0].
  destruct (fold_addFile_inv charMapExt L files' [] _ [] Hwf' Hlen' HS0 HC0)
    as (S & HS & HC).
  cbn [app] in HC.
  destruct (fold_left (addFile charMapExt) files' (mkNavBuild ∅ [])) as [m R].
  cbn [dirMap rootNodes].
  destruct (navigation_state files' L m R S file HS HC Hwf' Hnd' Hin') as [Hcount Hex].
  pose proof (shape_perm _ _ _ HS) as Hp. cbn [dirMap rootNodes] in Hp.
  assert (Hleaf : forall c pg,
            In (c, PageRef pg) (flat_map (locateRefs (Datatypes.S L) m []) R) ->
            NavNode.children pg = []).
  { intros c pg H. apply (Permutation_in _ Hp), pagesIn_In in H.
    rewrite (content_pages _ _ _ _ HC) in H.
    apply in_flat_map in H as (g & _ & H). exact (pageEntry_leaf g _ H). }
  pose proof (located_resolve m (Datatypes.S L) R Hleaf) as Hmap.
  set (tree := located (map (resolve (Datatypes.S L) m) R)) in *.
  assert (Hpm : Permutation (map chainAndOutput tree) (map (chainAndOutputOf m) S))
    by (rewrite Hmap; now apply Permutation_map).
  assert (Hlen : length (List.filter (hasOutputPath (out file)) tree) = 1).
  { rewrite <- Hcount, <- (Permutation_length (perm_filter _ _ _ Hpm)).
    rewrite filter_map_comm, length_map. reflexivity. }
  apply (Permutation_in _ (Permutation_sym Hpm)), in_map_iff in Hex
    as ([c node] & Ey & Hy).
  unfold chainAndOutput in Ey. cbn [fst snd] in Ey. injection Ey as -> Eo.
  exists node. apply filter_single; [exact Hlen | exact Hy |].
  unfold hasOutputPath. cbn [snd]. rewrite Eo. apply String.eqb_refl.
Qed.

End NavigationCompleteness.

(** ** Where the output files go *)

Lemma startsWith_append (p r : string) : Js.startsWith (p +:+ r) p = true.
Proof.
  induction p as [|c p IH]; [now destruct r |].
  cbn. now rewrite Ascii.eqb_refl, IH.
Qed.

Lemma drop_append (p r : string) : Js.drop (String.length p) (p +:+ r) = r.
Proof. induction p as [|c p IH]; [now destruct r | exact IH]. Qed.

Lemma join_site_prefix (rest : list string) :
  rest <> [] ->
  Js.join "/" (siteSegments ++ rest) = (sitePath +:+ "/") +:+ Js.join "/" rest.
Proof. destruct rest as [|a rest]; [congruence | reflexivity]. Qed.

Section SiteDirectory.

Variable charMapExt : ascii -> option string.

(** X1. Whatever the source path is, dot segments and empty segments
    included, the output path of a document is a path of clean segments
    below the site directory. *)
Theorem getOutputPath_inside_site (filePath : string) :
  Js.startsWith (getOutputPath charMapExt filePath) (sitePath +:+ "/") = true
  /\ Forall (fun s => cleanSegment s = true)
       (Js.split "/" (getOutputPath charMapExt filePath)).
Proof.
  rewrite getOutputPath_segments. split.
  - rewrite join_site_prefix by now destruct (outputDirSegments charMapExt filePath).
    apply startsWith_append.
  - pose proof (outputPath_clean charMapExt filePath) as Hc.
    rewrite <- app_assoc in Hc. rewrite split_join_clean; [exact Hc | discriminate | exact Hc].
Qed.

Lemma outputTail_pathChars (filePath : string) :
  Forall (fun s => pathChars s = true)
    (outputDirSegments charMapExt filePath
     ++ [outputName charMapExt filePath +:+ ".html"]).
Proof.
  apply Forall_app. split.
  - unfold outputDirSegments. apply List.Forall_forall.
    intros s [Hin _]%filter_In. apply in_map_iff in Hin as (x & <- & _).
    apply isSlug_pathChars, sanitizeFilename_isSlug.
  - constructor; [|constructor].
    pose proof (outputName_pathChars charMapExt filePath) as Hn.
    unfold pathChars in *. rewrite sforall_append, Hn. reflexivity.
Qed.

Lemma getPageUrl_output (filePath : string) :
  getPageUrl (getOutputPath charMapExt filePath)
  = Js.join "/" (outputDirSegments charMapExt filePath
                 ++ [outputName charMapExt filePath +:+ ".html"]).
Proof.
  unfold getPageUrl.
  rewrite getOutputPath_segments, join_site_prefix
    by now destruct (outputDirSegments charMapExt filePath).
  assert (Hr : forall r, Js.replaceFirst (sitePath +:+ "/") "" ((sitePath +:+ "/") +:+ r) = r)
    by reflexivity.
  rewrite Hr. apply backslashes_join, outputTail_pathChars.
Qed.

(** X2. [getPageUrl] gives the output path of a document without the site
    directory in front: the sanitized directories and the file name. *)
Theorem getPageUrl_of_output (filePath : string) :
  getPageUrl (getOutputPath charMapExt filePath)
  = Js.join "/" (outputDirSegments charMapExt filePath
                 ++ [outputName charMapExt filePath +:+ ".html"])
  /\ sitePath +:+ "/" +:+ getPageUrl (getOutputPath charMapExt filePath)
     = getOutputPath charMapExt filePath.
Proof.
  split; [apply getPageUrl_output |].
  rewrite getPageUrl_output, getOutputPath_segments, join_site_prefix
    by now destruct (outputDirSegments charMapExt filePath).
  now rewrite append_assoc.
Qed.

End SiteDirectory.

Section ImageOutput.

Variable charMapExt : ascii -> option string.

Lemma getImageOutputPath_segments (imagePath : string) :
  cleanSegment (pathe.basename imagePath "") = true ->
  getImageOutputPath charMapExt imagePath
  = Js.join "/" ((siteSegments ++ outputDirSegments charMapExt imagePath)
                 ++ [pathe.basename imagePath ""]).
Proof.
  intros Hf. rewrite <- app_assoc. unfold getImageOutputPath.
  destruct (String.eqb_spec (pathe.dirname imagePath) ".") as [E | _].
  - change (pathe.join [sitePath; pathe.basename imagePath ""])
      with (pathe.join [sitePath; ""; pathe.basename imagePath ""]).
    unfold outputDirSegments. rewrite E.
    apply join_site; auto.
  - apply join_site; auto.
    + unfold sanitizeDirectoryPath, outputDirSegments.
      rewrite split_join_noSlash; [reflexivity | |apply sanitized_noSlash].
      pose proof (split_nonnil "/" (pathe.dirname imagePath)).
      now destruct (Js.split "/" (pathe.dirname imagePath)).
    + apply sanitized_clean.
Qed.

Lemma imageOutputPath_clean (imagePath : string) :
  cleanSegment (pathe.basename imagePath "") = true ->
  Forall (fun s => cleanSegment s = true)
    ((siteSegments ++ outputDirSegments charMapExt imagePath)
     ++ [pathe.basename imagePath ""]).
Proof.
  intros Hf. apply Forall_app; split; [apply Forall_app; split|].
  - apply siteSegments_clean.
  - apply sanitized_clean.
  - now repeat constructor.
Qed.

(** X4. An image keeps its file name as it is (letter case, spaces and
    extension), below the sanitized directories of its source path. *)
Theorem getImageOutputPath_shape (imagePath : string) :
  let fileName := pathe.basename imagePath "" in
  let dirs := outputDirSegments charMapExt imagePath in
  cleanSegment fileName = true ->
  getImageOutputPath charMapExt imagePath
  = Js.join "/" (Js.split "/" sitePath ++ dirs) +:+ "/" +:+ fileName
  /\ pathe.dirname (getImageOutputPath charMapExt imagePath)
     = Js.join "/" (Js.split "/" sitePath ++ dirs)
  /\ pathe.basename (getImageOutputPath charMapExt imagePath) "" = fileName.
Proof.
  intros fileName dirs Hf.
  change (Js.split "/" sitePath) with siteSegments.
  pose proof (imageOutputPath_clean imagePath Hf) as Hc.
  rewrite (getImageOutputPath_segments imagePath Hf). fold fileName dirs in Hc |- *.
  split; [|split].
  - now rewrite join_snoc.
  - now apply dirname_join.
  - now apply basename_join.
Qed.

End ImageOutput.

Section RootPath.

Variable charMapExt : ascii -> option string.
Variable cwd : list string.
Hypothesis cwd_clean : Forall (fun s => cleanSegment s = true) cwd.

(** X5. The path from a page to the site root climbs one level for each
    directory of the page's output path, and is [./] for a page of the
    site root; it ends with a slash. *)
Theorem getRelativePathToRoot_depth (filePath : string) :
  getRelativePathToRoot cwd (getOutputPath charMapExt filePath)
  = match outputDirSegments charMapExt filePath with
    | [] => "./"
    | dirs => Js.join "/" (map (fun _ => "..") dirs) +:+ "/"
    end.
Proof.
  unfold getRelativePathToRoot.
  pose proof (outputPath_clean charMapExt filePath) as Hc.
  assert (Hd : pathe.dirname (getOutputPath charMapExt filePath)
               = Js.join "/" (siteSegments ++ outputDirSegments charMapExt filePath)).
  { rewrite getOutputPath_segments, app_assoc. now apply dirname_join. }
  rewrite Hd. change sitePath with (Js.join "/" siteSegments).
  apply Forall_app in Hc as [Hc _].
  rewrite relative_clean;
    [| exact cwd_clean | exact Hc | apply siteSegments_clean | discriminate | discriminate].
  set (dirs := outputDirSegments charMapExt filePath).
  assert (Hdc : pathe.dropCommon (siteSegments ++ dirs) siteSegments = (dirs, [])).
  { rewrite <- (app_nil_r siteSegments) at 2. rewrite dropCommon_prefix.
    now destruct dirs. }
  rewrite Hdc. cbn [fst snd]. rewrite app_nil_r.
  destruct dirs as [|d ds]; [reflexivity |].
  rewrite backslashes_join by (apply List.Forall_forall; intros s (x & <- & _)%in_map_iff; reflexivity).
  destruct ds; reflexivity.
Qed.

End RootPath.

(** ** Sanitized names *)

Lemma slugShape_hyphens (s : string) : forall afterDash,
  slugShape afterDash s = true ->
  Js.sforall (fun c => isSlugChar c || Ascii.eqb c "-") s = true
  /\ (afterDash = true -> Js.startsWith s "-" = false /\ s <> "")
  /\ Js.lastChar s <> Some "-"%char
  /\ Js.includes s "--" = false.
Proof.
  induction s as [|c r IH]; intros b H; cbn [slugShape] in H.
  - split; [reflexivity |]. split; [intros ->; discriminate H |].
    split; [discriminate | reflexivity].
  - destruct (Ascii.eqb_spec c "-") as [-> | Hc].
    + apply andb_prop in H as [Hb H]. apply negb_true_iff in Hb. subst b.
      destruct (IH true H) as (Hall & Hstart & Hlast & Hinc).
      destruct (Hstart eq_refl) as [Hs Hne].
      split; [cbn; now rewrite Hall, orb_true_r |].
      split; [discriminate |].
      split; [destruct r; [congruence | exact Hlast] |].
      cbn [Js.includes]. rewrite Hinc, orb_false_r.
      cbn. destruct r as [|c' r']; [reflexivity |].
      cbn in Hs |- *. now rewrite andb_true_r in *.
    + apply andb_prop in H as [Hsl H].
      destruct (IH false H) as (Hall & _ & Hlast & Hinc).
      assert (Hcd : Ascii.eqb "-" c = false)
        by (apply Ascii.eqb_neq; congruence).
      split; [cbn [Js.sforall]; now rewrite Hsl, Hall |].
      split; [intros _; split; [cbn [Js.startsWith]; now rewrite Hcd | discriminate] |].
      split.
      * destruct r; [intros [= E]; congruence | exact Hlast].
      * cbn [Js.includes]. rewrite Hinc, orb_false_r.
        cbn [Js.startsWith]. now rewrite Hcd.
Qed.

Section SanitizedNames.

Variable charMapExt : ascii -> option string.

(** X7. A sanitized name has only lower-case letters, digits and hyphens,
    with no hyphen at either end and no two hyphens in a row. *)
Theorem sanitizeFilename_charset (filename : string) :
  let out := sanitizeFilename charMapExt filename in
  Js.sforall (fun c => Js.isLower c || Js.isDigit c || Ascii.eqb c "-") out = true
  /\ Js.startsWith out "-" = false
  /\ Js.lastChar out <> Some "-"%char
  /\ Js.includes out "--" = false.
Proof.
  intros out. pose proof (sanitizeFilename_isSlug charMapExt filename) as H.
  fold out in H. unfold isSlug in H. apply orb_prop in H as [H | H].
  - apply String.eqb_eq in H. rewrite H.
    split; [reflexivity |]. split; [reflexivity |]. split; [discriminate | reflexivity].
  - destruct (slugShape_hyphens out true H) as (Hall & Hstart & Hlast & Hinc).
    destruct (Hstart eq_refl) as [Hs _]. auto.
Qed.

(** X8. [sanitizeDirectoryPath] sanitizes a path segment by segment, keeping
    the number of segments, and sanitizing again changes nothing. *)
Theorem sanitizeDirectoryPath_segments (dirPath : string) :
  Js.split "/" (sanitizeDirectoryPath charMapExt dirPath)
  = map (sanitizeFilename charMapExt) (Js.split "/" dirPath)
  /\ sanitizeDirectoryPath charMapExt (sanitizeDirectoryPath charMapExt dirPath)
     = sanitizeDirectoryPath charMapExt dirPath.
Proof.
  assert (E : Js.split "/" (sanitizeDirectoryPath charMapExt dirPath)
              = map (sanitizeFilename charMapExt) (Js.split "/" dirPath)).
  { unfold sanitizeDirectoryPath.
    apply split_join_noSlash; [|apply sanitized_noSlash].
    pose proof (split_nonnil "/" dirPath).
    now destruct (Js.split "/" dirPath). }
  split; [exact E |].
  unfold sanitizeDirectoryPath at 1. rewrite E. unfold sanitizeDirectoryPath.
  f_equal. rewrite map_map. apply map_ext. intros s.
  apply sanitizeFilename_slug, sanitizeFilename_isSlug.
Qed.

End SanitizedNames.

(** ** Text without markers, and image lookup *)

Lemma includes_cons (c : ascii) (r sub : string) :
  Js.includes (String c r) sub = false ->
  Js.startsWith (String c r) sub = false /\ Js.includes r sub = false.
Proof. cbn [Js.includes]. intros H. now apply orb_false_elim in H. Qed.

Lemma includes_start (s sub : string) :
  Js.includes s sub = false -> Js.startsWith s sub = false.
Proof.
  destruct s; cbn [Js.includes]; intros H; now apply orb_false_elim in H as [H _].
Qed.

Lemma bracketMatch_start (s : string) :
  Js.startsWith s "[[" = false -> bracketMatch s = None.
Proof.
  destruct s as [|a [|b r]]; try reflexivity. cbn [bracketMatch Js.startsWith].
  rewrite (Ascii.eqb_sym a), (Ascii.eqb_sym b), andb_true_r.
  now intros ->.
Qed.

Lemma replaceAll_plain (regex : bool -> string -> option (string * nat))
    (f : string -> string) :
  (forall prevBang s, Js.includes s "[[" = false -> regex prevBang s = None) ->
  forall s prevBang, Js.includes s "[[" = false -> replaceAll regex f prevBang 0 s = s.
Proof.
  intros Hre. induction s as [|c r IH]; intros pb H; [reflexivity |].
  cbn [replaceAll]. rewrite (Hre pb _ H).
  apply includes_cons in H as [_ H]. now rewrite IH.
Qed.

Section PlainText.

Variable charMapExt : ascii -> option string.
Variable cwd : list string.

(** X9. A text in which two opening brackets never follow each other has no
    reference and no embed: the two rewriters leave it as it is. *)
Theorem rewriteLinks_plain (files imageFiles : list TFile.t) (content : string)
    (file : TFile.t) :
  Js.includes content "[[" = false ->
  convertWikiLinks charMapExt cwd files content file = content
  /\ convertImageEmbeds charMapExt cwd imageFiles content file = content
  /\ rewriteLinks charMapExt cwd files imageFiles content file = content.
Proof.
  intros H.
  assert (Hw : convertWikiLinks charMapExt cwd files content file = content).
  { apply replaceAll_plain; [|exact H].
    intros pb s Hs. unfold wikiLinkRegex. destruct pb; [reflexivity |].
    apply bracketMatch_start, includes_start, Hs. }
  assert (Hi : convertImageEmbeds charMapExt cwd imageFiles content file = content).
  { apply replaceAll_plain; [|exact H].
    intros pb s Hs. unfold imageEmbedRegex. destruct s as [|a r]; [reflexivity |].
    destruct (Ascii.eqb a "!"); [|reflexivity].
    apply includes_cons in Hs as [_ Hs].
    now rewrite (bracketMatch_start r (includes_start _ _ Hs)). }
  split; [exact Hw |]. split; [exact Hi |].
  unfold rewriteLinks. now rewrite Hw.
Qed.

End PlainText.

(** X11. [findImageFile] is one loop: the first image of the list that has
    the reference as its path, its name or its base name, whichever of
    the three it is; nothing when no image has. *)
Theorem findImageFile_first_match (imageFiles : list TFile.t) (imageName : string) :
  let matches := fun f => TFile.path f = imageName \/ TFile.name f = imageName
                          \/ TFile.basename f = imageName in
  match findImageFile imageFiles imageName with
  | Some f =>
      exists before after, imageFiles = before ++ f :: after
        /\ matches f /\ Forall (fun g => ~ matches g) before
  | None => Forall (fun g => ~ matches g) imageFiles
  end.
Proof.
  intros matches. induction imageFiles as [|g rest IH]; [constructor |].
  cbn [findImageFile].
  destruct (String.eqb_spec (TFile.path g) imageName) as [Ep | Np].
  { exists [], rest. repeat split; [now left | constructor]. }
  destruct (String.eqb_spec (TFile.name g) imageName) as [En | Nn].
  { exists [], rest. repeat split; [right; now left | constructor]. }
  destruct (String.eqb_spec (TFile.basename g) imageName) as [Eb | Nb].
  { exists [], rest. repeat split; [right; now right | constructor]. }
  cbn [orb].
  assert (Hg : ~ matches g) by (intros [? | [? | ?]]; contradiction).
  destruct (findImageFile rest imageName) as [f|].
  - destruct IH as (before & after & -> & Hf & Hb).
    exists (g :: before), after. repeat split; [exact Hf | now constructor].
  - now constructor.
Qed.

(** ** The rendered navigation *)

Lemma NavNode_nested_ind (P : NavNode.t -> Prop) :
  (forall name path outputPath children isIndex,
     Forall P children -> P (NavNode.mk name path outputPath children isIndex)) ->
  forall node, P node.
Proof.
  intros H. fix IH 1. intros [n p o ch i]. apply H.
  induction ch as [|c ch IHch]; constructor; [apply IH | exact IHch].
Qed.

Lemma existsb_flat_map {A B : Type} (p : B -> bool) (f : A -> list B) (l : list A) :
  existsb p (flat_map f l) = existsb (fun a => existsb p (f a)) l.
Proof.
  induction l as [|a l IH]; [reflexivity |].
  cbn [flat_map existsb]. now rewrite existsb_app, IH.
Qed.

Lemma isNodeOnPathToFile_locate (currentPath : string) (node : NavNode.t) :
  forall above,
    isNodeOnPathToFile node currentPath
    = existsb (hasOutputPath currentPath) (locate above node).
Proof.
  induction node as [n p o ch i IH] using NavNode_nested_ind. intros above.
  cbn [isNodeOnPathToFile locate existsb NavNode.outputPath NavNode.children NavNode.path].
  unfold hasOutputPath at 1. cbn [snd NavNode.outputPath]. f_equal.
  rewrite existsb_flat_map.
  induction IH as [|c ch Hc _ IHch]; [reflexivity |].
  cbn [existsb]. now rewrite (Hc (above ++ [p])), IHch.
Qed.

(** X13. A folder of the navigation is on the path to the current page, and
    so rendered open, exactly when the page's node is the folder's own
    node or a node somewhere below it. *)
Theorem isNodeOnPathToFile_subtree (node : NavNode.t) (currentPath : string) :
  isNodeOnPathToFile node currentPath = true
  <-> exists above below,
        In (above, below) (locate [] node)
        /\ NavNode.outputPath below = currentPath.
Proof.
  rewrite (isNodeOnPathToFile_locate currentPath node []), existsb_exists. split.
  - intros ([c n] & Hin & E). exists c, n. split; [exact Hin |].
    now apply String.eqb_eq in E.
  - intros (c & n & Hin & E). exists (c, n). split; [exact Hin |].
    now apply String.eqb_eq.
Qed.

Lemma fold_html (item : NavNode.t -> string) (nodes : list NavNode.t) : forall html,
  fold_left (fun html node => html +:+ item node) nodes html
  = html +:+ fold_left (fun html node => html +:+ item node) nodes "".
Proof.
  induction nodes as [|n nodes IH]; intros html; cbn [fold_left].
  - now rewrite append_nil_r.
  - rewrite IH, (IH ("" +:+ item n)). cbn [String.append]. now rewrite append_assoc.
Qed.

Lemma navList_occurs (sub : string) (item : NavNode.t -> string)
    (nodes : list NavNode.t) (n : NavNode.t) :
  In n nodes -> occursIn sub (item n) -> occursIn sub (navList item nodes).
Proof.
  intros Hin Hocc.
  assert (H : forall html,
            occursIn sub (fold_left (fun html node => html +:+ item node) nodes html)).
  { induction nodes as [|a nodes IH]; [destruct Hin |]. intros html.
    cbn [fold_left]. destruct Hin as [-> | Hin]; [|now apply IH].
    rewrite fold_html. now apply occursIn_app_l, occursIn_app_r. }
  unfold navList. destruct nodes; [destruct Hin |]. apply occursIn_app_l, H.
Qed.

Lemma occursIn_cons (sub : string) (c : ascii) (s : string) :
  occursIn sub s -> occursIn sub (String c s).
Proof. intros (a & b & ->). now exists (String c a), b. Qed.

(** Finds the part of a concatenation in which [H] tells that the text
    occurs. *)
Ltac occurs_by H :=
  solve [ exact H
        | apply occursIn_cons; occurs_by H
        | apply occursIn_app_l; occurs_by H
        | apply occursIn_app_r; occurs_by H ].

Section RenderedNavigation.

Variable charMapExt : ascii -> option string.
Variable cwd : list string.

Lemma navLabel_link (currentPath : string) (node : NavNode.t) :
  NavNode.outputPath node <> "" ->
  occursIn (navLinkTo cwd currentPath (NavNode.outputPath node)) (navLabel cwd currentPath node).
Proof.
  intros Hne. unfold navLabel, navLinkTo, Js.nonEmpty.
  destruct (String.eqb_spec (NavNode.outputPath node) "") as [E | _]; [contradiction |].
  cbn [negb]. exists "", ((if String.eqb (NavNode.outputPath node) currentPath
                           then " class=" +:+ Js.dq +:+ "active" +:+ Js.dq else "")
                          +:+ ">" +:+ NavNode.name node +:+ "</a>").
  cbn [String.append]. now rewrite !append_assoc.
Qed.

Lemma renderNavItem_links (currentPath : string) (node : NavNode.t) :
  forall above c n,
    In (c, n) (locate above node) -> NavNode.outputPath n <> "" ->
    occursIn (navLinkTo cwd currentPath (NavNode.outputPath n))
      (renderNavItem cwd currentPath node).
Proof.
  induction node as [nm p o ch i IH] using NavNode_nested_ind.
  intros above c n Hin Hne.
  cbn [locate NavNode.children NavNode.path] in Hin.
  cbn [renderNavItem NavNode.children NavNode.path].
  destruct Hin as [[= <- <-] | Hin].
  - pose proof (navLabel_link currentPath (NavNode.mk nm p o ch i) Hne) as Hl.
    cbn [NavNode.outputPath] in Hl.
    destruct (negb (Nat.eqb (length ch) 0)); occurs_by Hl.
  - apply in_flat_map in Hin as (child & Hchild & Hin).
    rewrite List.Forall_forall in IH.
    pose proof (navList_occurs _ (renderNavItem cwd currentPath) _ child Hchild
                  (IH child Hchild _ c n Hin Hne)) as Hl.
    destruct ch as [|c0 ch0]; [destruct Hchild |]. cbn [length Nat.eqb negb].
    occurs_by Hl.
Qed.

Lemma renderNavTree_links (forest : list NavNode.t) (currentPath : string)
    (c : list string) (n : NavNode.t) :
  In (c, n) (located forest) -> NavNode.outputPath n <> "" ->
  occursIn (navLinkTo cwd currentPath (NavNode.outputPath n))
    (renderNavTree cwd forest currentPath).
Proof.
  unfold located. intros (root & Hroot & Hin)%in_flat_map Hne.
  apply (navList_occurs _ _ _ root Hroot).
  exact (renderNavItem_links currentPath root [] c n Hin Hne).
Qed.

End RenderedNavigation.

Section NavigationEntries.

Variable charMapExt : ascii -> option string.
Variable cwd : list string.
Variable sortByPath : list TFile.t -> list TFile.t.

Lemma navigation_final_state (files : list TFile.t) :
  Permutation (sortByPath files) files ->
  Forall wellFormedFile files ->
  exists L m R S,
    NavShape L (mkNavBuild m R) S
    /\ NavContent charMapExt (sortByPath files) (mkNavBuild m R) S
    /\ Permutation
         (map chainAndOutput (located (buildNavigationTree charMapExt sortByPath files)))
         (map (chainAndOutputOf m) S).
Proof.
  intros Hperm Hwf.
  unfold buildNavigationTree, buildNavigationState, depthBound.
  set (L := list_max (map (fun f => String.length (TFile.path f)) files)).
  set (files' := sortByPath files) in *.
  assert (Hwf' : Forall wellFormedFile files')
    by (eapply Permutation_Forall; [symmetry; exact Hperm | exact Hwf]).
  assert (Hlen' : Forall (fun f => String.length (TFile.path f) <= L) files').
  { eapply Permutation_Forall; [symmetry; exact Hperm |].
    assert (H : Forall (fun k => k <= L)
                  (map (fun f => String.length (TFile.path f)) files))
      by now apply list_max_le.
    rewrite List.Forall_forall in H. apply List.Forall_forall. intros f Hf.
    apply H. now apply (in_map (fun f => String.length (TFile.path f))). }
  destruct (nav_initial charMapExt L) as [HS0 HC0].
  destruct (fold_addFile_inv charMapExt L files' [] _ [] Hwf' Hlen' HS0 HC0)
    as (S & HS & HC).
  cbn [app] in HC.
  destruct (fold_left (addFile charMapExt) files' (mkNavBuild ∅ [])) as [m R].
  cbn [dirMap rootNodes]. exists L, m, R, S.
  split; [exact HS |]. split; [exact HC |].
  pose proof (shape_perm _ _ _ HS) as Hp. cbn [dirMap rootNodes] in Hp.
  rewrite located_resolve; [now apply Permutation_map |].
  intros c pg H. apply (Permutation_in _ Hp), pagesIn_In in H.
  rewrite (content_pages _ _ _ _ HC) in H.
  apply in_flat_map in H as (g & _ & H). exact (pageEntry_leaf charMapExt g _ H).
Qed.

Lemma navigation_has_entry (done : list TFile.t) (L : nat)
    (m : gmap string DirNode.t) (R : list NodeRef)
    (S : list (list string * NodeRef)) (file : TFile.t) :
  NavContent charMapExt done (mkNavBuild m R) S ->
  Forall wellFormedFile done -> In file done ->
  In (ancestorDirs file, getOutputPath charMapExt (TFile.path file))
    (map (chainAndOutputOf m) S).
Proof.
  intros [Hpages Hdirs Hfrom Hset] Hwf Hin. cbn [dirMap rootNodes] in *.
  rewrite List.Forall_forall in Hwf. apply in_map_iff.
  destruct (isNested file && isIndexName (TFile.basename file)) eqn:Ecase.
  - apply andb_prop in Ecase as [Hn Hi].
    destruct (nested_dirPaths file Hn) as [pre0 Epre].
    set (k0 := List.last (dirPathsOf file) "") in *.
    exists (pre0, DirRef k0). split; [|exact (Hdirs file Hin Hn pre0 k0 [] Epre)].
    destruct (Hset file Hin Hn Hi) as (node & Ek & Hnz). fold k0 in Ek.
    destruct (Hfrom k0 node Ek Hnz) as (g & Hg & Hng & Hig & Hlast & Eo).
    unfold chainAndOutputOf, ancestorDirs. cbn [fst snd outputPathOf].
    rewrite Ek, Eo, Hi, Epre, removelast_last. f_equal.
    apply (same_index_output charMapExt); auto.
  - assert (Hentry : exists x, pageEntryOf charMapExt file = [x]).
    { unfold pageEntryOf. destruct (isNested file); [|eauto].
      destruct (isIndexName _); [discriminate | eauto]. }
    destruct Hentry as [[c pg] Hx].
    assert (Hxin : In (c, pg) (pageEntryOf charMapExt file)) by (rewrite Hx; now left).
    exists (c, PageRef pg). split.
    + unfold chainAndOutputOf. cbn [fst snd outputPathOf].
      now rewrite <- (pageEntry_chain charMapExt file _ Hxin),
                  <- (pageEntry_out charMapExt file _ Hxin).
    + apply pagesIn_In. rewrite Hpages. apply in_flat_map. eauto.
Qed.

Lemma navigation_entry_from (done : list TFile.t) (L : nat)
    (m : gmap string DirNode.t) (R : list NodeRef)
    (S : list (list string * NodeRef)) (c : list string) (o : string) :
  NavShape L (mkNavBuild m R) S ->
  NavContent charMapExt done (mkNavBuild m R) S ->
  In (c, o) (map (chainAndOutputOf m) S) -> o <> "" ->
  exists file, In file done
    /\ o = getOutputPath charMapExt (TFile.path file) /\ c = ancestorDirs file.
Proof.
  intros HS [Hpages Hdirs Hfrom Hset] Hin Hne. cbn [dirMap rootNodes] in *.
  apply in_map_iff in Hin as ([c' [k | pg]] & [= <- <-] & Hin); cbn [snd outputPathOf] in *.
  - destruct (m !! k) as [node|] eqn:Ek; [|congruence].
    destruct (Hfrom k node Ek Hne) as (g & Hg & Hng & Hig & Hlast & Eo).
    exists g. split; [exact Hg |]. split; [exact Eo |].
    destruct (nested_dirPaths g Hng) as [pre0 Epre]. rewrite Hlast in Epre.
    pose proof (Hdirs g Hg Hng pre0 k [] Epre) as Hk.
    rewrite (chain_unique k c' pre0 S (shape_nodup _ _ _ HS) Hin Hk).
    unfold ancestorDirs. now rewrite Hig, Epre, removelast_last.
  - apply pagesIn_In in Hin. rewrite Hpages in Hin.
    apply in_flat_map in Hin as (g & Hg & Hx). exists g. split; [exact Hg |].
    split; [exact (pageEntry_out charMapExt g _ Hx) |].
    exact (pageEntry_chain charMapExt g _ Hx).
Qed.

(** X14. The navigation of every page has a link to every document of the
    site: for each well-formed document, the relative path from the
    current page to the document's output path is the target of a link
    of the rendered tree. *)
Theorem generateNavigation_links_every_document (files : list TFile.t)
    (file : TFile.t) (currentPath : string) :
  Permutation (sortByPath files) files ->
  Forall wellFormedFile files ->
  In file files ->
  occursIn
    ("<a href=" +:+ Js.dq
     +:+ getRelativePath cwd currentPath (getOutputPath charMapExt (TFile.path file))
     +:+ Js.dq)
    (generateNavigation charMapExt cwd sortByPath files currentPath).
Proof.
  intros Hperm Hwf Hin.
  destruct (navigation_final_state files Hperm Hwf) as (L & m & R & S & HS & HC & Hpm).
  assert (Hwf' : Forall wellFormedFile (sortByPath files))
    by (eapply Permutation_Forall; [symmetry; exact Hperm | exact Hwf]).
  assert (Hin' : In file (sortByPath files))
    by (eapply Permutation_in; [symmetry; exact Hperm | exact Hin]).
  pose proof (navigation_has_entry _ L m R S file HC Hwf' Hin') as Hex.
  apply (Permutation_in _ (Permutation_sym Hpm)), in_map_iff in Hex
    as ([c node] & [= _ Eo] & Hy).
  cbn [snd] in Eo. unfold generateNavigation.
  pose proof (renderNavTree_links cwd _ currentPath c node Hy) as Hl.
  rewrite Eo in Hl. apply Hl, getOutputPath_nonempty.
Qed.

(** X15. Every node of the navigation tree that has an output path has the
    output path of one of the documents, and sits below the folder nodes
    of that document's ancestor directories: the tree links to nothing
    that is not generated. *)
Theorem navigation_nodes_are_documents (files : list TFile.t)
    (above : list string) (node : NavNode.t) :
  Permutation (sortByPath files) files ->
  Forall wellFormedFile files ->
  In (above, node) (located (buildNavigationTree charMapExt sortByPath files)) ->
  NavNode.outputPath node <> "" ->
  exists file, In file files
    /\ NavNode.outputPath node = getOutputPath charMapExt (TFile.path file)
    /\ above = ancestorDirs file.
Proof.
  intros Hperm Hwf Hin Hne.
  destruct (navigation_final_state files Hperm Hwf) as (L & m & R & S & HS & HC & Hpm).
  apply (in_map chainAndOutput) in Hin. apply (Permutation_in _ Hpm) in Hin.
  destruct (navigation_entry_from _ L m R S _ _ HS HC Hin Hne) as (file & Hf & Eo & Ec).
  exists file. split; [|now split].
  eapply Permutation_in; [exact Hperm | exact Hf].
Qed.

End NavigationEntries.

(** ** The sitemap generator's state and its escaping *)

Lemma escapeChar_cons (c : ascii) :
  exists h t, SitemapGenerator.escapeChar c = String h t.
Proof.
  unfold SitemapGenerator.escapeChar.
  repeat match goal with
         | |- context [Ascii.eqb ?a ?b] => destruct (Ascii.eqb a b)
         end; eauto.
Qed.

Lemma escapeChar_inj (c d : ascii) (x y : string) :
  SitemapGenerator.escapeChar c +:+ x = SitemapGenerator.escapeChar d +:+ y ->
  c = d /\ x = y.
Proof.
  unfold SitemapGenerator.escapeChar.
  repeat match goal with
         | |- context [Ascii.eqb ?a ?b] => destruct (Ascii.eqb_spec a b)
         end; subst; cbn [String.append]; intros H; split; congruence.
Qed.

(** X16. Escaping loses nothing: two texts have the same escaped form exactly
    when they are the same text. *)
Theorem escapeXml_injective (a b : string) :
  SitemapGenerator.escapeXml a = SitemapGenerator.escapeXml b <-> a = b.
Proof.
  split; [|now intros ->].
  unfold SitemapGenerator.escapeXml. revert b.
  induction a as [|c a IH]; intros [|d b]; cbn [Js.sbind]; intros H.
  - reflexivity.
  - destruct (escapeChar_cons d) as (h & t & E). rewrite E in H. discriminate H.
  - destruct (escapeChar_cons c) as (h & t & E). rewrite E in H. discriminate H.
  - apply escapeChar_inj in H as [-> H]. now rewrite (IH b H).
Qed.

Lemma escapeChar_length (c : ascii) :
  1 <= String.length (SitemapGenerator.escapeChar c).
Proof.
  unfold SitemapGenerator.escapeChar.
  repeat match goal with
         | |- context [Ascii.eqb ?a ?b] => destruct (Ascii.eqb a b)
         end; cbn; lia.
Qed.

Lemma escapeXml_length (text : string) :
  String.length text <= String.length (SitemapGenerator.escapeXml text).
Proof.
  unfold SitemapGenerator.escapeXml.
  induction text as [|c text IH]; [reflexivity |].
  cbn [Js.sbind String.length]. rewrite length_append.
  pose proof (escapeChar_length c). lia.
Qed.

(** X17. [escapeXml] changes a text exactly when the text has one of the five
    characters it replaces, and never makes a text shorter. *)
Theorem escapeXml_plain (text : string) :
  (SitemapGenerator.escapeXml text = text
   <-> Js.sforall (fun c => negb (Ascii.eqb c "&" || Ascii.eqb c "<"
                                  || Ascii.eqb c ">" || Ascii.eqb c "034"
                                  || Ascii.eqb c "'")) text = true)
  /\ String.length text <= String.length (SitemapGenerator.escapeXml text).
Proof.
  split; [|apply escapeXml_length].
  unfold SitemapGenerator.escapeXml.
  induction text as [|c text IH]; [now split |].
  cbn [Js.sbind Js.sforall]. unfold SitemapGenerator.escapeChar at 1.
  pose proof (escapeXml_length text) as Hlen. unfold SitemapGenerator.escapeXml in Hlen.
  assert (Hspecial : forall pre : string,
            1 < String.length pre ->
            pre +:+ Js.sbind SitemapGenerator.escapeChar text <> String c text).
  { intros pre Hpre E. apply (f_equal String.length) in E.
    rewrite length_append in E. cbn in E. lia. }
  destruct (Ascii.eqb_spec c "&") as [E1 | N1].
  { cbn. split; [intros E | discriminate].
    destruct (Hspecial "&amp;"); [cbn; lia | exact E]. }
  destruct (Ascii.eqb_spec c "<") as [E2 | N2].
  { cbn. split; [intros E | discriminate].
    destruct (Hspecial "&lt;"); [cbn; lia | exact E]. }
  destruct (Ascii.eqb_spec c ">") as [E3 | N3].
  { cbn. split; [intros E | discriminate].
    destruct (Hspecial "&gt;"); [cbn; lia | exact E]. }
  destruct (Ascii.eqb_spec c "034") as [E4 | N4].
  { cbn. split; [intros E | discriminate].
    destruct (Hspecial "&quot;"); [cbn; lia | exact E]. }
  destruct (Ascii.eqb_spec c "'") as [E5 | N5].
  { cbn. split; [intros E | discriminate].
    destruct (Hspecial "&apos;"); [cbn; lia | exact E]. }
  cbn [String.append orb negb andb]. rewrite <- IH.
  split; [now intros [= ->] | now intros ->].
Qed.

Section SitemapState.

Variable numberToString : Q -> string.

(** X18. One slash at the end of the site URL makes no difference to the
    sitemap; of two slashes only the last one is dropped. *)
Theorem hostname_trailing_slash (host : string) (entries : list SitemapUrl.t) :
  Js.lastChar host <> Some "/"%char ->
  SitemapGenerator.toXml numberToString
    (fold_left SitemapGenerator.addUrl entries (SitemapGenerator.new (host +:+ "/")))
  = SitemapGenerator.toXml numberToString
      (fold_left SitemapGenerator.addUrl entries (SitemapGenerator.new host))
  /\ SitemapGenerator.hostname (SitemapGenerator.new (host +:+ "//")) = host +:+ "/".
Proof.
  intros Hlast.
  assert (E : SitemapGenerator.new (host +:+ "/") = SitemapGenerator.new host).
  { unfold SitemapGenerator.new. f_equal.
    rewrite (stripTrailingSlash_id host Hlast).
    unfold pathe.stripTrailingSlash. now rewrite stripSuffix_app. }
  rewrite E. split; [reflexivity |].
  unfold SitemapGenerator.new, pathe.stripTrailingSlash. cbn [SitemapGenerator.hostname].
  change (host +:+ "//") with (host +:+ "/" +:+ "/").
  now rewrite <- append_assoc, stripSuffix_app.
Qed.

(** X19. After [clear], the generator serializes the entries added since, and
    only those, under the host name it had; [getUrlCount] counts them. *)
Theorem clear_then_add (g : SitemapGenerator.t) (entries : list SitemapUrl.t) :
  let g' := fold_left SitemapGenerator.addUrl entries (SitemapGenerator.clear g) in
  SitemapGenerator.getUrlCount g' = length entries
  /\ SitemapGenerator.toXml numberToString g'
     = SitemapGenerator.xmlHeader +:+ Js.nl +:+ SitemapGenerator.urlsetOpen +:+ Js.nl
       +:+ Js.join Js.nl
             (map (SitemapGenerator.generateUrlEntry numberToString
                     (SitemapGenerator.mk [] (SitemapGenerator.hostname g))) entries)
       +:+ Js.nl +:+ "</urlset>".
Proof.
  intros g'. destruct (urls_fold entries (SitemapGenerator.clear g)) as [Hu Hh].
  fold g' in Hu, Hh. cbn in Hu, Hh.
  split; [unfold SitemapGenerator.getUrlCount; now rewrite Hu |].
  unfold SitemapGenerator.toXml. rewrite Hu. do 4 f_equal.
  apply (f_equal (fun l => Js.join Js.nl l +:+ Js.nl +:+ "</urlset>")).
  apply map_ext. intros url. unfold SitemapGenerator.generateUrlEntry.
  cbn [SitemapGenerator.hostname]. now rewrite Hh.
Qed.

End SitemapState.

(** ** The files that are processed, and their batches *)

Lemma firstSegment_startsWith (seg s : string) :
  noSlash seg = true ->
  (String.eqb (hd "" (Js.split "/" s)) seg
   = (Js.startsWith s (seg +:+ "/") || String.eqb s seg)).
Proof.
  revert s. induction seg as [|c seg IH]; intros s Hns.
  - destruct s as [|d s]; [reflexivity |]. cbn [String.append Js.startsWith Js.split].
    rewrite (Ascii.eqb_sym "/" d).
    destruct (Ascii.eqb d "/"); [reflexivity |].
    cbn [andb orb]. pose proof (split_nonnil "/" s).
    now destruct (Js.split "/" s).
  - cbn [noSlash Js.sforall] in Hns. apply andb_prop in Hns as [Hc Hns].
    apply negb_true_iff in Hc. fold (noSlash seg) in Hns.
    destruct s as [|d s]; [reflexivity |].
    cbn [String.append Js.startsWith Js.split].
    destruct (Ascii.eqb_spec d "/") as [-> | Hd].
    + cbn [hd String.eqb]. rewrite (Ascii.eqb_sym "/" c), Hc. reflexivity.
    + pose proof (split_nonnil "/" s) as Hnil. specialize (IH s Hns).
      destruct (Js.split "/" s) as [|h t]; [congruence |]. cbn [hd] in *.
      cbn [String.eqb]. rewrite (Ascii.eqb_sym c d).
      destruct (Ascii.eqb d c); [exact IH | reflexivity].
Qed.

Section ProcessedFiles.

Variable normalizePath : string -> string.
Hypothesis normalizePath_outputPath : normalizePath outputPath = outputPath.

(** X20. A file is left out exactly when the first segment of its normalized
    path is the output directory: a file or folder whose name only
    starts with [obsidian-foursg] is processed.  The files that are
    processed are the others, in the order of the vault. *)
Theorem isInOutputPath_first_segment (allMarkdownFiles : list TFile.t) :
  (forall filePath,
     isInOutputPath normalizePath filePath
     = String.eqb (hd "" (Js.split "/" (normalizePath filePath))) FOURSG_OUTPUT_DIR)
  /\ getFilteredMarkdownFiles normalizePath allMarkdownFiles
     = List.filter
         (fun file =>
            negb (String.eqb (hd "" (Js.split "/" (normalizePath (TFile.path file))))
                    FOURSG_OUTPUT_DIR))
         allMarkdownFiles.
Proof.
  assert (H : forall filePath,
            isInOutputPath normalizePath filePath
            = String.eqb (hd "" (Js.split "/" (normalizePath filePath)))
                FOURSG_OUTPUT_DIR).
  { intros filePath. unfold isInOutputPath. rewrite normalizePath_outputPath.
    symmetry. now apply firstSegment_startsWith. }
  split; [exact H |].
  unfold getFilteredMarkdownFiles. induction allMarkdownFiles as [|f l IH]; [reflexivity |].
  cbn [List.filter]. now rewrite H, IH.
Qed.

End ProcessedFiles.

Lemma batchesFrom_spec (files : list TFile.t) (fuel : nat) : forall i,
  length files <= i + fuel ->
  exists bs,
    batchesFrom fuel i files = Some bs
    /\ concat bs = skipn i files
    /\ Forall (fun b => 1 <= length b <= batchSize) bs
    /\ (forall pre b post, bs = pre ++ b :: post -> post <> [] ->
          length b = batchSize).
Proof.
  induction fuel as [|fuel IH]; intros i Hfuel.
  - exists []. cbn [batchesFrom].
    destruct (Nat.ltb_spec i (length files)) as [Hlt | Hge]; [lia |].
    split; [reflexivity |]. split; [now rewrite skipn_all2 |].
    split; [constructor |]. intros pre b post E. now destruct pre.
  - cbn [batchesFrom].
    destruct (Nat.ltb_spec i (length files)) as [Hlt | Hge].
    + destruct (IH (i + batchSize)) as (bs & E & Hc & Hall & Hfull);
        [unfold batchSize; lia |].
      rewrite E. cbn [option_map].
      set (batch := slice i (Nat.min (i + batchSize) (length files)) files).
      assert (Hb : batch = firstn batchSize (skipn i files)).
      { unfold batch, slice. destruct (Nat.le_ge_cases (i + batchSize) (length files)).
        - rewrite Nat.min_l by assumption. f_equal. lia.
        - rewrite Nat.min_r by assumption.
          rewrite !firstn_all2; [reflexivity | |]; rewrite length_skipn; lia. }
      assert (Hlen : length batch = Nat.min batchSize (length files - i))
        by (rewrite Hb, length_firstn, length_skipn; reflexivity).
      exists (batch :: bs). split; [reflexivity |].
      split.
      { cbn [concat]. rewrite Hc, Hb, Nat.add_comm, <- skipn_skipn.
        apply firstn_skipn. }
      split.
      { constructor; [|exact Hall]. unfold batchSize in *. lia. }
      intros pre b post Eb Hpost. destruct pre as [|b0 pre]; cbn [app] in Eb.
      * injection Eb as <- Ebs. subst bs.
        destruct post as [|b1 post]; [congruence |].
        cbn [concat] in Hc. inversion Hall as [|? ? Hb1 _]; subst.
        assert (Hrest : 1 <= length (skipn (i + batchSize) files)).
        { rewrite <- Hc, length_app. lia. }
        rewrite length_skipn in Hrest. unfold batchSize in *. lia.
      * injection Eb as _ Ebs. exact (Hfull pre b post Ebs Hpost).
    + exists []. split; [reflexivity |]. split; [now rewrite skipn_all2 |].
      split; [constructor |]. intros pre b post E. now destruct pre.
Qed.

(** X21. The batches of [generateSite] are the files in order, cut into
    pieces of five, the last piece having what is left: no file is left
    out and none comes twice. *)
Theorem batches_partition (markdownFiles : list TFile.t) :
  exists bs,
    batches markdownFiles = Some bs
    /\ concat bs = markdownFiles
    /\ Forall (fun b => 1 <= length b <= batchSize) bs
    /\ (forall pre b post, bs = pre ++ b :: post -> post <> [] ->
          length b = batchSize).
Proof.
  destruct (batchesFrom_spec markdownFiles (length markdownFiles) 0) as (bs & H);
    [lia |].
  exists bs. exact H.
Qed.

(** ** What the removal asks of the adapter *)

Section RemovalCalls.

Variable World : Type.
Variable Error : Type.
Variable dataAdapter : DataAdapter World Error.
Variable P : AdapterCall -> Prop.

Lemma callsOnly_ret (A : Type) (a : A) : callsOnly P (ret a : Async World Error A).
Proof. intros s r s' [= <- <-]. exists []. now rewrite app_nil_r. Qed.

Lemma callsOnly_throw (A : Type) (e : Error) :
  callsOnly P (throw e : Async World Error A).
Proof. intros s r s' [= <- <-]. exists []. now rewrite app_nil_r. Qed.

Lemma callsOnly_call (A : Type) (c : AdapterCall)
    (op : World -> Outcome Error A * World) :
  P c -> callsOnly P (call c op).
Proof.
  intros Hc s r s'. unfold call. destruct (op (fst s)) as [r0 w].
  intros [= <- <-]. exists [c]. split; [reflexivity | now constructor].
Qed.

Lemma callsOnly_bind (A B : Type) (m : Async World Error A)
    (k : A -> Async World Error B) :
  callsOnly P m -> (forall a, callsOnly P (k a)) -> callsOnly P (bind m k).
Proof.
  intros Hm Hk s r s'. unfold bind.
  destruct (m s) as [[[a | e] s1]|] eqn:E; [| |discriminate].
  - intros H. destruct (Hm _ _ _ E) as (l1 & E1 & H1), (Hk a _ _ _ H) as (l2 & E2 & H2).
    exists (l1 ++ l2). split; [now rewrite E2, E1, app_assoc | now apply Forall_app].
  - intros [= <- <-]. exact (Hm _ _ _ E).
Qed.

Lemma callsOnly_tryCatch (A : Type) (m : Async World Error A)
    (h : Error -> Async World Error A) :
  callsOnly P m -> (forall e, callsOnly P (h e)) -> callsOnly P (tryCatch m h).
Proof.
  intros Hm Hh s r s'. unfold tryCatch.
  destruct (m s) as [[[a | e] s1]|] eqn:E; [| |discriminate].
  - intros [= <- <-]. exact (Hm _ _ _ E).
  - intros H. destruct (Hm _ _ _ E) as (l1 & E1 & H1), (Hh e _ _ _ H) as (l2 & E2 & H2).
    exists (l1 ++ l2). split; [now rewrite E2, E1, app_assoc | now apply Forall_app].
Qed.

Lemma callsOnly_forEach (A : Type) (xs : list A) (body : A -> Async World Error unit) :
  (forall x, callsOnly P (body x)) -> callsOnly P (forEach xs body).
Proof.
  intros Hb. induction xs as [|x xs IH]; cbn [forEach].
  - apply callsOnly_ret.
  - apply callsOnly_bind; auto.
Qed.

End RemovalCalls.

(** X22. Whatever the adapter answers, a run of the removal only adds calls
    to the log, and never one that asks for a directory to be removed
    together with its content: the only [rmdir] is the plain one. *)
Theorem removeDirectoryRecursive_plain_rmdir (World Error : Type)
    (dataAdapter : DataAdapter World Error) (fuel : nat) (dirPath : string)
    (w w' : World) (log log' : list AdapterCall) (r : Outcome Error unit) :
  removeDirectoryRecursive dataAdapter fuel dirPath (w, log) = Some (r, (w', log')) ->
  exists calls,
    log' = log ++ calls
    /\ Forall (fun call => forall path, call <> CallRmdir path true) calls.
Proof.
  intros Hrun.
  assert (H : forall fuel dirPath,
            callsOnly (fun call => forall path, call <> CallRmdir path true)
              (removeDirectoryRecursive dataAdapter fuel dirPath)).
  { clear. induction fuel as [|fuel IH]; intros dirPath;
      cbn [removeDirectoryRecursive].
    - intros s r s'. discriminate.
    - apply callsOnly_bind; [now apply callsOnly_call |]. intros ex.
      destruct (negb ex); [apply callsOnly_ret |].
      apply callsOnly_tryCatch.
      + unfold structuredDelete.
        apply callsOnly_bind; [now apply callsOnly_call | intros items].
        apply callsOnly_bind;
          [apply callsOnly_forEach; intros; now apply callsOnly_call | intros _].
        apply callsOnly_bind; [apply callsOnly_forEach; intros; apply IH | intros _].
        now apply callsOnly_call.
      + intros e. unfold fallbackRemove. apply callsOnly_tryCatch.
        * now apply callsOnly_call.
        * intros ?. apply callsOnly_throw. }
  exact (H fuel dirPath _ _ _ Hrun).
Qed.

(** ** The label of a reference *)

Lemma split_none (sep : ascii) (s : string) :
  Js.sforall (fun c => negb (Ascii.eqb c sep)) s = true -> Js.split sep s = [s].
Proof.
  induction s as [|c s IH]; cbn [Js.sforall Js.split]; [reflexivity |].
  intros [Hc Hs]%andb_prop. apply negb_true_iff in Hc. now rewrite Hc, (IH Hs).
Qed.

(** X10. In a reference [target|label] the text before the bar is looked up
    and the text after it is shown, both trimmed; an empty label, like no
    label, shows the target. *)
Theorem reference_label (target label : string) :
  Js.sforall (fun c => negb (Ascii.eqb c "|")) target = true ->
  Js.sforall (fun c => negb (Ascii.eqb c "|")) label = true ->
  linkOf (target +:+ "|" +:+ label) = Js.trim target
  /\ displayTextOf (target +:+ "|" +:+ label)
     = (if String.eqb label "" then Js.trim target else Js.trim label)
  /\ linkOf target = Js.trim target
  /\ displayTextOf target = Js.trim target.
Proof.
  intros Ht Hl.
  assert (E : Js.split "|" (target +:+ "|" +:+ label) = [target; label]).
  { change (target +:+ "|" +:+ label) with (target +:+ String "|" label).
    now rewrite split_app, (split_none _ _ Ht), (split_none _ _ Hl). }
  unfold displayTextOf, linkOf. rewrite E, (split_none _ _ Ht). cbn [hd nth_error].
  repeat split; reflexivity.
Qed.

(** ** Meta tags and structured data *)

Lemma escapeHtml_noRawMarkup (text : string) :
  noRawMarkup (SeoManager.escapeHtml text) = true.
Proof.
  unfold noRawMarkup, SeoManager.escapeHtml.
  induction text as [|c text IH]; [reflexivity |].
  cbn [Js.sbind]. rewrite sforall_append, IH, andb_true_r.
  destruct c as [[] [] [] [] [] [] [] []]; reflexivity.
Qed.

Lemma pushIf_Forall (P : MetaTag.t -> Prop) (value : option string)
    (tag : string -> MetaTag.t) :
  (forall s, s <> "" -> P (tag s)) -> Forall P (SeoManager.pushIf value tag).
Proof.
  intros H. unfold SeoManager.pushIf, SeoManager.truthy.
  destruct value as [s|]; [|constructor].
  destruct (String.eqb_spec s ""); [constructor |]. repeat constructor. now apply H.
Qed.

Lemma generateAllTags_Forall (P : MetaTag.t -> Prop) (config : SeoConfig.t) :
  (forall name content, name <> "" -> content <> "" ->
     P (SeoManager.named name content)) ->
  (forall property content, property <> "" -> content <> "" ->
     P (SeoManager.propertied property content)) ->
  P (SeoManager.propertied "og:title" (SeoConfig.title config)) ->
  P (SeoManager.named "twitter:title" (SeoConfig.title config)) ->
  Forall P (SeoManager.generateAllTags config).
Proof.
  intros Hn Hp Ht1 Ht2.
  assert (Htype : match SeoManager.truthy (SeoConfig.type config) with
                  | Some type => type
                  | None => "website"
                  end <> "").
  { unfold SeoManager.truthy. destruct (SeoConfig.type config) as [t|]; [|discriminate].
    destruct (String.eqb_spec t ""); [discriminate | assumption]. }
  assert (Hpn : forall value name, name <> "" ->
            Forall P (SeoManager.pushIf value (SeoManager.named name)))
    by (intros value name Hname; apply pushIf_Forall; auto).
  assert (Hpp : forall value property, property <> "" ->
            Forall P (SeoManager.pushIf value (SeoManager.propertied property)))
    by (intros value property Hprop; apply pushIf_Forall; auto).
  unfold SeoManager.generateAllTags. apply Forall_app; split; [|apply Forall_app; split].
  - unfold SeoManager.generateMetaTags.
    apply Forall_app; split; [now apply Hpn |].
    apply Forall_app; split; [now apply Hpn |].
    apply Forall_app; split; [now apply Hpn |].
    constructor; [|constructor]. now apply Hn.
  - unfold SeoManager.generateOpenGraphTags.
    apply Forall_app; split; [constructor; [exact Ht1 | constructor] |].
    apply Forall_app; split; [now apply Hpp |].
    apply Forall_app; split; [now apply Hpp |].
    apply Forall_app; split; [now apply Hpp |].
    apply Forall_app; split; [constructor; [now apply Hp | constructor] |].
    apply Forall_app; split; [now apply Hpp |].
    apply Forall_app; split; [now apply Hpp |].
    apply Forall_app; split; [now apply Hpp |].
    apply Forall_app; split; [now apply Hpp |].
    now apply Hpp.
  - unfold SeoManager.generateTwitterCardTags.
    apply Forall_app; split;
      [constructor; [now apply Hn | constructor; [exact Ht2 | constructor]] |].
    apply Forall_app; split; now apply Hpn.
Qed.

Lemma mapAll_Forall2 {A B : Type} (f : A -> option B) (R : A -> B -> Prop)
    (l : list A) :
  Forall (fun a => exists b, f a = Some b /\ R a b) l ->
  exists bs, SeoManager.mapAll f l = Some bs /\ Forall2 R l bs.
Proof.
  induction 1 as [|a l (b & E & Hb) _ (bs & Ebs & IH)].
  - exists []. split; [reflexivity | constructor].
  - exists (b :: bs). cbn [SeoManager.mapAll]. rewrite E, Ebs.
    split; [reflexivity | now constructor].
Qed.

Lemma tagHtml_generated (config : SeoConfig.t) :
  Forall
    (fun tag =>
       exists line,
         SeoManager.tagHtml tag = Some line
         /\ exists kind key,
              (kind = "name" /\ MetaTag.name tag = Some key
               \/ kind = "property" /\ MetaTag.property tag = Some key)
              /\ line = "    <meta " +:+ kind +:+ "=" +:+ Js.dq
                        +:+ SeoManager.escapeHtml key +:+ Js.dq
                        +:+ " content=" +:+ Js.dq
                        +:+ SeoManager.escapeHtml (MetaTag.content tag)
                        +:+ Js.dq +:+ ">"
              /\ noRawMarkup (SeoManager.escapeHtml key) = true
              /\ noRawMarkup (SeoManager.escapeHtml (MetaTag.content tag)) = true)
    (SeoManager.generateAllTags config).
Proof.
  apply generateAllTags_Forall.
  - intros name content Hn _. eexists. split; [reflexivity |].
    exists "name", name. repeat split; auto using escapeHtml_noRawMarkup.
  - intros property content Hp _. unfold SeoManager.tagHtml, SeoManager.truthy.
    cbn [MetaTag.property SeoManager.propertied].
    destruct (String.eqb_spec property ""); [contradiction |].
    eexists. split; [reflexivity |].
    exists "property", property. repeat split; auto using escapeHtml_noRawMarkup.
  - eexists. split; [reflexivity |].
    exists "property", "og:title". repeat split; auto using escapeHtml_noRawMarkup.
  - eexists. split; [reflexivity |].
    exists "name", "twitter:title". repeat split; auto using escapeHtml_noRawMarkup.
Qed.

Lemma toHtmlString_some (config : SeoConfig.t) :
  exists html, SeoManager.toHtmlString config = Some html.
Proof.
  unfold SeoManager.toHtmlString.
  destruct (mapAll_Forall2 SeoManager.tagHtml (fun _ _ => True)
              (SeoManager.generateAllTags config)) as (lines & -> & _); [|eauto].
  eapply List.Forall_impl; [|apply tagHtml_generated].
  intros tag (line & E & _). eauto.
Qed.

(** X23. [toHtmlString] does not throw: every generated tag has a property or
    a name.  Its lines are the tags in order, one [meta] element each,
    and in the two attribute values no quote and no angle bracket is
    left as it is. *)
Theorem toHtmlString_escaped (config : SeoConfig.t) :
  exists lines,
    SeoManager.toHtmlString config = Some (Js.join Js.nl lines)
    /\ Forall2
         (fun tag line =>
            exists kind key,
              (kind = "name" /\ MetaTag.name tag = Some key
               \/ kind = "property" /\ MetaTag.property tag = Some key)
              /\ line = "    <meta " +:+ kind +:+ "=" +:+ Js.dq
                        +:+ SeoManager.escapeHtml key +:+ Js.dq
                        +:+ " content=" +:+ Js.dq
                        +:+ SeoManager.escapeHtml (MetaTag.content tag)
                        +:+ Js.dq +:+ ">"
              /\ noRawMarkup (SeoManager.escapeHtml key) = true
              /\ noRawMarkup (SeoManager.escapeHtml (MetaTag.content tag)) = true)
         (SeoManager.generateAllTags config) lines.
Proof.
  unfold SeoManager.toHtmlString.
  destruct (mapAll_Forall2 SeoManager.tagHtml
              (fun tag line =>
                 exists kind key,
                   (kind = "name" /\ MetaTag.name tag = Some key
                    \/ kind = "property" /\ MetaTag.property tag = Some key)
                   /\ line = "    <meta " +:+ kind +:+ "=" +:+ Js.dq
                             +:+ SeoManager.escapeHtml key +:+ Js.dq
                             +:+ " content=" +:+ Js.dq
                             +:+ SeoManager.escapeHtml (MetaTag.content tag)
                             +:+ Js.dq +:+ ">"
                   /\ noRawMarkup (SeoManager.escapeHtml key) = true
                   /\ noRawMarkup (SeoManager.escapeHtml (MetaTag.content tag)) = true)
              (SeoManager.generateAllTags config) (tagHtml_generated config))
    as (lines & E & H).
  exists lines. rewrite E. split; [reflexivity | exact H].
Qed.

(** X24. Five tags are there for every page, the type tag with the type
    of the configuration, or with [website] when that is absent or
    empty; a tag for an optional field is only made for a value that is
    not empty, so that no tag but a title tag can have an empty
    content. *)
Theorem generateAllTags_contents (config : SeoConfig.t) :
  let tags := SeoManager.generateAllTags config in
  In (SeoManager.named "generator" "FourSG") tags
  /\ In (SeoManager.propertied "og:title" (SeoConfig.title config)) tags
  /\ (let type :=
        match SeoConfig.type config with
        | Some EmptyString | None => "website"
        | Some type => type
        end in
      type <> "" /\ In (SeoManager.propertied "og:type" type) tags)
  /\ In (SeoManager.named "twitter:card" "summary_large_image") tags
  /\ In (SeoManager.named "twitter:title" (SeoConfig.title config)) tags
  /\ Forall (fun tag =>
               MetaTag.content tag = "" ->
               SeoConfig.title config = ""
               /\ (tag = SeoManager.propertied "og:title" ""
                   \/ tag = SeoManager.named "twitter:title" "")) tags.
Proof.
  intros tags. unfold tags.
  split; [|split; [|split; [|split; [|split]]]].
  - unfold SeoManager.generateAllTags, SeoManager.generateMetaTags.
    apply in_or_app. left. rewrite !in_app_iff. do 3 right. now left.
  - unfold SeoManager.generateAllTags, SeoManager.generateOpenGraphTags.
    apply in_or_app. right. apply in_or_app. left. now left.
  - assert (E : match SeoManager.truthy (SeoConfig.type config) with
                | Some type => type
                | None => "website"
                end
                = match SeoConfig.type config with
                  | Some EmptyString | None => "website"
                  | Some type => type
                  end).
    { unfold SeoManager.truthy. now destruct (SeoConfig.type config) as [[|c t]|]. }
    cbv zeta. rewrite <- E. split.
    + unfold SeoManager.truthy. destruct (SeoConfig.type config) as [t|]; [|discriminate].
      destruct (String.eqb_spec t ""); [discriminate | assumption].
    + unfold SeoManager.generateAllTags, SeoManager.generateOpenGraphTags.
      apply in_or_app. right. apply in_or_app. left.
      rewrite !in_app_iff. do 4 right. left. now left.
  - unfold SeoManager.generateAllTags, SeoManager.generateTwitterCardTags.
    apply in_or_app. right. apply in_or_app. right. now left.
  - unfold SeoManager.generateAllTags, SeoManager.generateTwitterCardTags.
    apply in_or_app. right. apply in_or_app. right. right. now left.
  - apply generateAllTags_Forall.
    + intros name content _ Hc E. cbn in E. contradiction.
    + intros property content _ Hc E. cbn in E. contradiction.
    + cbn. intros ->. auto.
    + cbn. intros ->. auto.
Qed.

(** *** The structured data *)

Lemma sbind_append (f : ascii -> string) (a b : string) :
  Js.sbind f (a +:+ b) = Js.sbind f a +:+ Js.sbind f b.
Proof.
  induction a as [|c a IH]; [reflexivity |].
  cbn [String.append Js.sbind]. now rewrite IH, append_assoc.
Qed.

Lemma sbind_id (f : ascii -> string) (p : ascii -> bool) (s : string) :
  (forall c, p c = true -> f c = String c "") ->
  Js.sforall p s = true -> Js.sbind f s = s.
Proof.
  intros Hf. induction s as [|c s IH]; [reflexivity |].
  cbn [Js.sforall Js.sbind]. intros [Hc Hs]%andb_prop.
  now rewrite (Hf c Hc), (IH Hs).
Qed.

Lemma quoteChar_plain (c : ascii) :
  jsonPlain c = true -> SeoManager.quoteChar c = String c "".
Proof.
  unfold jsonPlain, SeoManager.quoteChar.
  intros [[H32 H34]%andb_prop H92]%andb_prop.
  apply N.leb_le in H32. apply negb_true_iff, N.eqb_neq in H34, H92.
  repeat match goal with
         | |- context [(?a =? ?b)%N] => destruct (N.eqb_spec a b); [lia |]
         end.
  destruct (N.ltb_spec (Js.code c) 32); [lia | reflexivity].
Qed.

(** The lines of [s], each with [pre] in front, put together again. *)
Lemma prefix_lines (pre s : string) :
  Js.join Js.nl (map (fun line => pre +:+ line) (Js.split "010" s))
  = pre +:+ Js.sbind (fun c => if Ascii.eqb c "010" then Js.nl +:+ pre
                               else String c "") s.
Proof.
  assert (Hjoin : forall x T,
            Js.join Js.nl (x :: T)
            = x +:+ fold_right (fun y acc => Js.nl +:+ y +:+ acc) "" T).
  { intros x T. revert x. induction T as [|y T IH]; intros x.
    - cbn. now rewrite append_nil_r.
    - change (Js.join Js.nl (x :: y :: T)) with (x +:+ Js.nl +:+ Js.join Js.nl (y :: T)).
      now rewrite IH. }
  assert (H : forall h t, Js.split "010" s = h :: t ->
            h +:+ fold_right (fun y acc => Js.nl +:+ y +:+ acc) ""
                    (map (fun line => pre +:+ line) t)
            = Js.sbind (fun c => if Ascii.eqb c "010" then Js.nl +:+ pre
                                 else String c "") s).
  { induction s as [|c s IH]; intros h t E; cbn [Js.split] in E.
    - injection E as <- <-. reflexivity.
    - cbn [Js.sbind]. pose proof (split_nonnil "010" s) as Hnil.
      destruct (Js.split "010" s) as [|h' t'] eqn:Es; [congruence |].
      specialize (IH h' t' eq_refl).
      destruct (Ascii.eqb c "010").
      + injection E as <- <-. cbn [map fold_right String.append].
        now rewrite <- IH, !append_assoc.
      + injection E as <- <-. cbn [String.append]. now rewrite IH. }
  pose proof (split_nonnil "010" s) as Hnil.
  destruct (Js.split "010" s) as [|h t] eqn:Es; [congruence |].
  cbn [map]. rewrite Hjoin, append_assoc. f_equal. now apply H.
Qed.

Lemma prefix_lines_occurs (pre s sub : string) :
  Js.sforall (fun c => negb (Ascii.eqb c "010")) sub = true ->
  occursIn sub s ->
  occursIn sub (Js.join Js.nl (map (fun line => pre +:+ line) (Js.split "010" s))).
Proof.
  intros Hsub (a & b & ->). rewrite prefix_lines, !sbind_append.
  rewrite (sbind_id _ (fun c => negb (Ascii.eqb c "010")) sub); [|  | exact Hsub].
  - apply occursIn_app_r, occursIn_app_r, occursIn_app_l. exists "", "".
    now rewrite append_nil_r.
  - intros c Hc. apply negb_true_iff in Hc. now rewrite Hc.
Qed.

Lemma jsonPlain_noNewline (s : string) :
  Js.sforall jsonPlain s = true ->
  Js.sforall (fun c => negb (Ascii.eqb c "010")) s = true.
Proof.
  induction s as [|c s IH]; [reflexivity |]. cbn [Js.sforall].
  intros [Hc Hs]%andb_prop. rewrite (IH Hs), andb_true_r.
  destruct (Ascii.eqb_spec c "010") as [-> | _]; [discriminate Hc | reflexivity].
Qed.

(** X25. The title goes into the JSON-LD script between quotes, escaped as
    JSON requires and not as HTML: a title without quote, backslash and
    control characters stands there as it is, angle brackets included. *)
Theorem structuredData_headline (config : SeoConfig.t) :
  Js.sforall jsonPlain (SeoConfig.title config) = true ->
  occursIn
    (Js.dq +:+ "headline" +:+ Js.dq +:+ ": " +:+ Js.dq +:+ SeoConfig.title config
     +:+ Js.dq)
    (SeoManager.generateStructuredDataScript config).
Proof.
  intros Hplain. unfold SeoManager.generateStructuredDataScript.
  do 6 apply occursIn_app_r. apply occursIn_app_l.
  apply prefix_lines_occurs.
  - change (Js.dq +:+ "headline" +:+ Js.dq +:+ ": " +:+ Js.dq
            +:+ SeoConfig.title config +:+ Js.dq)
      with ((Js.dq +:+ "headline" +:+ Js.dq +:+ ": " +:+ Js.dq)
            +:+ SeoConfig.title config +:+ Js.dq).
    rewrite !sforall_append, (jsonPlain_noNewline _ Hplain). reflexivity.
  - unfold SeoManager.generateStructuredData.
    set (rest := SeoManager.memberIf _ _ _ ++ _).
    cbn [app SeoManager.serializeJson map fst snd].
    assert (Hq : SeoManager.quoteJson "headline" +:+ ": "
                 +:+ SeoManager.quoteJson (SeoConfig.title config)
                 = Js.dq +:+ "headline" +:+ Js.dq +:+ ": " +:+ Js.dq
                   +:+ SeoConfig.title config +:+ Js.dq).
    { unfold SeoManager.quoteJson.
      rewrite (sbind_id _ jsonPlain _ quoteChar_plain Hplain). reflexivity. }
    assert (Hl : forall more,
              occursIn (Js.dq +:+ "headline" +:+ Js.dq +:+ ": " +:+ Js.dq
                        +:+ SeoConfig.title config +:+ Js.dq)
                ((SeoManager.quoteJson "headline" +:+ ": "
                  +:+ SeoManager.quoteJson (SeoConfig.title config)) +:+ more)).
    { intros more. rewrite Hq. exists "", more. reflexivity. }
    do 3 apply occursIn_app_r. apply occursIn_app_l.
    set (line := fun member : string * Json => _).
    change (Js.join ("," +:+ Js.nl +:+ ("" +:+ "  "))
              (line ("@context", JString "https://schema.org")
               :: line ("@type", _) :: line ("headline", JString (SeoConfig.title config))
               :: map line rest))
      with (line ("@context", JString "https://schema.org")
            +:+ ("," +:+ Js.nl +:+ ("" +:+ "  "))
            +:+ line ("@type", JString (match SeoConfig.type config with
                                        | Some type =>
                                            if String.eqb type "article"
                                            then "Article" else "WebPage"
                                        | None => "WebPage"
                                        end))
            +:+ ("," +:+ Js.nl +:+ ("" +:+ "  "))
            +:+ Js.join ("," +:+ Js.nl +:+ ("" +:+ "  "))
                  (line ("headline", JString (SeoConfig.title config)) :: map line rest)).
    do 4 apply occursIn_app_r.
    destruct (map line rest) as [|l ls].
    + specialize (Hl ""). now rewrite append_nil_r in Hl.
    + change (Js.join ("," +:+ Js.nl +:+ ("" +:+ "  "))
                (line ("headline", JString (SeoConfig.title config)) :: l :: ls))
        with (line ("headline", JString (SeoConfig.title config))
              +:+ ("," +:+ Js.nl +:+ ("" +:+ "  "))
              +:+ Js.join ("," +:+ Js.nl +:+ ("" +:+ "  ")) (l :: ls)).
      apply Hl.
Qed.

(** *** The SEO data of a page *)

Section SeoDataProperties.

Variable charMapExt : ascii -> option string.
Variable isoDate : Z -> string.
Variable numberToString : Q -> string.
Variable toISOString : JsValue -> option string.
Variable stringOf : JsValue -> option string.

(** A value that is set and is not a text. *)
Local Abbreviation notText value :=
  (truthyValue value = true /\ isString value = false).

Lemma asText_None (value : JsValue) : asText value = None <-> notText value.
Proof.
  unfold asText. destruct value as [| |b|n|s| |]; cbn [truthyValue isString];
    try (split; [discriminate | intros [? ?]; discriminate]);
    try (split; [now split | reflexivity]).
  - destruct b; [split; [now split | reflexivity]
                | split; [discriminate | intros [? ?]; discriminate]].
  - destruct (truthyValue (JsNum n)) eqn:E; cbn [truthyValue] in E; rewrite E;
      [split; [now split | reflexivity]
      | split; [discriminate | intros [? ?]; discriminate]].
Qed.

Lemma asString_orElse_None (value : JsValue) (otherwise : string) :
  asString (orElse value (JsString otherwise)) = None <-> notText value.
Proof.
  unfold orElse. destruct (truthyValue value) eqn:E.
  - destruct value; cbn [asString isString];
      (split; [intros H; try discriminate H; now split | intros [_ H]; now try discriminate H]).
  - cbn [asString]. split; [discriminate | intros [? _]; discriminate].
Qed.

Lemma asText_orElse_None (value otherwise : JsValue) :
  asText otherwise <> None ->
  asText (orElse value otherwise) = None <-> notText value.
Proof.
  intros Ho. pose proof (asText_None value) as H.
  unfold orElse. destruct (truthyValue value) eqn:E.
  - exact H.
  - split; [contradiction | intros [? _]; discriminate].
Qed.

Lemma isoTimeOr_None (value : JsValue) (otherwise : option (option string)) :
  isoTimeOr toISOString value otherwise = None
  <-> (truthyValue value = true /\ toISOString value = None)
      \/ (truthyValue value = false /\ otherwise = None).
Proof.
  unfold isoTimeOr. destruct (truthyValue value).
  - destruct (toISOString value); cbn [option_map].
    + split; [discriminate | intros [[_ ?] | [? _]]; discriminate].
    + split; [now left | reflexivity].
  - split; [now right | intros [[? _] | [_ ?]]; [discriminate | assumption]].
Qed.

Lemma mapAll_None (A B : Type) (f : A -> option B) (l : list A) :
  SeoManager.mapAll f l = None <-> Exists (fun a => f a = None) l.
Proof.
  induction l as [|a l IH]; cbn [SeoManager.mapAll].
  - split; [discriminate | intros H; inversion H].
  - destruct (f a) eqn:Ea.
    + destruct (SeoManager.mapAll f l).
      * split; [discriminate |]. intros H. inversion H as [? ? Hh | ? ? Ht]; subst.
        -- congruence.
        -- apply IH in Ht. discriminate.
      * split; [intros _; right; now apply IH | reflexivity].
    + split; [intros _; now left | reflexivity].
Qed.

(** The conversion of the keywords throws. *)
Local Abbreviation keywordsFail keywords :=
  (match keywords with
   | JsArray items =>
       Exists (fun item => item <> JsUndefined /\ item <> JsNull
                           /\ toStringValue stringOf item = None) items
   | _ => toStringValue stringOf keywords = None
   end).

Lemma joinValues_None (sep : string) (items : list JsValue) :
  joinValues stringOf sep items = None
  <-> Exists (fun item => item <> JsUndefined /\ item <> JsNull
                          /\ toStringValue stringOf item = None) items.
Proof.
  unfold joinValues.
  destruct (SeoManager.mapAll _ items) as [texts|] eqn:E; cbn [option_map].
  - split; [discriminate |]. intros H.
    assert (N : SeoManager.mapAll
                  (fun item => match item with
                               | JsUndefined | JsNull => Some ""
                               | _ => toStringValue stringOf item
                               end) items = None).
    { apply mapAll_None. eapply List.Exists_impl; [|exact H].
      intros item (Hu & Hn & Hs). destruct item; try contradiction; exact Hs. }
    congruence.
  - split; [intros _ | reflexivity]. apply mapAll_None in E.
    eapply List.Exists_impl; [|exact E].
    intros item Hi. destruct item; try discriminate Hi; repeat split; try discriminate;
      exact Hi.
Qed.


Lemma generateSeoData_canonical (siteUrl siteName title outputFilePath : string)
    (frontMatter : PageFrontMatter.t) (parentPath parentName : option string)
    (rootPath : string) (data : SeoData.t) :
  generateSeoData toISOString stringOf siteUrl siteName title outputFilePath
    frontMatter parentPath parentName rootPath = Some data ->
  SeoData.canonicalUrl data
  = orElse (PageFrontMatter.get frontMatter "canonical")
      (JsString (siteUrl +:+ "/" +:+ getPageUrl outputFilePath)).
Proof.
  unfold generateSeoData.
  repeat match goal with
         | |- context [match ?t with Some _ => _ | None => None end] =>
             destruct t; [|discriminate]
         end.
  intros [= <-]. reflexivity.
Qed.

Lemma pageUrl_relative (filePath : string) :
  Js.startsWith (getPageUrl (getOutputPath charMapExt filePath)) "/" = false.
Proof.
  rewrite getPageUrl_output.
  pose proof (outputPath_clean charMapExt filePath) as Hc.
  rewrite <- app_assoc in Hc. apply Forall_app in Hc as [_ Hc].
  destruct (outputDirSegments charMapExt filePath
            ++ [outputName charMapExt filePath +:+ ".html"]) as [|a rest] eqn:E;
    [now destruct (outputDirSegments charMapExt filePath) |].
  inversion Hc as [|? ? Ha _]; subst.
  pose proof (cleanSegment_nonEmpty _ Ha) as Hne.
  pose proof (cleanSegment_noSlash _ Ha) as Hns.
  destruct a as [|c a']; [discriminate Hne |].
  destruct (join_head (String c a') rest c a' eq_refl) as [r ->].
  cbn [noSlash Js.sforall] in Hns. apply andb_prop in Hns as [Hcs _].
  apply negb_true_iff in Hcs. cbn [Js.startsWith].
  now rewrite Ascii.eqb_sym, Hcs.
Qed.



End SeoDataProperties.

(** ** Embedded images *)

Lemma backslashes_join_plain (segs : list string) :
  Forall (fun s => backslashesToSlashes s = s) segs ->
  backslashesToSlashes (Js.join "/" segs) = Js.join "/" segs.
Proof.
  induction 1 as [|s segs Hs Hrest IH]; [reflexivity |].
  destruct segs as [|b segs]; [exact Hs |].
  change (Js.join "/" (s :: b :: segs)) with (s +:+ "/" +:+ Js.join "/" (b :: segs)).
  unfold backslashesToSlashes in *. rewrite !smap_append, IH, Hs. reflexivity.
Qed.

(** The relative path from a directory to a file leads, from that
    directory, to the file. *)
Lemma relative_roundtrip (cwd dA dB : list string) (nB : string) :
  Forall (fun s => cleanSegment s = true) cwd ->
  Forall (fun s => cleanSegment s = true) dA -> dA <> [] ->
  Forall (fun s => cleanSegment s = true) (dB ++ [nB]) ->
  Forall (fun s => backslashesToSlashes s = s) (dB ++ [nB]) ->
  ~ In nB dA ->
  pathe.join [Js.join "/" dA;
              backslashesToSlashes
                (pathe.relative cwd (Js.join "/" dA) (Js.join "/" (dB ++ [nB])))]
  = Js.join "/" (dB ++ [nB]).
Proof.
  intros Hcwd HcdA HdA HcB HpB HnB.
  rewrite relative_clean; try assumption; [|now destruct dB].
  destruct (dropCommon_spec dA (dB ++ [nB])) as (c & Ef & Et).
  destruct (dropCommon_keeps_last dA dB nB HnB) as (t1 & Elast).
  set (f' := fst (pathe.dropCommon dA (dB ++ [nB]))) in *.
  set (t' := snd (pathe.dropCommon dA (dB ++ [nB]))) in *.
  assert (Hcf : Forall (fun s => cleanSegment s = true) c /\
                Forall (fun s => cleanSegment s = true) f')
    by (rewrite Ef in HcdA; now apply Forall_app in HcdA).
  destruct Hcf as [Hcc Hcf].
  assert (Hct : Forall (fun s => cleanSegment s = true) t')
    by (rewrite Et in HcB; now apply Forall_app in HcB as [_ ?]).
  assert (Hpt : Forall (fun s => backslashesToSlashes s = s)
                  (map (fun _ => "..") f' ++ t')).
  { apply Forall_app; split.
    - apply List.Forall_forall. now intros s (x & <- & _)%in_map_iff.
    - rewrite Et in HpB. now apply Forall_app in HpB as [_ ?]. }
  rewrite backslashes_join_plain by assumption.
  set (rel := Js.join "/" (map (fun _ => "..") f' ++ t')).
  assert (Hups : Forall (fun s => noSlash s = true) (map (fun _ => "..") f' ++ t')).
  { apply Forall_app; split.
    - apply List.Forall_forall. now intros s (x & <- & _)%in_map_iff.
    - eapply List.Forall_impl; [|exact Hct]. apply cleanSegment_noSlash. }
  assert (Hrel : rel <> "").
  { apply join_nonempty; [rewrite Elast; now destruct (map _ f'), t1 |].
    apply Forall_app; split.
    - apply List.Forall_forall. now intros s (x & <- & _)%in_map_iff.
    - eapply List.Forall_impl; [|exact Hct]. apply cleanSegment_nonEmpty. }
  assert (HjA : Js.join "/" dA <> "").
  { apply join_nonempty; [assumption |].
    eapply List.Forall_impl; [|exact HcdA]. apply cleanSegment_nonEmpty. }
  assert (Hsegs : pathe.normalizeSegs true []
            (flat_map (Js.split "/") [Js.join "/" dA; rel]) = dB ++ [nB]).
  { cbn [flat_map]. rewrite app_nil_r.
    rewrite split_join_clean by assumption.
    unfold rel. rewrite split_join_noSlash;
      [|rewrite Elast; now destruct (map _ f'), t1 | assumption].
    rewrite Ef at 1. rewrite <- !app_assoc.
    rewrite normalizeSegs_push by assumption.
    rewrite normalizeSegs_push by assumption.
    rewrite normalizeSegs_up by assumption.
    rewrite normalizeSegs_clean by assumption.
    rewrite app_nil_r, rev_involutive. now rewrite <- Et. }
  rewrite (join_normalize _ (Js.join "/" dA) [rel]).
  - now rewrite Hsegs.
  - cbn [List.filter]. unfold Js.nonEmpty.
    apply String.eqb_neq in HjA, Hrel. now rewrite HjA, Hrel.
  - destruct dA as [|a dA']; [congruence |].
    inversion HcdA as [|? ? Ha _]; subst.
    pose proof (cleanSegment_nonEmpty _ Ha) as Hne.
    pose proof (cleanSegment_noSlash _ Ha) as Hns.
    destruct a as [|x a']; [discriminate Hne |].
    destruct (join_head (String x a') dA' x a' eq_refl) as [r ->].
    cbn [noSlash Js.sforall] in Hns. apply andb_prop in Hns as [Hx _].
    apply negb_true_iff in Hx. cbn [Js.startsWith]. now rewrite Ascii.eqb_sym, Hx.
  - change (Js.join "/" dA :: [rel]) with ([Js.join "/" dA] ++ [rel]).
    rewrite (lastChar_join [Js.join "/" dA] rel Hrel).
    unfold rel. rewrite Elast, app_assoc.
    apply lastChar_join_clean.
    apply Forall_app in HcB as [_ H]. now inversion H.
  - rewrite Hsegs. now destruct dB.
Qed.

Section EmbeddedImages.

Variable charMapExt : ascii -> option string.
Variable cwd : list string.
Hypothesis cwd_clean : Forall (fun s => cleanSegment s = true) cwd.

(** X12. An embed marker at which the scan of the embed pattern arrives
    and whose image is found is replaced by an image element with an
    empty text, whose destination, resolved against the directory of the
    page's output path, is the output path of the image: the place to
    which [copyImages] copies it.  The image's file name must be a plain
    segment with an extension and without backslash.  A marker into which
    an earlier match runs is not rewritten on its own: that match ends
    with the marker and is rewritten as one embed. *)
Theorem image_embed_roundtrip (imageFiles : list TFile.t) (file imageFile : TFile.t)
    (pre inner post : string) :
  let fileName := pathe.basename (TFile.path imageFile) "" in
  inner <> "" -> noCloseBracket inner = true ->
  findImageFile imageFiles inner = Some imageFile ->
  cleanSegment fileName = true -> hasDot fileName = true ->
  backslashesToSlashes fileName = fileName ->
  match openMatch imageEmbedRegex false 0 pre ("![[" +:+ inner +:+ "]]" +:+ post) with
  | None =>
      exists relativePath,
        convertImageEmbeds charMapExt cwd imageFiles
          (pre +:+ "![[" +:+ inner +:+ "]]" +:+ post) file
        = convertImageEmbeds charMapExt cwd imageFiles pre file
          +:+ ("![](" +:+ relativePath +:+ ")")
          +:+ convertImageEmbeds charMapExt cwd imageFiles post file
        /\ pathe.join [pathe.dirname (getOutputPath charMapExt (TFile.path file));
                       relativePath]
           = getImageOutputPath charMapExt (TFile.path imageFile)
  | Some open =>
      exists before,
        pre = before +:+ open
        /\ convertImageEmbeds charMapExt cwd imageFiles
             (pre +:+ "![[" +:+ inner +:+ "]]" +:+ post) file
           = convertImageEmbeds charMapExt cwd imageFiles before file
             +:+ imageEmbedReplacement charMapExt cwd imageFiles file
                   (Js.drop 3 (open +:+ "![[" +:+ inner))
             +:+ convertImageEmbeds charMapExt cwd imageFiles post file
  end.
Proof.
  intros fileName Hne Hnc Hfind Hclean Hdot Hback.
  pose proof (convertImageEmbeds_marker_cases charMapExt cwd imageFiles file pre inner
                post Hne Hnc) as Hcases.
  destruct (openMatch imageEmbedRegex false 0 pre _) as [open|]; [exact Hcases |].
  exists (getRelativePath cwd (getOutputPath charMapExt (TFile.path file))
            (getImageOutputPath charMapExt (TFile.path imageFile))).
  split.
  - rewrite Hcases. unfold imageEmbedReplacement. now rewrite Hfind.
  - unfold getRelativePath.
    rewrite (getImageOutputPath_segments charMapExt _ Hclean). fold fileName.
    pose proof (imageOutputPath_clean charMapExt _ Hclean) as HcB. fold fileName in HcB.
    pose proof (outputPath_clean charMapExt (TFile.path file)) as HcA.
    pose proof (outputDir_pathChars charMapExt (TFile.path file)) as HpA.
    pose proof (outputDir_pathChars charMapExt (TFile.path imageFile)) as HpB.
    assert (Hd : pathe.dirname (getOutputPath charMapExt (TFile.path file))
                 = Js.join "/" (siteSegments
                                ++ outputDirSegments charMapExt (TFile.path file))).
    { rewrite getOutputPath_segments, app_assoc. now apply dirname_join. }
    rewrite Hd. apply relative_roundtrip.
    + exact cwd_clean.
    + now apply Forall_app in HcA as [? _].
    + discriminate.
    + exact HcB.
    + apply Forall_app; split; [|now repeat constructor].
      eapply List.Forall_impl; [|exact HpB].
      intros s [Hs _]. now apply pathChars_noBackslash.
    + intros Hin. apply (proj1 (List.Forall_forall _ _) HpA) in Hin as [_ Hd'].
      congruence.
Qed.

End EmbeddedImages.

(** ** Output paths that coincide, and links within a directory *)

Lemma append_inj_r (a b s : string) : a +:+ s = b +:+ s -> a = b.
Proof.
  revert b. induction a as [|x a IH]; intros [|y b] E; cbn [String.append] in E.
  - reflexivity.
  - exfalso. apply (f_equal String.length) in E. cbn in E.
    rewrite length_append in E. lia.
  - exfalso. apply (f_equal String.length) in E. cbn in E.
    rewrite length_append in E. lia.
  - injection E as -> E. now rewrite (IH b E).
Qed.

Section OutputCollisions.

Variable charMapExt : ascii -> option string.

(** X3. Two documents get the same output path exactly when their sanitized
    directories are the same and their output names are the same: then
    and only then the later one overwrites the earlier one. *)
Theorem getOutputPath_collision (a b : string) :
  getOutputPath charMapExt a = getOutputPath charMapExt b
  <-> outputDirSegments charMapExt a = outputDirSegments charMapExt b
      /\ outputName charMapExt a = outputName charMapExt b.
Proof.
  rewrite !getOutputPath_segments. split.
  - intros E. apply (f_equal (Js.split "/")) in E.
    pose proof (outputPath_clean charMapExt a) as Ha.
    pose proof (outputPath_clean charMapExt b) as Hb.
    rewrite <- app_assoc in Ha, Hb.
    rewrite !split_join_clean in E by (assumption || discriminate).
    apply app_inv_head in E. apply app_inj_tail in E as [Ed En].
    split; [exact Ed | now apply append_inj_r in En].
  - now intros [-> ->].
Qed.

End OutputCollisions.

Section SiblingLinks.

Variable charMapExt : ascii -> option string.
Variable cwd : list string.
Hypothesis cwd_clean : Forall (fun s => cleanSegment s = true) cwd.

(** X6. The link from a page to a page of the same output directory, the
    page itself included, is the bare file name of the target. *)
Theorem getRelativePath_same_directory (a b : string) :
  outputDirSegments charMapExt a = outputDirSegments charMapExt b ->
  getRelativePath cwd (getOutputPath charMapExt a) (getOutputPath charMapExt b)
  = outputName charMapExt b +:+ ".html".
Proof.
  intros Hd. unfold getRelativePath.
  pose proof (outputPath_clean charMapExt a) as Ha.
  pose proof (outputPath_clean charMapExt b) as Hb.
  rewrite !getOutputPath_segments, !app_assoc, dirname_join by (assumption || discriminate).
  rewrite <- Hd in Hb |- *.
  set (dA := siteSegments ++ outputDirSegments charMapExt a) in *.
  apply Forall_app in Ha as [Ha _].
  rewrite relative_clean; try assumption; [|discriminate | now destruct dA].
  rewrite <- (app_nil_r dA) at 1 3. rewrite dropCommon_prefix. cbn [pathe.dropCommon fst snd map app Js.join].
  apply pathChars_noBackslash.
  pose proof (outputName_pathChars charMapExt b) as Hn.
  unfold pathChars in *. now rewrite sforall_append, Hn.
Qed.

End SiblingLinks.

(** * The properties on concrete inputs *)

Example getOutputPath_nested :
  getOutputPath asciiOnly "Blog Posts/My First Post!.md"
  = "obsidian-foursg/site/blog-posts/my-first-post.html".
Proof. reflexivity. Qed.

Example rewriteLinks_demo :
  rewriteLinks asciiOnly homeDir demoFiles []
    "See [[index]], [[nope|No]] and ![[pic.png]]."
    (mdFile "blog/post1.md" "post1.md" "post1")
  = "See [index](../index.html), [No](#broken-link) and ![pic.png](#broken-image).".
Proof. reflexivity. Qed.



Lemma homeDir_clean : Forall (fun s => cleanSegment s = true) homeDir.
Proof. repeat constructor. Defined.

Lemma wiki_link_roundtrip_witness :
  exists relativePath,
    convertWikiLinks asciiOnly homeDir demoFiles "a [b [[index| Home ]] c"
      (mdFile "blog/post1.md" "post1.md" "post1")
    = "a [b " +:+ ("[" +:+ "Home" +:+ "](" +:+ relativePath +:+ ")") +:+ " c"
    /\ pathe.join [pathe.dirname (getOutputPath asciiOnly "blog/post1.md"); relativePath]
       = getOutputPath asciiOnly "index.md".
Proof.
  assert (Hne : "index| Home " <> "") by discriminate.
  exact (wiki_link_roundtrip asciiOnly homeDir homeDir_clean demoFiles
           (mdFile "blog/post1.md" "post1.md" "post1")
           (mdFile "index.md" "index.md" "index")
           "a [b " "index| Home " " c" "index" [" Home "]
           Hne eq_refl eq_refl eq_refl eq_refl).
Defined.

(** A reference marker that follows an opening bracket is swallowed by
    the match that begins at that bracket: the text looked up is the
    target with a bracket in front, which names no document, although the
    target itself resolves. *)
Lemma reference_after_bracket :
  let body := "[[[index]]]" in
  let output :=
    convertWikiLinks asciiOnly homeDir demoFiles body
      (mdFile "blog/post1.md" "post1.md" "post1") in
  body = "[" +:+ "[[" +:+ "index" +:+ "]]" +:+ "]"
  /\ endsWithBang "[" = false
  /\ openMatch wikiLinkRegex false 0 "[" ("[[" +:+ "index" +:+ "]]" +:+ "]") = Some "["
  /\ findTargetFile demoFiles (Js.trim "index")
     = Some (mdFile "index.md" "index.md" "index")
  /\ output = "[[index](#broken-link)]"
  /\ Js.includes output "index.html" = false.
Proof. repeat split. Qed.

Lemma sitemap_defaults_witness :
  SitemapUrl.changefreq
    (sitemapUrlOf epochDate (mdFile "blog/index.md" "index.md" "index")
       (FrontMatter.mk None None) "obsidian-foursg/site/blog/index.html")
  = Some "weekly"
  /\ SitemapUrl.priority
       (sitemapUrlOf epochDate (mdFile "blog/index.md" "index.md" "index")
          (FrontMatter.mk None None) "obsidian-foursg/site/blog/index.html")
     = Some 0.8%Q.
Proof.
  exact (sitemap_defaults epochDate (mdFile "blog/index.md" "index.md" "index")
           (FrontMatter.mk None None) "obsidian-foursg/site/blog/index.html"
           eq_refl eq_refl).
Defined.

Lemma empty_basename_collision_witness :
  pathe.basename (getOutputPath asciiOnly "notes/!!!.md") "" = ".html"
  /\ getOutputPath asciiOnly "notes/(...).md" = getOutputPath asciiOnly "notes/!!!.md".
Proof.
  destruct (empty_basename_collision asciiOnly "notes/!!!.md" "notes/(...).md"
              eq_refl eq_refl) as [H1 H2].
  split; [exact H1 | exact (H2 eq_refl eq_refl eq_refl)].
Defined.

Lemma findTargetFile_first_match_witness :
  stripMd "blog/post1.md" = "blog/post1"
  /\ findTargetFile demoFiles "post1" = Some (mdFile "blog/post1.md" "post1.md" "post1")
  /\ findTargetFile demoFiles "blog/post1.md"
     = Some (mdFile "blog/post1.md" "post1.md" "post1")
  /\ findTargetFile demoFiles "missing" = None.
Proof.
  destruct (findTargetFile_first_match demoFiles "post1") as (Hstrip & _ & _).
  split; [exact (Hstrip "blog/post1") |]. repeat split.
Defined.

Lemma toXml_serialization_witness :
  SitemapGenerator.toXml noExponent
    (SitemapGenerator.addUrl (SitemapGenerator.new "https://demo.test/")
       (SitemapUrl.mk "index.html" (Some "2025-11-24") (Some "weekly") (Some 1.0%Q)))
  = SitemapGenerator.xmlHeader +:+ Js.nl +:+ SitemapGenerator.urlsetOpen +:+ Js.nl
    +:+ ("  <url>" +:+ Js.nl
         +:+ "    <loc>https://demo.test/index.html</loc>" +:+ Js.nl
         +:+ "    <lastmod>2025-11-24</lastmod>" +:+ Js.nl
         +:+ "    <changefreq>weekly</changefreq>" +:+ Js.nl
         +:+ "    <priority>1.0</priority>" +:+ Js.nl
         +:+ "  </url>")
    +:+ Js.nl +:+ "</urlset>".
Proof.
  exact (proj1 (toXml_serialization noExponent "https://demo.test/"
                  [SitemapUrl.mk "index.html" (Some "2025-11-24") (Some "weekly")
                     (Some 1.0%Q)])).
Defined.

(** The text of [lastmod] goes into the document as it is: an angle
    bracket in it is not replaced by an entity.  And the priority 10^21,
    which is printed as [1e+21], is written without a decimal. *)
Lemma toXml_texts_as_they_are :
  Js.includes
    (SitemapGenerator.toXml exponentNotation
       (SitemapGenerator.addUrl (SitemapGenerator.new "https://demo.test")
          (SitemapUrl.mk "a.html" (Some "<b>") None (Some (10 ^ 21)%Q))))
    ("<lastmod>" +:+ SitemapGenerator.escapeXml "<b>" +:+ "</lastmod>") = false
  /\ SitemapGenerator.toXml exponentNotation
       (SitemapGenerator.addUrl (SitemapGenerator.new "https://demo.test")
          (SitemapUrl.mk "a.html" (Some "<b>") None (Some (10 ^ 21)%Q)))
     = SitemapGenerator.xmlHeader +:+ Js.nl +:+ SitemapGenerator.urlsetOpen +:+ Js.nl
       +:+ ("  <url>" +:+ Js.nl
            +:+ "    <loc>https://demo.test/a.html</loc>" +:+ Js.nl
            +:+ "    <lastmod><b></lastmod>" +:+ Js.nl
            +:+ "    <priority>1e+21</priority>" +:+ Js.nl
            +:+ "  </url>")
       +:+ Js.nl +:+ "</urlset>".
Proof. split; vm_compute; reflexivity. Qed.

Lemma navigation_completeness_witness :
  exists node,
    List.filter (hasOutputPath (getOutputPath asciiOnly "blog/post1.md"))
      (located (buildNavigationTree asciiOnly (fun l => l) demoFiles))
    = [(["blog"], node)].
Proof.
  apply (navigation_completeness asciiOnly (fun l => l) demoFiles
           (mdFile "blog/post1.md" "post1.md" "post1")).
  - reflexivity.
  - repeat constructor.
  - vm_compute. repeat constructor; simpl; intuition discriminate.
  - simpl. auto.
Defined.

(** Two documents whose names differ only in characters that
    [sanitizeFilename] maps to the same text get the same output path:
    the tree has two nodes with it. *)
Lemma navigation_colliding_outputs :
  let files := [mdFile "my note.md" "my note.md" "my note";
                mdFile "my-note.md" "my-note.md" "my-note"] in
  Forall wellFormedFile files
  /\ List.filter (hasOutputPath (getOutputPath asciiOnly "my note.md"))
       (located (buildNavigationTree asciiOnly (fun l => l) files))
     = [([], pageNode asciiOnly (mdFile "my note.md" "my note.md" "my note") false);
        ([], pageNode asciiOnly (mdFile "my-note.md" "my-note.md" "my-note") false)].
Proof. split; [repeat constructor | vm_compute; reflexivity]. Qed.

(** ** The further properties on concrete inputs *)

Lemma getImageOutputPath_shape_witness :
  getImageOutputPath asciiOnly "Holiday Photos/My Cat.PNG"
  = "obsidian-foursg/site/holiday-photos/My Cat.PNG"
  /\ pathe.dirname (getImageOutputPath asciiOnly "Holiday Photos/My Cat.PNG")
     = "obsidian-foursg/site/holiday-photos"
  /\ pathe.basename (getImageOutputPath asciiOnly "Holiday Photos/My Cat.PNG") ""
     = "My Cat.PNG".
Proof.
  exact (getImageOutputPath_shape asciiOnly "Holiday Photos/My Cat.PNG" eq_refl).
Defined.

Lemma getRelativePathToRoot_depth_witness :
  getRelativePathToRoot homeDir (getOutputPath asciiOnly "blog/2024/post.md") = "../../".
Proof.
  exact (getRelativePathToRoot_depth asciiOnly homeDir homeDir_clean "blog/2024/post.md").
Defined.

Lemma rewriteLinks_plain_witness :
  convertWikiLinks asciiOnly homeDir demoFiles "A [link](x.md) and a [ ] box."
    (mdFile "index.md" "index.md" "index")
  = "A [link](x.md) and a [ ] box."
  /\ convertImageEmbeds asciiOnly homeDir [] "A [link](x.md) and a [ ] box."
       (mdFile "index.md" "index.md" "index")
     = "A [link](x.md) and a [ ] box."
  /\ rewriteLinks asciiOnly homeDir demoFiles [] "A [link](x.md) and a [ ] box."
       (mdFile "index.md" "index.md" "index")
     = "A [link](x.md) and a [ ] box.".
Proof.
  exact (rewriteLinks_plain asciiOnly homeDir demoFiles []
           "A [link](x.md) and a [ ] box." (mdFile "index.md" "index.md" "index")
           eq_refl).
Defined.

Lemma generateNavigation_links_every_document_witness :
  occursIn ("<a href=" +:+ Js.dq +:+ "blog/post1.html" +:+ Js.dq)
    (generateNavigation asciiOnly homeDir (fun l => l) demoFiles
       "obsidian-foursg/site/index.html").
Proof.
  apply (generateNavigation_links_every_document asciiOnly homeDir (fun l => l)
           demoFiles (mdFile "blog/post1.md" "post1.md" "post1")
           "obsidian-foursg/site/index.html").
  - reflexivity.
  - repeat constructor.
  - simpl. auto.
Defined.

Lemma navigation_nodes_are_documents_witness :
  exists file, In file demoFiles
    /\ "obsidian-foursg/site/blog/post1.html" = getOutputPath asciiOnly (TFile.path file)
    /\ ["blog"] = ancestorDirs file.
Proof.
  apply (navigation_nodes_are_documents asciiOnly (fun l => l) demoFiles ["blog"]
           (pageNode asciiOnly (mdFile "blog/post1.md" "post1.md" "post1") false)).
  - reflexivity.
  - repeat constructor.
  - vm_compute. right. right. left. reflexivity.
  - discriminate.
Defined.

Lemma hostname_trailing_slash_witness :
  SitemapGenerator.toXml noExponent
    (fold_left SitemapGenerator.addUrl [SitemapUrl.mk "index.html" None None None]
       (SitemapGenerator.new "https://demo.test/"))
  = SitemapGenerator.toXml noExponent
      (fold_left SitemapGenerator.addUrl [SitemapUrl.mk "index.html" None None None]
         (SitemapGenerator.new "https://demo.test"))
  /\ SitemapGenerator.hostname (SitemapGenerator.new "https://demo.test//")
     = "https://demo.test/".
Proof.
  apply (hostname_trailing_slash noExponent "https://demo.test"
           [SitemapUrl.mk "index.html" None None None]).
  discriminate.
Defined.

Lemma isInOutputPath_first_segment_witness :
  isInOutputPath (fun p => p) "obsidian-foursg-notes/a.md" = false
  /\ isInOutputPath (fun p => p) "obsidian-foursg/site/a.html" = true.
Proof.
  destruct (isInOutputPath_first_segment (fun p => p) eq_refl []) as [H _].
  split; [exact (H "obsidian-foursg-notes/a.md") | exact (H "obsidian-foursg/site/a.html")].
Defined.

Lemma removeDirectoryRecursive_plain_rmdir_witness :
  exists calls,
    [CallExists "obsidian-foursg/site"; CallList "obsidian-foursg/site";
     CallRmdir "obsidian-foursg/site" false] = [] ++ calls
    /\ Forall (fun call => forall path, call <> CallRmdir path true) calls.
Proof.
  apply (removeDirectoryRecursive_plain_rmdir (list string) unit listAdapter 1
           "obsidian-foursg/site" ["obsidian-foursg/site"] [] [] _ (Returned tt)).
  reflexivity.
Defined.

Lemma structuredData_headline_witness :
  occursIn
    (Js.dq +:+ "headline" +:+ Js.dq +:+ ": " +:+ Js.dq +:+ "Home </script>" +:+ Js.dq)
    (SeoManager.generateStructuredDataScript
       (SeoConfig.mk "Home </script>" None None None None None None None None None None)).
Proof.
  apply (structuredData_headline
           (SeoConfig.mk "Home </script>" None None None None None None None None None None)).
  reflexivity.
Defined.

(** A title that the YAML reader hands out as a number makes
    [generateSeoData] throw; the same title in quotes does not. *)
Example generateSeoData_numeric_title :
  generateSeoData (fun _ => None) (fun _ => None) "https://demo.test" "Demo" "post1"
    "obsidian-foursg/site/blog/post1.html"
    (<["title" := JsNum (Finite 2024)]> ∅) (Some "blog") (Some "blog") "../" = None
  /\ generateSeoData (fun _ => None) (fun _ => None) "https://demo.test" "Demo" "post1"
       "obsidian-foursg/site/blog/post1.html"
       (<["title" := JsString "2024"]> ∅) (Some "blog") (Some "blog") "../" <> None.
Proof. split; [vm_compute; reflexivity | vm_compute; discriminate]. Qed.



Lemma image_embed_roundtrip_witness :
  exists relativePath,
    convertImageEmbeds asciiOnly homeDir
      [TFile.mk "Holiday Photos/My Cat.PNG" "My Cat.PNG" "My Cat" 0]
      "[Look: ![[My Cat.PNG]]]" (mdFile "blog/post1.md" "post1.md" "post1")
    = convertImageEmbeds asciiOnly homeDir
        [TFile.mk "Holiday Photos/My Cat.PNG" "My Cat.PNG" "My Cat" 0]
        "[Look: " (mdFile "blog/post1.md" "post1.md" "post1")
      +:+ ("![](" +:+ relativePath +:+ ")")
      +:+ convertImageEmbeds asciiOnly homeDir
            [TFile.mk "Holiday Photos/My Cat.PNG" "My Cat.PNG" "My Cat" 0]
            "]" (mdFile "blog/post1.md" "post1.md" "post1")
    /\ pathe.join [pathe.dirname (getOutputPath asciiOnly "blog/post1.md"); relativePath]
       = getImageOutputPath asciiOnly "Holiday Photos/My Cat.PNG".
Proof.
  assert (Hne : "My Cat.PNG" <> "") by discriminate.
  exact (image_embed_roundtrip asciiOnly homeDir homeDir_clean
           [TFile.mk "Holiday Photos/My Cat.PNG" "My Cat.PNG" "My Cat" 0]
           (mdFile "blog/post1.md" "post1.md" "post1")
           (TFile.mk "Holiday Photos/My Cat.PNG" "My Cat.PNG" "My Cat" 0)
           "[Look: " "My Cat.PNG" "]" Hne eq_refl eq_refl eq_refl eq_refl eq_refl).
Defined.

Lemma reference_label_witness :
  linkOf "index | Home" = "index"
  /\ displayTextOf "index | Home" = "Home"
  /\ linkOf "index " = "index"
  /\ displayTextOf "index " = "index".
Proof. exact (reference_label "index " " Home" eq_refl eq_refl). Defined.

Lemma getRelativePath_same_directory_witness :
  getRelativePath homeDir (getOutputPath asciiOnly "blog/post1.md")
    (getOutputPath asciiOnly "blog/Second Post.md")
  = "second-post.html".
Proof.
  exact (getRelativePath_same_directory asciiOnly homeDir homeDir_clean
           "blog/post1.md" "blog/Second Post.md" eq_refl).
Defined.
